(** * log-retina: the log normalisation pipeline, embedded and verified

    The development follows the module [utils/logParser] (level
    classifier, timestamp extractor, the three line parsers, the line
    dispatcher [parseLogFile] and the filter engine [filterLogs]; its
    text is the second part of [src/App.tsx]), the interfaces of
    [src/types/log.ts] and the bucket computation of
    [src/components/Timeline.tsx].

    Modelling conventions.
    - A JavaScript string is a list of code units.  The code-unit type is
      the 8-bit [ascii], so the strings of the model are the strings whose
      code units are below 256 (ISO 8859-1); on this range
      [String.prototype.toLowerCase], [String.prototype.trim] and the
      classes [\d], [\w], [\s] and [.] of regular expressions act unit by
      unit and are written out below.  The filter engine is written a
      second time for any type of strings ([filterOn]), and over 16-bit
      code units in the module [Wide].
    - Regular expressions are data ([regex]) run by a backtracking matcher
      with the priorities of ECMAScript (leftmost start, ordered
      alternation, greedy repetition).
    - What the ECMAScript engine decides (the date parser, the JSON codec,
      the rendering of a fractional Number, the system clock) is a field
      of the record [Runtime]; every function that uses one takes the
      runtime as a parameter.
    - The module-level [idCounter] and the number of clock readings form
      the [World] threaded through the parsers; a thrown exception is the
      result [Throw].  The counter is a natural number without bound.
    - Time values are integers (milliseconds).  The Numbers that
      [Timeline] computes from them are IEEE 754 binary64 values, with the
      operations of [SpecFloat] (rounding to nearest, ties to even).  A
      call that spreads an array into its arguments throws a RangeError
      when the array is longer than the engine allows.  The loop over
      the entries ([fill]) is written for any index function, and what
      is proved about counts does not depend on the index arithmetic.
    - [JSON.stringify] is taken to return: the RangeError it throws on a
      value nested deeper than the stack of the engine allows is not
      modelled. *)

From Stdlib Require Import Ascii String ZArith QArith Qround Qabs Lia Bool Arith List Sorted.
From Stdlib Require Import DecimalString DecimalPos DecimalN DecimalZ.
From Stdlib Require Import SpecFloat.
Import ListNotations.

#[local] Set Warnings "-register-all".

Local Open Scope bool_scope.
Local Open Scope list_scope.
Local Open Scope nat_scope.

(** ** Strings *)

Definition jsstring := list ascii.

(** [str "abc"] is the string literal ['abc']. *)
Definition str (s : string) : jsstring := list_ascii_of_string s.

Arguments str s : simpl never.

Definition chr (s : string) : ascii :=
  match s with
  | String c _ => c
  | EmptyString => Ascii.zero
  end.

Definition code (c : ascii) : N := N_of_ascii c.

Definition between (lo hi : N) (c : ascii) : bool :=
  (lo <=? code c)%N && (code c <=? hi)%N.

Definition isUpper (c : ascii) : bool :=
  between 65 90 c || between 192 214 c || between 216 222 c.

(** [toLowerCase] on one code unit: A-Z and the capital letters of the
    upper half (U+00C0-U+00DE without the multiplication sign) move by 32. *)
Definition lowerChar (c : ascii) : ascii :=
  if isUpper c then ascii_of_N (code c + 32) else c.

Definition toLowerCase (s : jsstring) : jsstring := map lowerChar s.

(** White space and line terminators below 256: TAB, LF, VT, FF, CR, SP
    and NBSP. *)
Definition isSpace (c : ascii) : bool :=
  between 9 13 c || (code c =? 32)%N || (code c =? 160)%N.

Definition isDigit (c : ascii) : bool := between 48 57 c.

(** The class [\w]. *)
Definition isWord (c : ascii) : bool :=
  between 97 122 c || between 65 90 c || isDigit c || (code c =? 95)%N.

Fixpoint dropWhile (p : ascii -> bool) (s : jsstring) : jsstring :=
  match s with
  | [] => []
  | c :: s' => if p c then dropWhile p s' else s
  end.

Definition trimStart (s : jsstring) : jsstring := dropWhile isSpace s.
Definition trimEnd (s : jsstring) : jsstring := rev (dropWhile isSpace (rev s)).
Definition trim (s : jsstring) : jsstring := trimEnd (trimStart s).

Fixpoint streq (a b : jsstring) : bool :=
  match a, b with
  | [], [] => true
  | x :: a', y :: b' => Ascii.eqb x y && streq a' b'
  | _, _ => false
  end.

(** [s.startsWith(p)] *)
Fixpoint startsWith (s p : jsstring) {struct p} : bool :=
  match p with
  | [] => true
  | x :: p' =>
      match s with
      | [] => false
      | y :: s' => Ascii.eqb x y && startsWith s' p'
      end
  end.

(** [s.includes(p)] *)
Fixpoint includes (s p : jsstring) : bool :=
  startsWith s p ||
  match s with
  | [] => false
  | _ :: s' => includes s' p
  end.

(** [s.replace(p, r)] for a string pattern [p] and a replacement [r]
    without dollar patterns: the first occurrence is replaced. *)
Fixpoint replaceFirst (s p r : jsstring) : jsstring :=
  if startsWith s p then r ++ skipn (length p) s
  else match s with
       | [] => []
       | c :: s' => c :: replaceFirst s' p r
       end.

Definition LF : ascii := "010"%char.
Definition QUOTE : ascii := "034"%char.
Definition BACKSLASH : ascii := "092"%char.

(** [s.split('\n')] *)
Fixpoint splitLines (s : jsstring) : list jsstring :=
  match s with
  | [] => [[]]
  | c :: s' =>
      if Ascii.eqb c LF then [] :: splitLines s'
      else match splitLines s' with
           | l :: ls => (c :: l) :: ls
           | [] => [[c]]
           end
  end.

(** A truthy string is a non-empty one. *)
Definition nonEmpty (s : jsstring) : bool :=
  match s with
  | [] => false
  | _ :: _ => true
  end.

(** Code-unit order of strings, the order of [Array.prototype.sort]
    without a comparator. *)
Fixpoint strlt (a b : jsstring) : bool :=
  match a, b with
  | _, [] => false
  | [], _ :: _ => true
  | x :: a', y :: b' =>
      if (code x <? code y)%N then true
      else if (code y <? code x)%N then false
      else strlt a' b'
  end.

(** Decimal rendering of an integer, as in a template literal. *)
Definition Z_to_str (z : Z) : jsstring := str (NilZero.string_of_int (Z.to_int z)).
Definition N_to_str (n : N) : jsstring := str (NilZero.string_of_uint (N.to_uint n)).

(** ** Regular expressions *)

Inductive regex : Type :=
| Empty
| Class (p : ascii -> bool)
| Cat (r1 r2 : regex)
| Or (r1 r2 : regex)
| Star (r : regex)
| Group (i : nat) (r : regex)
| Bol
| Eol.

(** The captures of a match, most recent first. *)
Definition captures := list (nat * jsstring).

Definition kont := jsstring -> captures -> option (jsstring * captures).

(** [rmatch n r s c k] runs [r] on the rest [s] of an input of length [n]
    and hands the rest after the match to the continuation [k]; a failing
    continuation makes the matcher backtrack.  An iteration of [Star]
    that consumes nothing is rejected, as by RepeatMatcher. *)
Fixpoint rmatch (n : nat) (r : regex) (s : jsstring) (c : captures) (k : kont)
  {struct r} : option (jsstring * captures) :=
  match r with
  | Empty => k s c
  | Class p =>
      match s with
      | a :: s' => if p a then k s' c else None
      | [] => None
      end
  | Cat r1 r2 => rmatch n r1 s c (fun s1 c1 => rmatch n r2 s1 c1 k)
  | Or r1 r2 =>
      match rmatch n r1 s c k with
      | Some x => Some x
      | None => rmatch n r2 s c k
      end
  | Star r1 =>
      (fix loop (fuel : nat) (s0 : jsstring) (c0 : captures) {struct fuel} :=
         match fuel with
         | O => k s0 c0
         | S fuel' =>
             match rmatch n r1 s0 c0
                     (fun s1 c1 =>
                        if length s1 <? length s0 then loop fuel' s1 c1 else None) with
             | Some x => Some x
             | None => k s0 c0
             end
         end) (length s) s c
  | Group i r1 =>
      rmatch n r1 s c
        (fun s1 c1 => k s1 ((i, firstn (length s - length s1) s) :: c1))
  | Bol => if length s =? n then k s c else None
  | Eol =>
      match s with
      | [] => k s c
      | _ :: _ => None
      end
  end.

Definition accept : kont := fun s c => Some (s, c).

Record MatchResult := {
  index : nat;
  matched : jsstring;
  groups : captures
}.

Fixpoint search (n : nat) (r : regex) (i : nat) (s : jsstring) : option MatchResult :=
  match rmatch n r s [] accept with
  | Some (s1, c1) =>
      Some {| index := i; matched := firstn (length s - length s1) s; groups := c1 |}
  | None =>
      match s with
      | [] => None
      | _ :: s' => search n r (S i) s'
      end
  end.

(** [s.match(r)] for a regular expression without the [g] flag. *)
Definition exec (r : regex) (s : jsstring) : option MatchResult :=
  search (length s) r 0 s.

(** [m[i]] of a group that took part in the match. *)
Fixpoint group (i : nat) (c : captures) : jsstring :=
  match c with
  | [] => []
  | (j, t) :: c' => if i =? j then t else group i c'
  end.

(** [s.replace(r, '')] for a regular expression without the [g] flag. *)
Definition removeMatch (r : regex) (s : jsstring) : jsstring :=
  match exec r s with
  | Some m => firstn (index m) s ++ skipn (index m + length (matched m)) s
  | None => s
  end.

(** Pattern syntax. *)
Definition lit (c : string) : regex := Class (Ascii.eqb (chr c)).
Definition Plus (r : regex) : regex := Cat r (Star r).
Definition Opt (r : regex) : regex := Or r Empty.

Fixpoint Rep (n : nat) (r : regex) : regex :=
  match n with
  | O => Empty
  | S n' => Cat r (Rep n' r)
  end.

Fixpoint Cats (rs : list regex) : regex :=
  match rs with
  | [] => Empty
  | r :: rs' => Cat r (Cats rs')
  end.

Fixpoint Ors (rs : list regex) : regex :=
  match rs with
  | [] => Class (fun _ => false)
  | [r] => r
  | r :: rs' => Or r (Ors rs')
  end.

Definition d : regex := Class isDigit.
Definition sp : regex := Class isSpace.
Definition w : regex := Class isWord.

(** Canonicalize of the [i] flag on one code unit: a-z go to A-Z; no code
    unit of the upper half is canonicalized to a letter of A-Z. *)
Definition upperAscii (c : ascii) : ascii :=
  if between 97 122 c then ascii_of_N (code c - 32) else c.

(** A literal letter A-Z under the [i] flag. *)
Definition liti (c : ascii) : regex := Class (fun a => Ascii.eqb (upperAscii a) c).

(** A literal word of capital letters under the [i] flag. *)
Definition wordi (s : string) : regex := Cats (map liti (str s)).

(** [.] matches everything but the line terminators LF and CR. *)
Definition dot : regex :=
  Class (fun a => negb ((code a =? 10)%N || (code a =? 13)%N)).

(** ** Levels *)

Inductive LogLevel : Type := debug | info | warn | error | fatal.

Definition LogLevel_eqb (a b : LogLevel) : bool :=
  match a, b with
  | debug, debug | info, info | warn, warn | error, error | fatal, fatal => true
  | _, _ => false
  end.

Definition levelName (l : LogLevel) : jsstring :=
  match l with
  | debug => str "debug"
  | info => str "info"
  | warn => str "warn"
  | error => str "error"
  | fatal => str "fatal"
  end.

(** [detectLogLevel] *)
Definition detectLogLevel (text : jsstring) : LogLevel :=
  let lowerText := toLowerCase text in
  if includes lowerText (str "fatal") || includes lowerText (str "critical") then fatal
  else if includes lowerText (str "error") || includes lowerText (str "err]")
          || streq lowerText (str "error") then error
  else if includes lowerText (str "warn") || includes lowerText (str "warning") then warn
  else if includes lowerText (str "debug") || includes lowerText (str "dbg") then debug
  else if includes lowerText (str "info") then info
  else info.

(** ** The timestamp extractor *)

Definition dateDigits : regex :=
  Cats [Rep 4 d; lit "-"; Rep 2 d; lit "-"; Rep 2 d].

Definition timeDigits : regex :=
  Cats [Rep 2 d; lit ":"; Rep 2 d; lit ":"; Rep 2 d].

Definition fraction (i : nat) : regex :=
  Opt (Group i (Cat (lit ".") (Plus d))).

(** [/\d{4}-\d{2}-\d{2}T\d{2}:\d{2}:\d{2}(\.\d+)?(Z|[+-]\d{2}:?\d{2})?/] *)
Definition isoRegex : regex :=
  Cats [dateDigits; lit "T"; timeDigits; fraction 1;
        Opt (Group 2 (Or (lit "Z")
                         (Cats [Class (fun a => Ascii.eqb a (chr "+") || Ascii.eqb a (chr "-"));
                                Rep 2 d; Opt (lit ":"); Rep 2 d])))].

(** [/\d{4}-\d{2}-\d{2}\s+\d{2}:\d{2}:\d{2}(\.\d+)?/] *)
Definition commonRegex : regex :=
  Cats [dateDigits; Plus sp; timeDigits; fraction 1].

(** [/\d{2}\/\w{3}\/\d{4}:\d{2}:\d{2}:\d{2}/] *)
Definition apacheRegex : regex :=
  Cats [Rep 2 d; lit "/"; Rep 3 w; lit "/"; Rep 4 d; lit ":";
        Rep 2 d; lit ":"; Rep 2 d; lit ":"; Rep 2 d].

(** [/(\d{2})\/(\w{3})\/(\d{4}):(\d{2}):(\d{2}):(\d{2})/] *)
Definition apachePartsRegex : regex :=
  Cats [Group 1 (Rep 2 d); lit "/"; Group 2 (Rep 3 w); lit "/";
        Group 3 (Rep 4 d); lit ":"; Group 4 (Rep 2 d); lit ":";
        Group 5 (Rep 2 d); lit ":"; Group 6 (Rep 2 d)].

Definition months : list (jsstring * jsstring) :=
  [(str "Jan", str "01"); (str "Feb", str "02"); (str "Mar", str "03");
   (str "Apr", str "04"); (str "May", str "05"); (str "Jun", str "06");
   (str "Jul", str "07"); (str "Aug", str "08"); (str "Sep", str "09");
   (str "Oct", str "10"); (str "Nov", str "11"); (str "Dec", str "12")].

Fixpoint lookup {A : Type} (k : jsstring) (m : list (jsstring * A)) : option A :=
  match m with
  | [] => None
  | (k', v) :: m' => if streq k k' then Some v else lookup k m'
  end.

(** [`${months[name]}`]: a missing key is rendered as ['undefined']. *)
Definition monthText (name : jsstring) : jsstring :=
  match lookup name months with
  | Some m => m
  | None => str "undefined"
  end.

(** [extractTimestamp]; [None] is [null]. *)
Definition extractTimestamp (line : jsstring) : option jsstring :=
  match exec isoRegex line with
  | Some isoMatch => Some (matched isoMatch)
  | None =>
      match exec commonRegex line with
      | Some commonMatch =>
          Some (replaceFirst (matched commonMatch) (str " ") (str "T") ++ str "Z")
      | None =>
          match exec apacheRegex line with
          | Some apacheMatch =>
              match exec apachePartsRegex (matched apacheMatch) with
              | Some parts =>
                  let g i := group i (groups parts) in
                  Some (g 3 ++ str "-" ++ monthText (g 2) ++ str "-" ++ g 1 ++ str "T"
                        ++ g 4 ++ str ":" ++ g 5 ++ str ":" ++ g 6 ++ str "Z")
              | None => None
              end
          | None => None
          end
      end
  end.

(** ** Values, exceptions and the runtime *)

(** A Number read from JSON text: a finite value or an infinity (the
    reading of a literal too large for a double); JSON text has no NaN. *)
Inductive number : Type :=
| Fin (q : Q)
| Inf (negative : bool).

(** The values a parsed line can hold: what [JSON.parse] returns, and
    [undefined] for a property that is missing. *)
Inductive JSValue : Type :=
| VUndefined
| VNull
| VBool (b : bool)
| VNum (x : number)
| VStr (s : jsstring)
| VArr (items : list JSValue)
| VObj (fields : list (jsstring * JSValue)).

Inductive result (A : Type) : Type :=
| Ok (a : A)
| Throw.

Arguments Ok {A} a.
Arguments Throw {A}.

Definition rbind {A B : Type} (r : result A) (f : A -> result B) : result B :=
  match r with
  | Ok a => f a
  | Throw => Throw
  end.

(** The part of the behaviour that the engine and its host decide.
    - [clock k] is the value of the k-th reading of the system clock, in
      milliseconds since the epoch;
    - [Date_parse s] is the time value of [new Date(s)] for a string [s],
      [None] for an invalid date (NaN);
    - [toISOString t] is [new Date(t).toISOString()];
    - [JSON_parse s] is [None] where [JSON.parse(s)] throws; the objects
      it returns have pairwise distinct keys;
    - [Number_toString] renders a Number that is not a small integer;
    - [maxArguments] is the number of arguments that the engine accepts
      in one call: spreading a longer array into a call throws a
      RangeError. *)
Record Runtime : Type := {
  clock : nat -> Z;
  Date_parse : jsstring -> option Z;
  toISOString : Z -> jsstring;
  JSON_parse : jsstring -> option JSValue;
  JSON_stringify : JSValue -> jsstring;
  Number_toString : number -> jsstring;
  maxArguments : nat
}.

Definition Qis_zero (q : Q) : bool := (Qnum q =? 0)%Z.

(** ToBoolean *)
Definition truthy (v : JSValue) : bool :=
  match v with
  | VUndefined | VNull => false
  | VBool b => b
  | VNum (Fin q) => negb (Qis_zero q)
  | VNum (Inf _) => true
  | VStr s => nonEmpty s
  | VArr _ | VObj _ => true
  end.

(** [v.name] for the property names the parsers read; none of them is
    inherited from a prototype, so the property of anything but an
    object is [undefined], and reading from [null] or [undefined]
    throws a TypeError. *)
Definition get (v : JSValue) (name : jsstring) : result JSValue :=
  match v with
  | VUndefined | VNull => Throw
  | VObj fields =>
      match lookup name fields with
      | Some x => Ok x
      | None => Ok VUndefined
      end
  | _ => Ok VUndefined
  end.

(** The integers rendered in plain decimal by Number::toString. *)
Definition asInteger (x : number) : option Z :=
  match x with
  | Fin q =>
      if (Z.pos (Qden q) * (Qnum q / Z.pos (Qden q)) =? Qnum q)%Z
         && (Z.abs (Qnum q / Z.pos (Qden q)) <? 10 ^ 21)%Z
      then Some (Qnum q / Z.pos (Qden q))%Z
      else None
  | Inf _ => None
  end.

Definition numberToString (rt : Runtime) (x : number) : jsstring :=
  match asInteger x with
  | Some z => Z_to_str z
  | None =>
      match x with
      | Inf false => str "Infinity"
      | Inf true => str "-Infinity"
      | Fin _ => Number_toString rt x
      end
  end.

(** ToString.  An object read from JSON has no callable property of its
    own: with an own property [toString] neither [toString] nor [valueOf]
    yields a primitive and OrdinaryToPrimitive throws a TypeError; without
    one the inherited method answers ['[object Object]'].  An array is
    joined with commas, [null] and [undefined] items as empty text. *)
Fixpoint toStr (rt : Runtime) (v : JSValue) : result jsstring :=
  match v with
  | VUndefined => Ok (str "undefined")
  | VNull => Ok (str "null")
  | VBool true => Ok (str "true")
  | VBool false => Ok (str "false")
  | VNum x => Ok (numberToString rt x)
  | VStr s => Ok s
  | VArr items =>
      (fix join (l : list JSValue) : result jsstring :=
         match l with
         | [] => Ok []
         | x :: l' =>
             rbind (match x with
                    | VUndefined | VNull => Ok []
                    | _ => toStr rt x
                    end)
               (fun a =>
                  match l' with
                  | [] => Ok a
                  | _ :: _ => rbind (join l') (fun b => Ok (a ++ str "," ++ b))
                  end)
         end) items
  | VObj fields =>
      match lookup (str "toString") fields with
      | Some _ => Throw
      | None => Ok (str "[object Object]")
      end
  end.

Definition Qtrunc (q : Q) : Z :=
  if (Qnum q <? 0)%Z then Qceiling q else Qfloor q.

(** TimeClip of a Number: an invalid date beyond 8.64e15 ms. *)
Definition timeClip (x : number) : option Z :=
  match x with
  | Fin q =>
      if Qle_bool (Qabs q) (inject_Z 8640000000000000) then Some (Qtrunc q) else None
  | Inf _ => None
  end.

(** [new Date(v).getTime()], [None] for NaN: the value is made primitive
    (which throws where [toStr] does); a string is parsed, anything else
    is converted to a Number. *)
Definition newDate (rt : Runtime) (v : JSValue) : result (option Z) :=
  match v with
  | VStr s => Ok (Date_parse rt s)
  | VArr _ | VObj _ => rbind (toStr rt v) (fun s => Ok (Date_parse rt s))
  | VNum x => Ok (timeClip x)
  | VBool true => Ok (Some 1%Z)
  | VBool false | VNull => Ok (Some 0%Z)
  | VUndefined => Ok None
  end.

(** ** The world: id counter and clock *)

Record World : Type := {
  idCounter : N;
  ticks : nat
}.

(** A computation reads and updates the world and returns or throws. *)
Definition M (A : Type) : Type := World -> result A * World.

Definition ret {A : Type} (a : A) : M A := fun w => (Ok a, w).

Definition bind {A B : Type} (m : M A) (f : A -> M B) : M B :=
  fun w =>
    match m w with
    | (Ok a, w') => f a w'
    | (Throw, w') => (Throw, w')
    end.

Definition lift {A : Type} (r : result A) : M A := fun w => (r, w).

(** [try { m } catch { h }] *)
Definition tryCatch {A : Type} (m h : M A) : M A :=
  fun w =>
    match m w with
    | (Ok a, w') => (Ok a, w')
    | (Throw, w') => h w'
    end.

Declare Scope M_scope.
Delimit Scope M_scope with M.
Notation "'do' x <- m ; k" := (bind m (fun x => k))
  (at level 10, x name, m at level 100, k at level 200) : M_scope.
Local Open Scope M_scope.

(** [Date.now()], and the time value of [new Date()]. *)
Definition Date_now (rt : Runtime) : M Z :=
  fun w => (Ok (clock rt (ticks w)), {| idCounter := idCounter w; ticks := S (ticks w) |}).

(** [idCounter++] *)
Definition nextCounter : M N :=
  fun w => (Ok (idCounter w), {| idCounter := N.succ (idCounter w); ticks := ticks w |}).

(** [generateId] *)
Definition generateId (rt : Runtime) : M jsstring :=
  do now <- Date_now rt;
  do n <- nextCounter;
  ret (str "log-" ++ Z_to_str now ++ str "-" ++ N_to_str n).

(** [new Date().toISOString()] *)
Definition nowISO (rt : Runtime) : M jsstring :=
  do now <- Date_now rt;
  ret (toISOString rt now).

(** ** Entries *)

(** [LogEntry] of types/log.ts.  The fields copied from a decoded record
    hold whatever value the record has there; [VUndefined] is an absent
    optional field. *)
Record LogEntry : Type := {
  id : jsstring;
  dt : JSValue;
  level : LogLevel;
  pid : JSValue;
  hostname : JSValue;
  message : jsstring;
  message_field : JSValue;
  data : JSValue;
  raw : option jsstring
}.

Record ParsedLog : Type := {
  entries : list LogEntry;
  levels : list jsstring;
  dateRange : option (Z * Z)
}.

(** [v.n1 || v.n2 || ...]: the first truthy property, read in order. *)
Fixpoint firstTruthy (v : JSValue) (names : list jsstring) : result (option JSValue) :=
  match names with
  | [] => Ok None
  | n :: names' =>
      rbind (get v n)
        (fun x => if truthy x then Ok (Some x) else firstTruthy v names')
  end.

Definition textOf (rt : Runtime) (v : JSValue) : jsstring :=
  match v with
  | VStr s => s
  | _ => JSON_stringify rt v
  end.

(** [parseJsonLog]; [None] is [null]. *)
Definition parseJsonLog (rt : Runtime) (line : jsstring) : M (option LogEntry) :=
  tryCatch
    (do parsed <- lift (match JSON_parse rt line with
                     | Some v => Ok v
                     | None => Throw
                     end);
     do levelRaw <- lift (rbind (firstTruthy parsed
                                [str "level"; str "severity"; str "log_level"; str "loglevel"])
                         (fun o => Ok (match o with
                                       | Some x => x
                                       | None => VStr (str "info")
                                       end)));
     do levelText <- lift (toStr rt levelRaw);
     let level := detectLogLevel levelText in
     do found <- lift (firstTruthy parsed
                      [str "dt"; str "timestamp"; str "time"; str "@timestamp";
                       str "date"; str "datetime"]);
     do timestamp <- match found with
                  | Some x => ret x
                  | None => do s <- nowISO rt; ret (VStr s)
                  end;
     do msg <- lift (firstTruthy parsed
                    [str "message"; str "msg"; str "text"; str "log"; str "body"]);
     let message := match msg with
                    | Some x => x
                    | None => VStr (JSON_stringify rt parsed)
                    end in
     do i <- generateId rt;
     do p <- lift (get parsed (str "pid"));
     do h <- lift (rbind (get parsed (str "hostname"))
                  (fun x => if truthy x then Ok x else get parsed (str "host")));
     do mf <- lift (get parsed (str "message_field"));
     ret (Some {| id := i;
                  dt := timestamp;
                  level := level;
                  pid := p;
                  hostname := h;
                  message := textOf rt message;
                  message_field := mf;
                  data := parsed;
                  raw := Some line |}))
    (ret None).

Definition notBracket : regex := Class (fun a => negb (Ascii.eqb a (chr "]"))).

(** [/^\[([^\]]+)\]\s*\[([^\]]+)\]\s*(.+)$/] *)
Definition structuredRegex : regex :=
  Cats [Bol; lit "["; Group 1 (Plus notBracket); lit "]"; Star sp;
        lit "["; Group 2 (Plus notBracket); lit "]"; Star sp;
        Group 3 (Plus dot); Eol].

(** The [try] block of [parseStructuredTextLog]: [data] is assigned
    before the message is read, so it stays assigned when that throws. *)
Definition structuredPayload (rt : Runtime) (rest : jsstring) : JSValue * jsstring :=
  if startsWith (trim rest) (str "{") then
    match JSON_parse rt rest with
    | None => (VUndefined, rest)
    | Some parsed =>
        match firstTruthy parsed [str "message"; str "msg"] with
        | Throw => (parsed, rest)
        | Ok (Some msgValue) => (parsed, textOf rt msgValue)
        | Ok None => (parsed, rest)
        end
    end
  else (VUndefined, rest).

(** [parseStructuredTextLog] *)
Definition parseStructuredTextLog (rt : Runtime) (line : jsstring) : M (option LogEntry) :=
  match exec structuredRegex line with
  | Some structuredMatch =>
      let timestampPart := group 1 (groups structuredMatch) in
      let levelPart := group 2 (groups structuredMatch) in
      let rest := group 3 (groups structuredMatch) in
      let level := detectLogLevel levelPart in
      let '(data, message) := structuredPayload rt rest in
      do i <- generateId rt;
      ret (Some {| id := i;
                   dt := VStr (if includes timestampPart (str "T") then timestampPart
                               else replaceFirst timestampPart (str " ") (str "T") ++ str "Z");
                   level := level;
                   pid := VUndefined;
                   hostname := VUndefined;
                   message := message;
                   message_field := VUndefined;
                   data := data;
                   raw := Some line |})
  | None => ret None
  end.

(** [/^\d{4}-\d{2}-\d{2}\s+\d{2}:\d{2}:\d{2}(\.\d+)?\s*/] *)
Definition leadingDateTimeRegex : regex :=
  Cats [Bol; dateDigits; Plus sp; timeDigits; fraction 1; Star sp].

(** [/^\s*\[(INFO|WARN|WARNING|ERROR|DEBUG|FATAL|CRITICAL)\]\s*/i] *)
Definition levelTagRegex : regex :=
  Cats [Bol; Star sp; lit "[";
        Group 1 (Ors [wordi "INFO"; wordi "WARN"; wordi "WARNING"; wordi "ERROR";
                      wordi "DEBUG"; wordi "FATAL"; wordi "CRITICAL"]);
        lit "]"; Star sp].

(** The message of [parsePlainTextLog]. *)
Definition plainMessage (line : jsstring) (timestamp : option jsstring) : jsstring :=
  let message :=
    match timestamp with
    | Some ts =>
        if nonEmpty ts then
          let message := trim (replaceFirst line ts []) in
          trim (removeMatch leadingDateTimeRegex message)
        else line
    | None => line
    end in
  let message := trim (removeMatch levelTagRegex message) in
  if nonEmpty message then message else line.

(** [parsePlainTextLog] *)
Definition parsePlainTextLog (rt : Runtime) (line : jsstring) : M LogEntry :=
  let timestamp := extractTimestamp line in
  let level := detectLogLevel line in
  let message := plainMessage line timestamp in
  do i <- generateId rt;
  do t <- match timestamp with
       | Some ts => if nonEmpty ts then ret ts else nowISO rt
       | None => nowISO rt
       end;
  ret {| id := i;
         dt := VStr t;
         level := level;
         pid := VUndefined;
         hostname := VUndefined;
         message := message;
         message_field := VUndefined;
         data := VUndefined;
         raw := Some line |}.

(** ** The line dispatcher *)

(** The variables of the loop of [parseLogFile]. *)
Record Acc : Type := {
  acc_entries : list LogEntry;
  levelsSet : list LogLevel;
  minDate : option Z;
  maxDate : option Z
}.

(** [levelsSet.add(l)]: a Set keeps insertion order and ignores a member
    that is already present. *)
Definition setAdd (l : LogLevel) (s : list LogLevel) : list LogLevel :=
  if existsb (LogLevel_eqb l) s then s else s ++ [l].

(** The three tiers, tried in order on one line. *)
Definition dispatch (rt : Runtime) (line : jsstring) : M (option LogEntry) :=
  do entry <- (if startsWith (trim line) (str "{") then parseJsonLog rt line
            else ret None);
  do entry <- match entry with
           | Some e => ret (Some e)
           | None => parseStructuredTextLog rt line
           end;
  match entry with
  | Some e => ret (Some e)
  | None => do e <- parsePlainTextLog rt line; ret (Some e)
  end.

(** The body of [if (entry) { ... }]. *)
Definition collect (rt : Runtime) (acc : Acc) (entry : LogEntry) : M Acc :=
  do entryDate <- lift (newDate rt (dt entry));
  ret {| acc_entries := acc_entries acc ++ [entry];
         levelsSet := setAdd (level entry) (levelsSet acc);
         minDate := match entryDate with
                    | Some t =>
                        match minDate acc with
                        | None => Some t
                        | Some m => if (t <? m)%Z then Some t else Some m
                        end
                    | None => minDate acc
                    end;
         maxDate := match entryDate with
                    | Some t =>
                        match maxDate acc with
                        | None => Some t
                        | Some m => if (m <? t)%Z then Some t else Some m
                        end
                    | None => maxDate acc
                    end |}.

Fixpoint parseLines (rt : Runtime) (lines : list jsstring) (acc : Acc) : M Acc :=
  match lines with
  | [] => ret acc
  | line :: lines' =>
      do entry <- dispatch rt line;
      do acc' <- match entry with
              | Some e => collect rt acc e
              | None => ret acc
              end;
      parseLines rt lines' acc'
  end.

(** [content.split('\n').filter(line => line.trim())] *)
Definition retainedLines (content : jsstring) : list jsstring :=
  filter (fun line => nonEmpty (trim line)) (splitLines content).

Fixpoint insertSorted (x : jsstring) (l : list jsstring) : list jsstring :=
  match l with
  | [] => [x]
  | y :: l' => if strlt y x then y :: insertSorted x l' else x :: l
  end.

(** [Array.from(levelsSet).sort()] *)
Definition sortedLevels (s : list LogLevel) : list jsstring :=
  fold_right insertSorted [] (map levelName s).

(** [parseLogFile] *)
Definition parseLogFile (rt : Runtime) (content : jsstring) : M ParsedLog :=
  let lines := retainedLines content in
  do acc <- parseLines rt lines
           {| acc_entries := []; levelsSet := []; minDate := None; maxDate := None |};
  ret {| entries := acc_entries acc;
         levels := sortedLevels (levelsSet acc);
         dateRange := match minDate acc, maxDate acc with
                      | Some lo, Some hi => Some (lo, hi)
                      | _, _ => None
                      end |}.

(** ** The filter engine *)

(** The callback of [entries.filter] in [filterLogs]. *)
Definition keeps (rt : Runtime) (search : jsstring) (levels : list LogLevel)
  (entry : LogEntry) : bool :=
  if (0 <? length levels) && negb (existsb (LogLevel_eqb (level entry)) levels) then false
  else if nonEmpty search then
    let searchLower := toLowerCase search in
    let matchesMessage := includes (toLowerCase (message entry)) searchLower in
    let matchesData :=
      truthy (data entry)
      && includes (toLowerCase (JSON_stringify rt (data entry))) searchLower in
    if negb matchesMessage && negb matchesData then false else true
  else true.

(** [filterLogs] *)
Definition filterLogs (rt : Runtime) (entries : list LogEntry) (search : jsstring)
  (levels : list LogLevel) : list LogEntry :=
  filter (keeps rt search levels) entries.

(** The same callback over any type of strings and of entries: what it
    uses of a string is the test [if (search)], [toLowerCase] and
    [includes], and of an entry its level, its message, [entry.data] as a
    condition and [JSON.stringify(entry.data)]. *)
Section FilterOn.

Context {text entry : Type}.
Variable nonEmptyText : text -> bool.
Variable lower : text -> text.
Variable contains : text -> text -> bool.
Variable levelOf : entry -> LogLevel.
Variable messageOf : entry -> text.
Variable hasData : entry -> bool.
Variable dataText : entry -> text.

Definition keepsOn (search : text) (levels : list LogLevel) (e : entry) : bool :=
  if (0 <? length levels) && negb (existsb (LogLevel_eqb (levelOf e)) levels) then false
  else if nonEmptyText search then
    let searchLower := lower search in
    let matchesMessage := contains (lower (messageOf e)) searchLower in
    let matchesData := hasData e && contains (lower (dataText e)) searchLower in
    if negb matchesMessage && negb matchesData then false else true
  else true.

Definition filterOn (entries : list entry) (search : text) (levels : list LogLevel)
  : list entry :=
  filter (keepsOn search levels) entries.

(** The condition that the callback decides. *)
Definition passesOn (search : text) (levels : list LogLevel) (e : entry) : Prop :=
  (levels = [] \/ In (levelOf e) levels)
  /\ (nonEmptyText search = false
      \/ contains (lower (messageOf e)) (lower search) = true
      \/ (hasData e = true /\ contains (lower (dataText e)) (lower search) = true)).

End FilterOn.

(** ** The filter over 16-bit code units

    Strings as sequences of 16-bit code units, with [toLowerCase] written
    out for the letters of Basic Latin, of Latin-1 Supplement and of the
    modern Greek alphabet; other code units are left as they are.  The
    capital sigma becomes the final form of the small letter when a
    cased letter comes before it and none after it, marks that case
    conversion ignores being skipped (the condition Final_Sigma of
    Unicode). *)
Module Wide.

Local Open Scope N_scope.

Definition wstring : Type := list N.

Definition inRange (lo hi c : N) : bool := (lo <=? c) && (c <=? hi).

(** A-Z, U+00C0-U+00DE without the multiplication sign, and the Greek
    capitals U+0391-U+03AB (U+03A2 is not assigned): the small letter is
    32 further on. *)
Definition isCapital (c : N) : bool :=
  inRange 65 90 c || inRange 192 214 c || inRange 216 222 c
  || inRange 913 929 c || inRange 931 939 c.

(** The Greek capitals with tonos, U+0386 to U+038F. *)
Definition lowerTonos (c : N) : option N :=
  if c =? 902 then Some 940
  else if inRange 904 906 c then Some (c + 37)
  else if c =? 908 then Some 972
  else if inRange 910 911 c then Some (c + 63)
  else None.

Definition lowerUnit (c : N) : N :=
  if isCapital c then c + 32
  else match lowerTonos c with
       | Some l => l
       | None => c
       end.

(** Letters with case. *)
Definition isCased (c : N) : bool :=
  inRange 65 90 c || inRange 97 122 c
  || (c =? 170) || (c =? 181) || (c =? 186)
  || inRange 192 214 c || inRange 216 246 c || inRange 248 255 c
  || (c =? 902) || inRange 904 906 c || (c =? 908)
  || inRange 910 929 c || inRange 931 974 c.

(** What case conversion looks through: apostrophe, full stop, colon,
    the spacing accents and the combining marks U+0300-U+036F. *)
Definition isCaseIgnorable (c : N) : bool :=
  (c =? 39) || (c =? 46) || (c =? 58) || (c =? 94) || (c =? 96)
  || (c =? 168) || (c =? 173) || (c =? 175) || (c =? 180) || (c =? 183) || (c =? 184)
  || inRange 768 879 c || (c =? 900) || (c =? 901) || (c =? 903).

Fixpoint skipIgnorable (s : wstring) : wstring :=
  match s with
  | [] => []
  | c :: s' => if isCaseIgnorable c then skipIgnorable s' else s
  end.

(** A cased letter follows, after any ignorable marks. *)
Definition beforeCased (s : wstring) : bool :=
  match skipIgnorable s with
  | c :: _ => isCased c
  | [] => false
  end.

(** [afterCased]: a cased letter came before, with only ignorable marks
    since. *)
Fixpoint lowerFrom (afterCased : bool) (s : wstring) : wstring :=
  match s with
  | [] => []
  | c :: s' =>
      (if c =? 931
       then (if afterCased && negb (beforeCased s') then 962 else 963)
       else lowerUnit c)
      :: lowerFrom (if isCased c then true
                    else if isCaseIgnorable c then afterCased
                    else false) s'
  end.

(** [String.prototype.toLowerCase] *)
Definition toLowerCase (s : wstring) : wstring := lowerFrom false s.

Definition nonEmpty (s : wstring) : bool :=
  match s with
  | [] => false
  | _ :: _ => true
  end.

Fixpoint startsWith (s p : wstring) {struct p} : bool :=
  match p with
  | [] => true
  | x :: p' =>
      match s with
      | [] => false
      | y :: s' => (x =? y) && startsWith s' p'
      end
  end.

(** [s.includes(p)] *)
Fixpoint includes (s p : wstring) : bool :=
  startsWith s p ||
  match s with
  | [] => false
  | _ :: s' => includes s' p
  end.

(** What [filterLogs] reads of an entry; [data] is the text that
    [JSON.stringify(entry.data)] returns, [None] for an entry without
    data. *)
Record Entry : Type := {
  level : LogLevel;
  message : wstring;
  data : option wstring
}.

Definition hasData (e : Entry) : bool :=
  match data e with
  | Some _ => true
  | None => false
  end.

Definition dataText (e : Entry) : wstring :=
  match data e with
  | Some d => d
  | None => []
  end.

(** [filterLogs] *)
Definition filterLogs (entries : list Entry) (search : wstring) (levels : list LogLevel)
  : list Entry :=
  filterOn nonEmpty toLowerCase includes level message hasData dataText
    entries search levels.

(** The message [U+039F U+03A3], capital omicron and capital sigma. *)
Definition omicronSigma : Entry :=
  {| level := info; message := [927; 931]; data := None |}.

End Wide.

(** ** The timeline buckets *)

(** [Record<LogLevel, number>]: one counter per level. *)
Record ByLevel : Type := {
  n_debug : nat;
  n_info : nat;
  n_warn : nat;
  n_error : nat;
  n_fatal : nat
}.

Definition byLevelGet (b : ByLevel) (l : LogLevel) : nat :=
  match l with
  | debug => n_debug b
  | info => n_info b
  | warn => n_warn b
  | error => n_error b
  | fatal => n_fatal b
  end.

(** [b[l]++] *)
Definition byLevelIncr (b : ByLevel) (l : LogLevel) : ByLevel :=
  match l with
  | debug => {| n_debug := S (n_debug b); n_info := n_info b; n_warn := n_warn b;
                n_error := n_error b; n_fatal := n_fatal b |}
  | info => {| n_debug := n_debug b; n_info := S (n_info b); n_warn := n_warn b;
               n_error := n_error b; n_fatal := n_fatal b |}
  | warn => {| n_debug := n_debug b; n_info := n_info b; n_warn := S (n_warn b);
               n_error := n_error b; n_fatal := n_fatal b |}
  | error => {| n_debug := n_debug b; n_info := n_info b; n_warn := n_warn b;
                n_error := S (n_error b); n_fatal := n_fatal b |}
  | fatal => {| n_debug := n_debug b; n_info := n_info b; n_warn := n_warn b;
                n_error := n_error b; n_fatal := S (n_fatal b) |}
  end.

(** [TimelineBucket]; the time value of [timestamp] is [None] for an
    invalid date. *)
Record TimelineBucket : Type := {
  timestamp : option Z;
  count : nat;
  byLevel : ByLevel
}.

Definition emptyBucket (t : option Z) : TimelineBucket :=
  {| timestamp := t;
     count := 0;
     byLevel := {| n_debug := 0; n_info := 0; n_warn := 0; n_error := 0; n_fatal := 0 |} |}.

(** [bucket.count++; bucket.byLevel[l]++] *)
Definition hit (l : LogLevel) (b : TimelineBucket) : TimelineBucket :=
  {| timestamp := timestamp b;
     count := S (count b);
     byLevel := byLevelIncr (byLevel b) l |}.

(** The [Map] from bucket index to bucket, in insertion order. *)
Definition BucketMap := list (Z * TimelineBucket).

Fixpoint mapHas (i : Z) (m : BucketMap) : bool :=
  match m with
  | [] => false
  | (j, _) :: m' => (i =? j)%Z || mapHas i m'
  end.

(** [bucketMap.get(i)] *)
Fixpoint mapGet (i : Z) (m : BucketMap) : option TimelineBucket :=
  match m with
  | [] => None
  | (j, b) :: m' => if (i =? j)%Z then Some b else mapGet i m'
  end.

(** The update of the bucket stored under [i], which is one shared object. *)
Fixpoint mapUpdate (i : Z) (f : TimelineBucket -> TimelineBucket) (m : BucketMap) : BucketMap :=
  match m with
  | [] => []
  | (j, b) :: m' => if (i =? j)%Z then (j, f b) :: m' else (j, b) :: mapUpdate i f m'
  end.

(** One round of the loop for an entry with a valid time: the bucket is
    created when the index is new, then counted up. *)
Definition place (i : Z) (bucketTime : option Z) (l : LogLevel) (m : BucketMap) : BucketMap :=
  let m1 := if mapHas i m then m else m ++ [(i, emptyBucket bucketTime)] in
  mapUpdate i (hit l) m1.

Fixpoint insertByIndex (x : Z * TimelineBucket) (m : BucketMap) : BucketMap :=
  match m with
  | [] => [x]
  | y :: m' => if (fst y <? fst x)%Z then y :: insertByIndex x m' else x :: m
  end.

(** [.sort((a, b) => a[0] - b[0])] *)
Definition sortByIndex (m : BucketMap) : BucketMap :=
  fold_right insertByIndex [] m.

(** Numbers of the bucket arithmetic: binary64, 53 bits of precision.
    The time values they are computed from are integers of at most
    8.64e15 in size, which [ofZ] renders exactly. *)
Definition double : Type := spec_float.

Definition dadd : double -> double -> double := SFadd 53 1024.
Definition dsub : double -> double -> double := SFsub 53 1024.
Definition dmul : double -> double -> double := SFmul 53 1024.
Definition ddiv : double -> double -> double := SFdiv 53 1024.

(** The Number of an integer, rounded when it does not fit 53 bits. *)
Definition ofZ (z : Z) : double := binary_normalize 53 1024 z 0 false.

(** ToBoolean of a Number. *)
Definition falsy (x : double) : bool :=
  match x with
  | S754_nan | S754_zero _ => true
  | _ => false
  end.

(** [Math.max(a, b)] and [Math.min(a, b)]: NaN when one of them is, and
    the negative zero below the positive one. *)
Definition dmax2 (a b : double) : double :=
  match SFcompare a b with
  | None => S754_nan
  | Some Lt => b
  | Some Gt => a
  | Some Eq =>
      match a with
      | S754_zero true => b
      | _ => a
      end
  end.

Definition dmin2 (a b : double) : double :=
  match SFcompare a b with
  | None => S754_nan
  | Some Lt => a
  | Some Gt => b
  | Some Eq =>
      match a with
      | S754_zero false => b
      | _ => a
      end
  end.

(** [Math.floor] of a finite Number, as an integer.  The quotient it is
    applied to is finite: of a difference of time values by a bucket
    size that is 1 or a hundredth of a millisecond at least. *)
Definition floorZ (x : double) : Z :=
  match x with
  | S754_finite s m e => Z.shiftl (if s then Zneg m else Zpos m) e
  | _ => 0
  end.

(** The integer part of a finite Number, towards zero. *)
Definition truncZ (x : double) : Z :=
  match x with
  | S754_finite s m e =>
      match e with
      | Zneg p => Z.quot (if s then Zneg m else Zpos m) (2 ^ Zpos p)
      | _ => Z.shiftl (if s then Zneg m else Zpos m) e
      end
  | _ => 0
  end.

(** TimeClip of a Number computed in doubles. *)
Definition timeClipD (x : double) : option Z :=
  match x with
  | S754_zero _ => Some 0%Z
  | S754_finite _ _ _ =>
      if (Z.abs (truncZ x) <=? 8640000000000000)%Z then Some (truncZ x) else None
  | _ => None
  end.

(** [Math.min(100, Math.max(20, entries.length / 10))] *)
Definition numBuckets (n : nat) : double :=
  dmin2 (ofZ 100) (dmax2 (ofZ 20) (ddiv (ofZ (Z.of_nat n)) (ofZ 10))).

(** [range / numBuckets || 1] *)
Definition bucketSize (range : double) (n : nat) : double :=
  let q := ddiv range (numBuckets n) in
  if falsy q then ofZ 1 else q.

(** [Math.floor((time - minTime) / bucketSize)] *)
Definition bucketIndex (minTime : Z) (size : double) (time : Z) : Z :=
  floorZ (ddiv (dsub (ofZ time) (ofZ minTime)) size).

(** The time value of [new Date(minTime + bucketIndex * bucketSize)]. *)
Definition bucketTime (minTime : Z) (size : double) (i : Z) : option Z :=
  timeClipD (dadd (ofZ minTime) (dmul (ofZ i) size)).

Definition getTime (rt : Runtime) (e : LogEntry) : result (option Z) :=
  newDate rt (dt e).

Fixpoint mapR {A B : Type} (f : A -> result B) (l : list A) : result (list B) :=
  match l with
  | [] => Ok []
  | x :: l' => rbind (f x) (fun y => rbind (mapR f l') (fun ys => Ok (y :: ys)))
  end.

(** [.filter(d => !isNaN(d))] *)
Fixpoint validTimes (l : list (option Z)) : list Z :=
  match l with
  | [] => []
  | Some t :: l' => t :: validTimes l'
  | None :: l' => validTimes l'
  end.

(** The loop over the entries, for any way [ix] of indexing a time and
    [bt] of dating a bucket. *)
Fixpoint fill (rt : Runtime) (ix : Z -> Z) (bt : Z -> option Z)
  (es : list LogEntry) (m : BucketMap) : result BucketMap :=
  match es with
  | [] => Ok m
  | entry :: es' =>
      rbind (getTime rt entry)
        (fun time =>
           match time with
           | None => fill rt ix bt es' m
           | Some t => fill rt ix bt es' (place (ix t) (bt (ix t)) (level entry) m)
           end)
  end.

(** [minTime] and [bucketSize] for the valid times [dates] of [n]
    entries; [None] when there is no valid time.  [Math.min(...dates)]
    and [Math.max(...dates)] take one argument per date, and throw when
    that is more than the engine accepts. *)
Definition grid (rt : Runtime) (dates : list Z) (n : nat) : result (option (Z * double)) :=
  match dates with
  | [] => Ok None
  | d0 :: ds =>
      if length dates <=? maxArguments rt then
        let minTime := fold_left Z.min ds d0 in
        let maxTime := fold_left Z.max ds d0 in
        let range := dsub (ofZ maxTime) (ofZ minTime) in
        Ok (Some (minTime, bucketSize range n))
      else Throw
  end.

(** The sorted map at the end of the [useMemo] of [Timeline]. *)
Definition bucketEntries (rt : Runtime) (entries : list LogEntry) : result BucketMap :=
  if length entries =? 0 then Ok []
  else
    rbind (mapR (getTime rt) entries)
      (fun times =>
         rbind (grid rt (validTimes times) (length entries))
           (fun g =>
              match g with
              | None => Ok []
              | Some (minTime, size) =>
                  rbind (fill rt (bucketIndex minTime size) (bucketTime minTime size)
                           entries [])
                    (fun bucketMap => Ok (sortByIndex bucketMap))
              end)).

(** The value [buckets] of [Timeline]. *)
Definition buckets (rt : Runtime) (entries : list LogEntry) : result (list TimelineBucket) :=
  rbind (bucketEntries rt entries) (fun m => Ok (map snd m)).

(** ** A reference runtime

    One engine to run the definitions on: a JSON reader and writer, the
    date-time format [YYYY-MM-DDTHH:mm:ss.sssZ] in both directions, and a
    clock that starts at 2026-01-01T00:00:00Z and advances by one
    millisecond per reading.  Numbers in JSON text are read exactly. *)
Module Reference.

Local Open Scope Z_scope.

Definition digitValue (c : ascii) : Z := Z.of_N (code c) - 48.

Fixpoint digitsValue (acc : Z) (s : jsstring) : Z :=
  match s with
  | [] => acc
  | c :: s' => digitsValue (10 * acc + digitValue c) s'
  end.

(** Days between 1970-01-01 and a date of the proleptic Gregorian
    calendar, and back. *)
Definition daysFromCivil (y m d : Z) : Z :=
  let y' := if m <=? 2 then y - 1 else y in
  let era := y' / 400 in
  let yoe := y' - era * 400 in
  let doy := (153 * (if 2 <? m then m - 3 else m + 9) + 2) / 5 + d - 1 in
  let doe := yoe * 365 + yoe / 4 - yoe / 100 + doy in
  era * 146097 + doe - 719468.

Definition civilFromDays (z : Z) : Z * Z * Z :=
  let z' := z + 719468 in
  let era := z' / 146097 in
  let doe := z' - era * 146097 in
  let yoe := (doe - doe / 1460 + doe / 36524 - doe / 146096) / 365 in
  let doy := doe - (365 * yoe + yoe / 4 - yoe / 100) in
  let mp := (5 * doy + 2) / 153 in
  let d := doy - (153 * mp + 2) / 5 + 1 in
  let m := if mp <? 10 then mp + 3 else mp - 9 in
  ((yoe + era * 400 + (if m <=? 2 then 1 else 0)), m, d).

Definition padLeft (width : nat) (s : jsstring) : jsstring :=
  (repeat (chr "0") (width - length s) ++ s)%list.

Definition field (width : nat) (z : Z) : jsstring := padLeft width (Z_to_str z).

Definition toISOString (t : Z) : jsstring :=
  let day := t / 86400000 in
  let ms := t mod 86400000 in
  let '(y, m, d) := civilFromDays day in
  (field 4 y ++ str "-" ++ field 2 m ++ str "-" ++ field 2 d ++ str "T"
   ++ field 2 (ms / 3600000) ++ str ":" ++ field 2 (ms / 60000 mod 60) ++ str ":"
   ++ field 2 (ms / 1000 mod 60) ++ str "." ++ field 3 (ms mod 1000) ++ str "Z")%list.

(** [/^(\d{4})-(\d{2})-(\d{2})T(\d{2}):(\d{2}):(\d{2})(?:\.(\d{3}))?Z$/] *)
Definition dateTimeRegex : regex :=
  Cats [Bol; Group 1 (Rep 4 d); lit "-"; Group 2 (Rep 2 d); lit "-"; Group 3 (Rep 2 d);
        lit "T"; Group 4 (Rep 2 d); lit ":"; Group 5 (Rep 2 d); lit ":"; Group 6 (Rep 2 d);
        Opt (Cat (lit ".") (Group 7 (Rep 3 d))); lit "Z"; Eol].

Definition Date_parse (s : jsstring) : option Z :=
  match exec dateTimeRegex s with
  | None => None
  | Some m =>
      let g i := digitsValue 0 (group i (groups m)) in
      let day := daysFromCivil (g 1%nat) (g 2%nat) (g 3%nat) in
      let '(y, mo, dd) := civilFromDays day in
      if (y =? g 1%nat) && (mo =? g 2%nat) && (dd =? g 3%nat)
         && (g 4%nat <? 24) && (g 5%nat <? 60) && (g 6%nat <? 60)
      then Some (day * 86400000 + g 4%nat * 3600000 + g 5%nat * 60000
                 + g 6%nat * 1000 + g 7%nat)
      else None
  end.

Definition isJsonSpace (c : ascii) : bool :=
  (code c =? 32)%N || (code c =? 9)%N || (code c =? 10)%N || (code c =? 13)%N.

Definition skipSpace (s : jsstring) : jsstring := dropWhile isJsonSpace s.

Fixpoint span (p : ascii -> bool) (s : jsstring) : jsstring * jsstring :=
  match s with
  | [] => ([], [])
  | c :: s' => if p c then let '(a, b) := span p s' in (c :: a, b) else ([], s)
  end.

Definition hexValue (c : ascii) : option Z :=
  if isDigit c then Some (digitValue c)
  else if between 97 102 c then Some (Z.of_N (code c) - 87)
  else if between 65 70 c then Some (Z.of_N (code c) - 55)
  else None.

(** The characters of a string literal after the opening quote. *)
Fixpoint readString (fuel : nat) (s : jsstring) : option (jsstring * jsstring) :=
  match fuel with
  | O => None
  | S fuel' =>
      match s with
      | [] => None
      | c :: s' =>
          if Ascii.eqb c QUOTE then Some ([], s')
          else if Ascii.eqb c BACKSLASH then
            match s' with
            | e :: s'' =>
                let simple x := option_map (fun '(t, r) => (x :: t, r)) (readString fuel' s'') in
                if Ascii.eqb e QUOTE then simple QUOTE
                else if Ascii.eqb e BACKSLASH then simple BACKSLASH
                else if Ascii.eqb e (chr "/") then simple (chr "/")
                else if Ascii.eqb e (chr "b") then simple "008"%char
                else if Ascii.eqb e (chr "f") then simple "012"%char
                else if Ascii.eqb e (chr "n") then simple "010"%char
                else if Ascii.eqb e (chr "r") then simple "013"%char
                else if Ascii.eqb e (chr "t") then simple "009"%char
                else if Ascii.eqb e (chr "u") then
                  match s'' with
                  | h1 :: h2 :: h3 :: h4 :: s3 =>
                      match hexValue h1, hexValue h2, hexValue h3, hexValue h4 with
                      | Some 0, Some 0, Some a, Some b =>
                          option_map (fun '(t, r) => (ascii_of_N (Z.to_N (16 * a + b)) :: t, r))
                            (readString fuel' s3)
                      | _, _, _, _ => None
                      end
                  | _ => None
                  end
                else None
            | [] => None
            end
          else if (code c <? 32)%N then None
          else option_map (fun '(t, r) => (c :: t, r)) (readString fuel' s')
      end
  end.

Definition readNumber (s : jsstring) : option (number * jsstring) :=
  let '(neg, s1) := match s with
                    | c :: s' => if Ascii.eqb c (chr "-") then (true, s') else (false, s)
                    | [] => (false, s)
                    end in
  let '(int, s2) := span isDigit s1 in
  match int with
  | [] => None
  | c0 :: int' =>
      if Ascii.eqb c0 (chr "0") && nonEmpty int' then None
      else
        let '(frac, s3) :=
          match s2 with
          | c :: s' => if Ascii.eqb c (chr ".") then span isDigit s' else ([], s2)
          | [] => ([], s2)
          end in
        let fracOk := match s2 with
                      | c :: _ => negb (Ascii.eqb c (chr ".")) || nonEmpty frac
                      | [] => true
                      end in
        let '(ex, s4, expOk) :=
          match s3 with
          | c :: s' =>
              if Ascii.eqb c (chr "e") || Ascii.eqb c (chr "E") then
                let '(sign, s'') :=
                  match s' with
                  | g :: t => if Ascii.eqb g (chr "-") then (-1, t)
                              else if Ascii.eqb g (chr "+") then (1, t) else (1, s')
                  | [] => (1, s')
                  end in
                let '(ds, s5) := span isDigit s'' in
                (sign * digitsValue 0 ds, s5, nonEmpty ds)
              else (0, s3, true)
          | [] => (0, s3, true)
          end in
        if fracOk && expOk then
          let mant := digitsValue 0 (int ++ frac)%list in
          let e := ex - Z.of_nat (length frac) in
          let sgn := if neg then -1 else 1 in
          let x := if mant =? 0 then Fin 0
                   else if 400 <? e then Inf neg
                   else if e <? -400 then Fin 0
                   else if 0 <=? e then Fin (inject_Z (sgn * mant * 10 ^ e))
                   else Fin (sgn * mant # Z.to_pos (10 ^ (- e))) in
          Some (x, s4)
        else None
  end.

Fixpoint setField (k : jsstring) (v : JSValue) (fs : list (jsstring * JSValue)) :=
  match fs with
  | [] => [(k, v)]
  | (k', v') :: fs' => if streq k k' then (k', v) :: fs' else (k', v') :: setField k v fs'
  end.

Fixpoint readValue (fuel : nat) (s : jsstring) : option (JSValue * jsstring) :=
  match fuel with
  | O => None
  | S fuel' =>
      let readItems :=
        fix readItems (n : nat) (acc : list JSValue) (s : jsstring) :=
          match n with
          | O => None
          | S n' =>
              match readValue fuel' s with
              | None => None
              | Some (v, r) =>
                  match skipSpace r with
                  | c :: r' =>
                      if Ascii.eqb c (chr ",") then readItems n' (acc ++ [v])%list r'
                      else if Ascii.eqb c (chr "]") then Some (VArr (acc ++ [v])%list, r')
                      else None
                  | [] => None
                  end
              end
          end in
      let readFields :=
        fix readFields (n : nat) (acc : list (jsstring * JSValue)) (s : jsstring) :=
          match n with
          | O => None
          | S n' =>
              match skipSpace s with
              | q :: s1 =>
                  if Ascii.eqb q QUOTE then
                    match readString (length s1) s1 with
                    | None => None
                    | Some (k, s2) =>
                        match skipSpace s2 with
                        | c :: s3 =>
                            if Ascii.eqb c (chr ":") then
                              match readValue fuel' s3 with
                              | None => None
                              | Some (v, r) =>
                                  match skipSpace r with
                                  | e :: r' =>
                                      if Ascii.eqb e (chr ",") then readFields n' (setField k v acc) r'
                                      else if Ascii.eqb e (chr "}") then Some (VObj (setField k v acc), r')
                                      else None
                                  | [] => None
                                  end
                              end
                            else None
                        | [] => None
                        end
                    end
                  else None
              | [] => None
              end
          end in
      match skipSpace s with
      | [] => None
      | c :: s' =>
          if Ascii.eqb c (chr "{") then
            match skipSpace s' with
            | e :: r => if Ascii.eqb e (chr "}") then Some (VObj [], r)
                        else readFields (length s') [] s'
            | [] => None
            end
          else if Ascii.eqb c (chr "[") then
            match skipSpace s' with
            | e :: r => if Ascii.eqb e (chr "]") then Some (VArr [], r)
                        else readItems (length s') [] s'
            | [] => None
            end
          else if Ascii.eqb c QUOTE then
            option_map (fun '(t, r) => (VStr t, r)) (readString (length s') s')
          else if startsWith (c :: s') (str "true") then Some (VBool true, skipn 4 (c :: s'))
          else if startsWith (c :: s') (str "false") then Some (VBool false, skipn 5 (c :: s'))
          else if startsWith (c :: s') (str "null") then Some (VNull, skipn 4 (c :: s'))
          else option_map (fun '(x, r) => (VNum x, r)) (readNumber (c :: s'))
      end
  end.

Definition JSON_parse (s : jsstring) : option JSValue :=
  match readValue (S (length s)) s with
  | Some (v, r) =>
      match skipSpace r with
      | [] => Some v
      | _ :: _ => None
      end
  | None => None
  end.

(** A fractional Number in plain decimal, with at most 17 places. *)
Definition Number_toString (x : number) : jsstring :=
  match x with
  | Inf false => str "Infinity"
  | Inf true => str "-Infinity"
  | Fin q =>
      let a := Z.abs (Qnum q) in
      let den := Z.pos (Qden q) in
      let places := rev (dropWhile (Ascii.eqb (chr "0"))
                           (rev (field 17 (a mod den * 10 ^ 17 / den)))) in
      ((if Qnum q <? 0 then str "-" else []) ++ Z_to_str (a / den)
       ++ (if nonEmpty places then str "." ++ places else []))%list
  end.

Definition hexDigit (n : Z) : ascii :=
  ascii_of_N (Z.to_N (if n <? 10 then 48 + n else 87 + n)).

Fixpoint quoteChars (s : jsstring) : jsstring :=
  match s with
  | [] => []
  | c :: s' =>
      ((if Ascii.eqb c QUOTE then [BACKSLASH; QUOTE]
        else if Ascii.eqb c BACKSLASH then [BACKSLASH; BACKSLASH]
        else if Ascii.eqb c "008"%char then [BACKSLASH; chr "b"]
        else if Ascii.eqb c "012"%char then [BACKSLASH; chr "f"]
        else if Ascii.eqb c "010"%char then [BACKSLASH; chr "n"]
        else if Ascii.eqb c "013"%char then [BACKSLASH; chr "r"]
        else if Ascii.eqb c "009"%char then [BACKSLASH; chr "t"]
        else if (code c <? 32)%N then
          (BACKSLASH :: str "u00") ++ [hexDigit (Z.of_N (code c) / 16); hexDigit (Z.of_N (code c) mod 16)]
        else [c]) ++ quoteChars s')%list
  end.

Definition quote (s : jsstring) : jsstring := (QUOTE :: quoteChars s ++ [QUOTE])%list.

Fixpoint commaSep (l : list jsstring) : jsstring :=
  match l with
  | [] => []
  | [x] => x
  | x :: l' => (x ++ str "," ++ commaSep l')%list
  end.

Fixpoint JSON_stringify (v : JSValue) : jsstring :=
  match v with
  | VUndefined => str "undefined"
  | VNull => str "null"
  | VBool true => str "true"
  | VBool false => str "false"
  | VNum (Inf _) => str "null"
  | VNum x =>
      match asInteger x with
      | Some z => Z_to_str z
      | None => Number_toString x
      end
  | VStr s => quote s
  | VArr items =>
      (str "[" ++ commaSep ((fix each (l : list JSValue) : list jsstring :=
                               match l with
                               | [] => []
                               | VUndefined :: l' => str "null" :: each l'
                               | x :: l' => JSON_stringify x :: each l'
                               end) items) ++ str "]")%list
  | VObj fields =>
      (str "{" ++ commaSep ((fix each (l : list (jsstring * JSValue)) : list jsstring :=
                               match l with
                               | [] => []
                               | (_, VUndefined) :: l' => each l'
                               | (k, x) :: l' =>
                                   (quote k ++ str ":" ++ JSON_stringify x)%list :: each l'
                               end) fields) ++ str "}")%list
  end.

Definition clock (k : nat) : Z := 1767225600000 + Z.of_nat k.

(** Room for 65535 arguments in a call. *)
Definition maxArguments : nat := N.to_nat 65535.

Definition runtime : Runtime :=
  Build_Runtime clock Date_parse toISOString JSON_parse JSON_stringify Number_toString
    maxArguments.

End Reference.

(** ** Notions used in the statements *)

(** [needle] occurs in [hay] up to the case of letters. *)
Definition ciSubstring (needle hay : jsstring) : Prop :=
  exists pre mid post,
    hay = pre ++ mid ++ post /\ toLowerCase mid = toLowerCase needle.

(** The text has the word in it, in any case of its letters. *)
Definition mentions (word : string) (text : jsstring) : Prop :=
  ciSubstring (str word) text.

(** [selects P l l'] : [l'] is [l] without the members that fail [P], in
    the order of [l]. *)
Inductive selects {A : Type} (P : A -> Prop) : list A -> list A -> Prop :=
| selects_nil : selects P [] []
| selects_keep x l l' : P x -> selects P l l' -> selects P (x :: l) (x :: l')
| selects_drop x l l' : ~ P x -> selects P l l' -> selects P (x :: l) l'.

(** The condition of the filter engine on an entry: its level is among
    the chosen ones, and the search text in lower case is part of the
    message in lower case, or of the JSON text of the data in lower
    case. *)
Definition passes (rt : Runtime) (search : jsstring) (levels : list LogLevel)
  (e : LogEntry) : Prop :=
  (levels = [] \/ In (level e) levels)
  /\ (search = []
      \/ includes (toLowerCase (message e)) (toLowerCase search) = true
      \/ (data e <> VUndefined
          /\ includes (toLowerCase (JSON_stringify rt (data e))) (toLowerCase search) = true)).

(** [needle] is a part of [hay], code unit by code unit. *)
Definition occursIn {A : Type} (needle hay : list A) : Prop :=
  exists pre post, hay = pre ++ needle ++ post.

(** A line that [parseLogFile] hands to the plain-text parser: it does
    not start with an opening brace after white space, and it is not of
    the bracketed form. *)
Definition plainLine (line : jsstring) : Prop :=
  startsWith (trim line) (str "{") = false /\ exec structuredRegex line = None.

(** [data?: Record<string, unknown>] *)
Definition typedData (e : LogEntry) : Prop :=
  data e = VUndefined \/ exists fields, data e = VObj fields.

(** The timestamp of the entry can be handed to [new Date]. *)
Definition convertible (rt : Runtime) (e : LogEntry) : Prop :=
  getTime rt e <> Throw.

(** The timestamp of the entry is a valid instant. *)
Definition validTime (rt : Runtime) (e : LogEntry) : bool :=
  match getTime rt e with
  | Ok (Some _) => true
  | _ => false
  end.

Definition sumCounts (bs : list TimelineBucket) : nat :=
  fold_right (fun b n => count b + n) 0 bs.

(** The bucket index that [Timeline] computes for an entry of [entries];
    [None] for an entry without a valid time. *)
Definition entryIndex (rt : Runtime) (entries : list LogEntry) (e : LogEntry) : option Z :=
  match mapR (getTime rt) entries with
  | Ok times =>
      match grid rt (validTimes times) (length entries), getTime rt e with
      | Ok (Some (minTime, size)), Ok (Some t) => Some (bucketIndex minTime size t)
      | _, _ => None
      end
  | Throw => None
  end.

(** The entries of [es] with a valid time of index [i] under [ix]. *)
Definition hits (rt : Runtime) (ix : Z -> Z) (i : Z) (es : list LogEntry) : list LogEntry :=
  filter (fun e => match getTime rt e with
                   | Ok (Some t) => (i =? ix t)%Z
                   | _ => false
                   end) es.

(** The counters stored under index [i], zero for a missing bucket. *)
Definition countAt (i : Z) (m : BucketMap) : nat :=
  match mapGet i m with
  | Some b => count b
  | None => 0
  end.

Definition levelAt (i : Z) (l : LogLevel) (m : BucketMap) : nat :=
  match mapGet i m with
  | Some b => byLevelGet (byLevel b) l
  | None => 0
  end.

(** The entries that fall into bucket [i]. *)
Definition members (rt : Runtime) (entries : list LogEntry) (i : Z) : list LogEntry :=
  filter (fun e => match entryIndex rt entries e with
                   | Some j => (i =? j)%Z
                   | None => false
                   end) entries.

Definition withLevel (l : LogLevel) (es : list LogEntry) : list LogEntry :=
  filter (fun e => LogLevel_eqb (level e) l) es.

(** Minimum and maximum of a list of times. *)
Definition spanOf (ts : list Z) : option (Z * Z) :=
  match ts with
  | [] => None
  | t :: r => Some (fold_left Z.min r t, fold_left Z.max r t)
  end.

(** The text of an id after its last hyphen, and the number written
    there. *)
Fixpoint takeWhile (p : ascii -> bool) (s : jsstring) : jsstring :=
  match s with
  | [] => []
  | c :: s' => if p c then c :: takeWhile p s' else []
  end.

Definition notHyphen (c : ascii) : bool := negb (Ascii.eqb c (chr "-")).

Definition lastSegment (s : jsstring) : jsstring :=
  rev (takeWhile notHyphen (rev s)).

Definition counterOf (i : jsstring) : N :=
  match NilEmpty.uint_of_string (string_of_list_ascii (lastSegment i)) with
  | Some u => N.of_uint u
  | None => 0%N
  end.

(** A pattern that takes at least one code unit wherever it matches. *)
Fixpoint consuming (r : regex) : bool :=
  match r with
  | Class _ => true
  | Cat r1 r2 => consuming r1 || consuming r2
  | Or r1 r2 => consuming r1 && consuming r2
  | Group _ r1 => consuming r1
  | Empty | Star _ | Bol | Eol => false
  end.

(** The id made from a clock reading and a counter value. *)
Definition idText (now : Z) (n : N) : jsstring :=
  str "log-" ++ Z_to_str now ++ str "-" ++ N_to_str n.

(** How the entry of a line uses the clock besides [generateId]: not at
    all, for a default timestamp read before the id is made (the
    structured-data parser), or for one read after it (the plain-text
    parser). *)
Inductive ClockUse : Type := NoDefault | DefaultFirst | DefaultLast.

(** The entry [core] of a line as it is created in the world [w]. *)
Definition stamp (rt : Runtime) (core : LogEntry) (use : ClockUse) (w : World) : LogEntry :=
  {| id := idText (clock rt (match use with
                              | DefaultFirst => S (ticks w)
                              | _ => ticks w
                              end)) (idCounter w);
     dt := match use with
           | NoDefault => dt core
           | DefaultFirst => VStr (toISOString rt (clock rt (ticks w)))
           | DefaultLast => VStr (toISOString rt (clock rt (S (ticks w))))
           end;
     level := level core;
     pid := pid core;
     hostname := hostname core;
     message := message core;
     message_field := message_field core;
     data := data core;
     raw := raw core |}.

(** The world after the entry is created. *)
Definition advance (use : ClockUse) (w : World) : World :=
  {| idCounter := N.succ (idCounter w);
     ticks := match use with
              | NoDefault => S (ticks w)
              | _ => S (S (ticks w))
              end |}.

(** The ids of [es] end in increasing counter values from [lo] up to,
    not including, [hi]. *)
Definition numbered (lo hi : N) (es : list LogEntry) : Prop :=
  StronglySorted N.lt (map (fun e => counterOf (id e)) es)
  /\ Forall (fun e => (lo <= counterOf (id e) < hi)%N) es.

(** The running minimum and maximum of the loop of [parseLogFile] are
    those of the valid times of the entries collected so far. *)
Definition datesOk (rt : Runtime) (acc : Acc) : Prop :=
  exists times,
    mapR (getTime rt) (acc_entries acc) = Ok times
    /\ minDate acc = option_map fst (spanOf (validTimes times))
    /\ maxDate acc = option_map snd (spanOf (validTimes times)).

(** A process parses one file after the other; a parse that throws
    leaves the world as it is at the throw. *)
Fixpoint parseFiles (rt : Runtime) (contents : list jsstring) (w : World)
  : list (result ParsedLog) * World :=
  match contents with
  | [] => ([], w)
  | content :: contents' =>
      let '(r, w1) := parseLogFile rt content w in
      let '(rs, w2) := parseFiles rt contents' w1 in
      (r :: rs, w2)
  end.

Definition entriesOf (r : result ParsedLog) : list LogEntry :=
  match r with
  | Ok p => entries p
  | Throw => []
  end.

Definition allEntries (rs : list (result ParsedLog)) : list LogEntry :=
  flat_map entriesOf rs.

(** Two entries that differ at most in [id] and in a timestamp taken
    from the clock. *)
Definition sameUpToIdAndClock (rt : Runtime) (e1 e2 : LogEntry) : Prop :=
  level e1 = level e2 /\ message e1 = message e2 /\ raw e1 = raw e2
  /\ data e1 = data e2 /\ pid e1 = pid e2 /\ hostname e1 = hostname e2
  /\ message_field e1 = message_field e2
  /\ (dt e1 = dt e2
      \/ exists k1 k2, dt e1 = VStr (toISOString rt (clock rt k1))
                       /\ dt e2 = VStr (toISOString rt (clock rt k2))).

(** The cleaning of a plain-text message, step by step on the
    characters. *)
Fixpoint takeDigits (n : nat) (s : jsstring) : option jsstring :=
  match n with
  | O => Some s
  | S n' =>
      match s with
      | c :: s' => if isDigit c then takeDigits n' s' else None
      | [] => None
      end
  end.

Definition takeChar (x : ascii) (s : jsstring) : option jsstring :=
  match s with
  | c :: s' => if Ascii.eqb x c then Some s' else None
  | [] => None
  end.

Definition andThen {A B : Type} (o : option A) (f : A -> option B) : option B :=
  match o with
  | Some a => f a
  | None => None
  end.

(** Four digits, hyphen, two digits, hyphen, two digits. *)
Definition afterDate (s : jsstring) : option jsstring :=
  andThen (takeDigits 4 s) (fun s1 =>
  andThen (takeChar (chr "-") s1) (fun s2 =>
  andThen (takeDigits 2 s2) (fun s3 =>
  andThen (takeChar (chr "-") s3) (fun s4 =>
  takeDigits 2 s4)))).

(** Two digits, colon, two digits, colon, two digits. *)
Definition afterTime (s : jsstring) : option jsstring :=
  andThen (takeDigits 2 s) (fun s1 =>
  andThen (takeChar (chr ":") s1) (fun s2 =>
  andThen (takeDigits 2 s2) (fun s3 =>
  andThen (takeChar (chr ":") s3) (fun s4 =>
  takeDigits 2 s4)))).

(** A point and the digits that follow it, when there is one at least. *)
Definition afterFraction (s : jsstring) : jsstring :=
  match s with
  | c :: e :: s' =>
      if Ascii.eqb (chr ".") c && isDigit e then dropWhile isDigit s' else s
  | _ => s
  end.

(** The text without a date and time at its start (separated by white
    space) and the white space after them. *)
Definition stripLeadingDateTime (s : jsstring) : jsstring :=
  match andThen (afterDate s) (fun s1 =>
        match s1 with
        | c :: s2 => if isSpace c then afterTime (dropWhile isSpace s2) else None
        | [] => None
        end) with
  | Some s3 => dropWhile isSpace (afterFraction s3)
  | None => s
  end.

Definition levelTags : list jsstring :=
  [str "INFO"; str "WARN"; str "WARNING"; str "ERROR"; str "DEBUG"; str "FATAL";
   str "CRITICAL"].

Definition notClosing (c : ascii) : bool := negb (Ascii.eqb c (chr "]")).

(** The text without a bracketed level tag at its start, the white space
    around the tag included. *)
Definition stripLeadingLevelTag (s : jsstring) : jsstring :=
  match dropWhile isSpace s with
  | c :: s1 =>
      if Ascii.eqb c (chr "[")
         && existsb (streq (map upperAscii (takeWhile notClosing s1))) levelTags
      then match dropWhile notClosing s1 with
           | _ :: s2 => dropWhile isSpace s2
           | [] => s
           end
      else s
  | [] => s
  end.

(** The last steps of the cleaning: the level tag is stripped, the rest
    trimmed, and an empty result replaced by the line. *)
Definition finishMessage (line m0 : jsstring) : jsstring :=
  match trim (stripLeadingLevelTag m0) with
  | [] => line
  | c :: m1 => c :: m1
  end.

(** The message of a plain-text line, step by step. *)
Definition cleanedMessage (line : jsstring) : jsstring :=
  finishMessage line
    match extractTimestamp line with
    | Some ts => trim (stripLeadingDateTime (trim (replaceFirst line ts [])))
    | None => line
    end.

(** Sample inputs. *)
Definition sampleEntry (i t : string) (l : LogLevel) (m : string) : LogEntry :=
  {| id := str i; dt := VStr (str t); level := l; pid := VUndefined;
     hostname := VUndefined; message := str m; message_field := VUndefined;
     data := VUndefined; raw := Some (str m) |}.

Definition sampleEntries : list LogEntry :=
  [sampleEntry "log-1-0" "2026-01-09T20:52:09Z" info "started";
   sampleEntry "log-1-1" "2026-01-09T20:52:19Z" error "connection refused";
   sampleEntry "log-1-2" "yesterday" warn "disk at 90%"].

Definition sameInstantEntries : list LogEntry :=
  [sampleEntry "log-1-0" "2026-01-09T20:52:09Z" info "started";
   sampleEntry "log-1-1" "2026-01-09T20:52:09Z" error "connection refused"].

(** 130000 entries at one instant. *)
Definition manyEntries : list LogEntry :=
  repeat (sampleEntry "log-1-0" "2026-01-09T20:52:09Z" info "started") (N.to_nat 130000).

Definition quoted (s : string) : jsstring := QUOTE :: str s ++ [QUOTE].

Definition world0 : World := {| idCounter := 0; ticks := 0 |}.

(** The line [{"dt":{"toString":1}}]. *)
Definition objectTimestampLine : jsstring :=
  str "{" ++ quoted "dt" ++ str ":{" ++ quoted "toString" ++ str ":1}}".

(** Eleven lines of plain text. *)
Definition elevenLines : jsstring :=
  concat (map (fun l => str l ++ [LF])
            ["a"; "b"; "c"; "d"; "e"; "f"; "g"; "h"; "i"; "j"; "k"]%string).

(** The reference runtime with all clock readings in one millisecond. *)
Definition frozenRuntime : Runtime :=
  Build_Runtime (fun _ => 1767225600000%Z) Reference.Date_parse Reference.toISOString
    Reference.JSON_parse Reference.JSON_stringify Reference.Number_toString
    Reference.maxArguments.

(** * The rest of the code

    The scale and the date range that [Timeline] computes from its
    buckets, the state and the handlers of [LogViewer], the message cell
    of [LogTable], and the record that [LogDetail] shows (its text is the
    second part of [src/components/Timeline.tsx]).  What the components
    draw, the formatting of dates by date-fns, the clipboard and the
    reading of files are not modelled. *)

(** ** [Timeline], after the buckets *)

(** The greatest of the numbers [ns] and of [n0]. *)
Definition maxOf (ns : list nat) (n0 : nat) : nat := fold_right Nat.max n0 ns.

(** [Math.max(...buckets.map(b => b.count), 1)]: one argument per bucket
    and one more, and a throw when that is more than the engine
    accepts. *)
Definition maxCount (rt : Runtime) (bs : list TimelineBucket) : result nat :=
  if S (length bs) <=? maxArguments rt then Ok (maxOf (map count bs) 1) else Throw.

(** Four entries 0, 33, 34 and 44 milliseconds after the epoch. *)
Definition unevenEntries : list LogEntry :=
  [sampleEntry "log-1-0" "1970-01-01T00:00:00.000Z" info "a";
   sampleEntry "log-1-1" "1970-01-01T00:00:00.033Z" info "b";
   sampleEntry "log-1-2" "1970-01-01T00:00:00.034Z" info "c";
   sampleEntry "log-1-3" "1970-01-01T00:00:00.044Z" info "d"].

(** ** [LogViewer] *)

(** The five pieces of state of the component. *)
Record ViewerState : Type := {
  parsedLog : option ParsedLog;
  selectedEntry : option LogEntry;
  searchQuery : jsstring;
  selectedLevels : list LogLevel;
  showLevelFilter : bool
}.

(** The state at the first render. *)
Definition initialState : ViewerState :=
  {| parsedLog := None; selectedEntry := None; searchQuery := [];
     selectedLevels := []; showLevelFilter := false |}.

(** [handleFileLoad]: the state is set after [parseLogFile] has
    returned; when it throws no state is set. *)
Definition handleFileLoad (rt : Runtime) (content : jsstring) (st : ViewerState)
  : M ViewerState :=
  do parsed <- parseLogFile rt content;
  ret {| parsedLog := Some parsed; selectedEntry := None; searchQuery := [];
         selectedLevels := []; showLevelFilter := showLevelFilter st |}.

(** The updater of [handleLevelToggle]. *)
Definition toggleLevel (l : LogLevel) (prev : list LogLevel) : list LogLevel :=
  if existsb (LogLevel_eqb l) prev
  then filter (fun x => negb (LogLevel_eqb x l)) prev
  else prev ++ [l].

(** [handleLevelToggle] *)
Definition handleLevelToggle (l : LogLevel) (st : ViewerState) : ViewerState :=
  {| parsedLog := parsedLog st; selectedEntry := selectedEntry st;
     searchQuery := searchQuery st; selectedLevels := toggleLevel l (selectedLevels st);
     showLevelFilter := showLevelFilter st |}.

(** [clearFilters] *)
Definition clearFilters (st : ViewerState) : ViewerState :=
  {| parsedLog := parsedLog st; selectedEntry := selectedEntry st;
     searchQuery := []; selectedLevels := []; showLevelFilter := showLevelFilter st |}.

(** [setSearchQuery(e.target.value)] *)
Definition setSearchQuery (q : jsstring) (st : ViewerState) : ViewerState :=
  {| parsedLog := parsedLog st; selectedEntry := selectedEntry st;
     searchQuery := q; selectedLevels := selectedLevels st;
     showLevelFilter := showLevelFilter st |}.

(** [hasFilters] *)
Definition hasFilters (st : ViewerState) : bool :=
  (0 <? length (selectedLevels st)) || (0 <? length (searchQuery st)).

(** [filteredEntries] *)
Definition filteredEntries (rt : Runtime) (st : ViewerState) : list LogEntry :=
  match parsedLog st with
  | None => []
  | Some p => filterLogs rt (entries p) (searchQuery st) (selectedLevels st)
  end.

(** [setSelectedEntry] *)
Definition setSelectedEntry (e : option LogEntry) (st : ViewerState) : ViewerState :=
  {| parsedLog := parsedLog st; selectedEntry := e;
     searchQuery := searchQuery st; selectedLevels := selectedLevels st;
     showLevelFilter := showLevelFilter st |}.

(** [setShowLevelFilter(!showLevelFilter)] *)
Definition toggleMenu (st : ViewerState) : ViewerState :=
  {| parsedLog := parsedLog st; selectedEntry := selectedEntry st;
     searchQuery := searchQuery st; selectedLevels := selectedLevels st;
     showLevelFilter := negb (showLevelFilter st) |}.

(** What the user can do to the component: a file is read and handed to
    [handleFileLoad], a level is toggled in the menu or removed by its
    tag, the search text is edited, the filters are cleared, a row of
    the table is clicked, the detail panel is closed, the level menu is
    opened or closed. *)
Inductive Event : Type :=
| FileLoaded (content : jsstring)
| LevelToggled (l : LogLevel)
| QueryTyped (q : jsstring)
| FiltersCleared
| RowClicked (i : nat)
| DetailClosed
| MenuToggled.

(** The handler of an event.  The rows of the table are the filtered
    entries, and a click hands the entry of its row to
    [setSelectedEntry]; an exception in [handleFileLoad] leaves its
    callback before any state is set. *)
Definition handle (rt : Runtime) (ev : Event) (st : ViewerState) (w : World)
  : ViewerState * World :=
  match ev with
  | FileLoaded content =>
      match handleFileLoad rt content st w with
      | (Ok st', w') => (st', w')
      | (Throw, w') => (st, w')
      end
  | LevelToggled l => (handleLevelToggle l st, w)
  | QueryTyped q => (setSearchQuery q st, w)
  | FiltersCleared => (clearFilters st, w)
  | RowClicked i =>
      match nth_error (filteredEntries rt st) i with
      | Some e => (setSelectedEntry (Some e) st, w)
      | None => (st, w)
      end
  | DetailClosed => (setSelectedEntry None st, w)
  | MenuToggled => (toggleMenu st, w)
  end.

(** A session: the events in order, from a state and a world. *)
Fixpoint session (rt : Runtime) (evs : list Event) (st : ViewerState) (w : World)
  : ViewerState * World :=
  match evs with
  | [] => (st, w)
  | ev :: evs' =>
      let '(st', w') := handle rt ev st w in
      session rt evs' st' w'
  end.

(** The entries of the loaded file, none before a file is loaded. *)
Definition loadedEntries (st : ViewerState) : list LogEntry :=
  match parsedLog st with
  | Some p => entries p
  | None => []
  end.

(** ** [LogTable] *)

(** [s.split(sep)] for a separator that is not empty: [skip] is the
    number of code units of a separator found that are still to pass. *)
Fixpoint splitFrom (sep : jsstring) (skip : nat) (s : jsstring) : list jsstring :=
  match skip with
  | S skip' =>
      match s with
      | [] => [[]]
      | _ :: s' => splitFrom sep skip' s'
      end
  | O =>
      match s with
      | [] => [[]]
      | c :: s' =>
          if startsWith s sep then [] :: splitFrom sep (length sep - 1) s'
          else match splitFrom sep 0 s' with
               | part :: parts => (c :: part) :: parts
               | [] => [[c]]
               end
      end
  end.

Definition splitOn (sep s : jsstring) : list jsstring := splitFrom sep 0 s.

(** [truncateMessage] *)
Definition truncateMessage (message : jsstring) (maxLength : nat) : jsstring :=
  if length message <=? maxLength then message
  else firstn maxLength message ++ str "...".

(** [getMessageText]: the value handed to the message cell, which is
    whatever [data.message] is when the text before the first ['}} ']
    decodes. *)
Definition getMessageText (rt : Runtime) (entry : LogEntry) : JSValue :=
  let parts := splitOn (str "}} ") (message entry) in
  if length parts <=? 1 then VStr (truncateMessage (message entry) 150)
  else
    match JSON_parse rt (hd [] parts ++ str "}}") with
    | None => VStr (truncateMessage (message entry) 150)
    | Some data =>
        match get data (str "message") with
        | Ok v => v
        | Throw => VStr (truncateMessage (message entry) 150)
        end
    end.

(** ** [LogDetail] *)

(** [typeof v === 'object'] *)
Definition isObjectType (v : JSValue) : bool :=
  match v with
  | VNull | VArr _ | VObj _ => true
  | _ => false
  end.

(** [typeof v === 'object' && v !== null] *)
Definition isObjectValue (v : JSValue) : bool :=
  match v with
  | VArr _ | VObj _ => true
  | _ => false
  end.

(** The value [parsedData] of [LogDetail], with the calls of
    [console.log] on the way, each with its two arguments. *)
Definition parsedData (rt : Runtime) (entry : LogEntry)
  : JSValue * list (jsstring * jsstring) :=
  if truthy (data entry) && isObjectType (data entry) then (data entry, [])
  else
    let parts := splitOn (str "}} ") (message entry) in
    let fromMessage :=
      if 1 <? length parts then
        match JSON_parse rt (hd [] parts ++ str "}}") with
        | Some parsed => if isObjectValue parsed then (Some parsed, []) else (None, [])
        | None => (None, [(str "Failed to parse message as JSON:", message entry)])
        end
      else (None, [(str "Failed to parse message as JSON:", message entry)]) in
    match fromMessage with
    | (Some parsed, out) => (parsed, out)
    | (None, out) =>
        let fromRaw :=
          match raw entry with
          | Some r =>
              if nonEmpty r then
                match JSON_parse rt r with
                | Some parsed => if isObjectValue parsed then Some parsed else None
                | None => None
                end
              else None
          | None => None
          end in
        match fromRaw with
        | Some parsed => (parsed, out)
        | None => (VObj [(str "content", VStr (message entry))], out)
        end
    end.

(** ** Notions used in the further statements *)

(** The rank of a level in the order of the tests of [detectLogLevel]. *)
Definition priority (l : LogLevel) : nat :=
  match l with
  | info => 0
  | debug => 1
  | warn => 2
  | error => 3
  | fatal => 4
  end.

Definition CR : ascii := "013"%char.

Definition viewerSample : ViewerState :=
  {| parsedLog := Some {| entries := sampleEntries; levels := [];
                          dateRange := None |};
     selectedEntry := None; searchQuery := str "disk";
     selectedLevels := [warn; error]; showLevelFilter := true |}.

(** The levels in the order of their names as strings. *)
Definition levelsByName : list LogLevel := [debug; error; fatal; info; warn].

(** The levels of [levelsByName] that occur in a list. *)
Definition presentLevels (ls : list LogLevel) : list LogLevel :=
  filter (fun l => existsb (LogLevel_eqb l) ls) levelsByName.

(** White space only: blanks, tabs, line ends. *)
Definition blankContent : jsstring := [chr " "; LF; "009"%char; CR; LF; chr " "].

(** The characters that [.] matches. *)
Definition isDot (a : ascii) : bool := negb ((code a =? 10)%N || (code a =? 13)%N).

(** A line of two bracketed fields and a rest, with white space between
    them. *)
Definition structuredLine (a ws1 b ws2 rest : jsstring) : jsstring :=
  str "[" ++ a ++ str "]" ++ ws1 ++ str "[" ++ b ++ str "]" ++ ws2 ++ rest.

(** The property names that [parseJsonLog] reads the level, the
    timestamp and the message from, in the order of reading. *)
Definition levelKeys : list jsstring :=
  [str "level"; str "severity"; str "log_level"; str "loglevel"].

Definition timestampKeys : list jsstring :=
  [str "dt"; str "timestamp"; str "time"; str "@timestamp"; str "date"; str "datetime"].

Definition messageKeys : list jsstring :=
  [str "message"; str "msg"; str "text"; str "log"; str "body"].

(** The line [{"level":50,"msg":"boom"}]. *)
Definition numericLevelLine : jsstring :=
  str "{" ++ quoted "level" ++ str ":50," ++ quoted "msg" ++ str ":" ++ quoted "boom"
  ++ str "}".

(** * Properties *)
(** ** Strings *)

Lemma startsWith_spec (s p : jsstring) :
  startsWith s p = true <-> exists post, s = p ++ post.
Proof.
  revert s; induction p as [|x p IH]; intros s; simpl.
  - split; [intros _; now exists s | reflexivity].
  - destruct s as [|y s].
    + split; [discriminate | intros [post H]; discriminate].
    + rewrite andb_true_iff, Ascii.eqb_eq, IH. split.
      * intros [-> [post ->]]. now exists post.
      * intros [post H]. injection H as -> ->. split; [reflexivity | now exists post].
Qed.

Lemma includes_spec (s p : jsstring) :
  includes s p = true <-> exists pre post, s = pre ++ p ++ post.
Proof.
  induction s as [|c s IH]; simpl.
  - rewrite orb_false_r, startsWith_spec. split.
    + intros [post H]. now exists [], post.
    + intros [pre [post H]]. destruct pre; [now exists post | discriminate].
  - rewrite orb_true_iff, startsWith_spec, IH. split.
    + intros [[post H] | [pre [post H]]].
      * now exists [], post.
      * exists (c :: pre), post. now rewrite H.
    + intros [pre [post H]]. destruct pre as [|c' pre].
      * left. now exists post.
      * right. injection H as _ H. now exists pre, post.
Qed.

Lemma toLowerCase_app (a b : jsstring) :
  toLowerCase (a ++ b) = toLowerCase a ++ toLowerCase b.
Proof. apply map_app. Qed.

(** Searching the lowered text for the lowered needle is searching the
    text up to case. *)
Lemma ciSubstring_includes (needle hay : jsstring) :
  ciSubstring needle hay <->
  includes (toLowerCase hay) (toLowerCase needle) = true.
Proof.
  rewrite includes_spec. split.
  - intros [pre [mid [post [-> H]]]].
    exists (toLowerCase pre), (toLowerCase post).
    now rewrite !toLowerCase_app, H.
  - intros [pre [post H]]. unfold toLowerCase in H.
    apply map_eq_app in H as [pre' [rest [-> [Hpre H]]]].
    apply map_eq_app in H as [mid [post' [-> [Hmid Hpost]]]].
    now exists pre', mid, post'.
Qed.

Lemma ciSubstring_lower (w : jsstring) (text : jsstring) :
  toLowerCase w = w ->
  (ciSubstring w text <-> includes (toLowerCase text) w = true).
Proof. intros H. rewrite ciSubstring_includes. now rewrite H. Qed.

Lemma streq_spec (a b : jsstring) : streq a b = true <-> a = b.
Proof.
  revert b; induction a as [|x a IH]; intros [|y b]; simpl; try (split; congruence).
  rewrite andb_true_iff, Ascii.eqb_eq, IH. split; [intros [-> ->]; reflexivity | intros H; now injection H].
Qed.

Lemma includes_refl (s : jsstring) : includes s s = true.
Proof. apply includes_spec. exists [], []. now rewrite app_nil_r. Qed.

(** ** The level classifier *)

Section Classifier.

Variable text : jsstring.

Let found (word : string) : bool := includes (toLowerCase text) (str word).

Lemma warning_has_warn : found "warning" = true -> found "warn" = true.
Proof.
  unfold found. rewrite !includes_spec. intros [pre [post H]].
  exists pre, (str "ing" ++ post). rewrite H. reflexivity.
Qed.

Lemma detectLogLevel_cases :
  detectLogLevel text =
  if found "fatal" || found "critical" then fatal
  else if found "error" || found "err]" then error
  else if found "warn" then warn
  else if found "debug" || found "dbg" then debug
  else info.
Proof.
  pose proof warning_has_warn as Hw.
  unfold detectLogLevel, found in *.
  destruct (includes (toLowerCase text) (str "fatal")
            || includes (toLowerCase text) (str "critical")); [reflexivity|].
  destruct (includes (toLowerCase text) (str "error")
            || includes (toLowerCase text) (str "err]")) eqn:He; [reflexivity|].
  destruct (streq (toLowerCase text) (str "error")) eqn:Hs.
  { apply streq_spec in Hs. rewrite Hs, includes_refl in He. discriminate. }
  cbn [orb].
  destruct (includes (toLowerCase text) (str "warn")) eqn:Hwarn; [reflexivity|].
  destruct (includes (toLowerCase text) (str "warning")); [now specialize (Hw eq_refl)|].
  cbn [orb].
  destruct (includes (toLowerCase text) (str "debug")
            || includes (toLowerCase text) (str "dbg")); [reflexivity|].
  now destruct (includes (toLowerCase text) (str "info")).
Qed.

End Classifier.

Lemma mentions_found (word : string) (text : jsstring) :
  toLowerCase (str word) = str word ->
  (mentions word text <-> includes (toLowerCase text) (str word) = true).
Proof. apply ciSubstring_lower. Qed.

Ltac found_of_mentions :=
  repeat match goal with
    | H : context [mentions ?w ?t] |- _ =>
        rewrite (mentions_found w t eq_refl) in H
    | |- context [mentions ?w ?t] =>
        rewrite (mentions_found w t eq_refl)
    end.

(** C2, as amended.  The classification is case-insensitive and follows
    the fixed priority fatal/critical, error/err], warn, debug/dbg, info;
    ["ERROR"], ["error"] and ["[err]"] are classified as error; a text
    with both "warn" and "error" is classified as error when it has
    neither "fatal" nor "critical". *)
Theorem detectLogLevel_priority (text : jsstring) :
  (mentions "fatal" text \/ mentions "critical" text -> detectLogLevel text = fatal)
  /\ (~ (mentions "fatal" text \/ mentions "critical" text) ->
      (mentions "error" text \/ mentions "err]" text -> detectLogLevel text = error)
      /\ (~ (mentions "error" text \/ mentions "err]" text) ->
          (mentions "warn" text -> detectLogLevel text = warn)
          /\ (~ mentions "warn" text ->
              (mentions "debug" text \/ mentions "dbg" text -> detectLogLevel text = debug)
              /\ (~ (mentions "debug" text \/ mentions "dbg" text) ->
                  detectLogLevel text = info))))
  /\ detectLogLevel (str "ERROR") = error
  /\ detectLogLevel (str "error") = error
  /\ detectLogLevel (str "[err]") = error
  /\ (mentions "warn" text -> mentions "error" text ->
      ~ (mentions "fatal" text \/ mentions "critical" text) ->
      detectLogLevel text = error).
Proof.
  rewrite (detectLogLevel_cases text).
  found_of_mentions.
  destruct (includes (toLowerCase text) (str "fatal"));
    destruct (includes (toLowerCase text) (str "critical"));
    destruct (includes (toLowerCase text) (str "error"));
    destruct (includes (toLowerCase text) (str "err]"));
    destruct (includes (toLowerCase text) (str "warn"));
    destruct (includes (toLowerCase text) (str "debug"));
    destruct (includes (toLowerCase text) (str "dbg"));
    cbn [orb];
    repeat split; try reflexivity; intros;
    repeat match goal with
      | H : _ \/ _ |- _ => destruct H
      | H : ~ _ |- _ => solve [exfalso; apply H; auto]
      end; try discriminate; try reflexivity.
Qed.

Lemma detectLogLevel_priority_witness :
  mentions "warn" (str "WARN: disk error")
  /\ mentions "error" (str "WARN: disk error")
  /\ ~ (mentions "fatal" (str "WARN: disk error")
        \/ mentions "critical" (str "WARN: disk error"))
  /\ detectLogLevel (str "WARN: disk error") = error.
Proof.
  assert (Hw : mentions "warn" (str "WARN: disk error"))
    by (apply mentions_found; reflexivity).
  assert (He : mentions "error" (str "WARN: disk error"))
    by (apply mentions_found; reflexivity).
  assert (Hf : ~ (mentions "fatal" (str "WARN: disk error")
                  \/ mentions "critical" (str "WARN: disk error"))).
  { intros [H | H]; apply mentions_found in H; try reflexivity; discriminate H. }
  split; [exact Hw | split; [exact He | split; [exact Hf |]]].
  exact (proj2 (proj2 (proj2 (proj2 (proj2
           (detectLogLevel_priority (str "WARN: disk error")))))) Hw He Hf).
Defined.

(** C2, as stated: a text with "warn" and "error" that also has "fatal"
    is classified as fatal, not as error. *)
Lemma detectLogLevel_warn_error_not_always_error :
  ~ (forall text : jsstring,
        mentions "warn" text -> mentions "error" text ->
        detectLogLevel text = error).
Proof.
  intros H.
  specialize (H (str "warning: fatal error")).
  assert (detectLogLevel (str "warning: fatal error") = error) as E.
  { apply H; apply mentions_found; reflexivity. }
  discriminate E.
Qed.

(** ** The filter engine *)

Lemma LogLevel_eqb_eq (a b : LogLevel) : LogLevel_eqb a b = true <-> a = b.
Proof. destruct a, b; simpl; split; congruence. Qed.

Lemma level_member (l : LogLevel) (levels : list LogLevel) :
  existsb (LogLevel_eqb l) levels = true <-> In l levels.
Proof.
  rewrite existsb_exists. split.
  - intros [x [Hin H]]. apply LogLevel_eqb_eq in H. now subst.
  - intros H. exists l. split; [assumption | now apply LogLevel_eqb_eq].
Qed.

Lemma nonEmpty_false (s : jsstring) : nonEmpty s = false <-> s = [].
Proof. destruct s; simpl; split; congruence. Qed.

Lemma truthy_typed (e : LogEntry) :
  typedData e -> (truthy (data e) = true <-> data e <> VUndefined).
Proof.
  intros [H | [fields H]]; rewrite H; simpl; split; congruence.
Qed.

(** The callback decides its condition, whatever the strings and their
    operations are. *)
Lemma keepsOn_passesOn {text entry : Type} (nonEmptyText : text -> bool)
  (lower : text -> text) (contains : text -> text -> bool)
  (levelOf : entry -> LogLevel) (messageOf : entry -> text)
  (hasData : entry -> bool) (dataText : entry -> text)
  (search : text) (levels : list LogLevel) (e : entry) :
  keepsOn nonEmptyText lower contains levelOf messageOf hasData dataText search levels e
  = true
  <-> passesOn nonEmptyText lower contains levelOf messageOf hasData dataText
        search levels e.
Proof.
  unfold keepsOn, passesOn.
  pose proof (level_member (levelOf e) levels) as Hl.
  assert (Hlev : (0 <? length levels) && negb (existsb (LogLevel_eqb (levelOf e)) levels)
                 = false <-> levels = [] \/ In (levelOf e) levels).
  { destruct levels as [|l0 ls] eqn:El.
    - split; [now left | reflexivity].
    - rewrite <- El in *.
      assert ((0 <? length levels) = true) as -> by (subst; reflexivity).
      cbn [andb]. destruct (existsb (LogLevel_eqb (levelOf e)) levels); cbn [negb].
      + split; [intros _; right; now apply Hl | reflexivity].
      + split; [discriminate|]. intros [H | H]; [subst; discriminate|].
        apply Hl in H. discriminate. }
  destruct ((0 <? length levels) && negb (existsb (LogLevel_eqb (levelOf e)) levels)).
  - split; [discriminate|]. intros [H _]. apply Hlev in H. discriminate.
  - assert (Hlv : levels = [] \/ In (levelOf e) levels) by now apply Hlev.
    destruct (nonEmptyText search).
    + cbv zeta.
      destruct (contains (lower (messageOf e)) (lower search));
        destruct (hasData e);
        destruct (contains (lower (dataText e)) (lower search)); cbn [negb andb];
        (split; [intros H; first [discriminate H | split; [exact Hlv | tauto]]
                |intros [_ [H | [H | [H1 H2]]]]; try discriminate; reflexivity]).
    + split; [intros _; split; [exact Hlv | now left] | reflexivity].
Qed.

Lemma keeps_keepsOn (rt : Runtime) (search : jsstring) (levels : list LogLevel)
  (e : LogEntry) :
  keeps rt search levels e =
  keepsOn nonEmpty toLowerCase includes level message
    (fun e => truthy (data e)) (fun e => JSON_stringify rt (data e)) search levels e.
Proof. reflexivity. Qed.

(** The callback of [filterLogs] decides the condition [passes]. *)
Lemma keeps_passes (rt : Runtime) (search : jsstring) (levels : list LogLevel)
  (e : LogEntry) :
  typedData e ->
  (keeps rt search levels e = true <-> passes rt search levels e).
Proof.
  intros Ht. rewrite keeps_keepsOn, keepsOn_passesOn. unfold passesOn, passes.
  pose proof (truthy_typed e Ht) as Hd.
  pose proof (nonEmpty_false search) as Hs.
  tauto.
Qed.

Lemma filter_selects {A : Type} (f : A -> bool) (P : A -> Prop) (l : list A) :
  Forall (fun x => f x = true <-> P x) l -> selects P l (filter f l).
Proof.
  induction 1 as [|x l Hx _ IH]; simpl.
  - constructor.
  - destruct (f x) eqn:E.
    + apply selects_keep; [now apply Hx | assumption].
    + apply selects_drop; [|assumption]. intros HP. apply Hx in HP. congruence.
Qed.

Lemma filter_all {A : Type} (f : A -> bool) (l : list A) :
  (forall x, f x = true) -> filter f l = l.
Proof. intros H. induction l as [|x l IH]; simpl; [reflexivity|]. now rewrite H, IH. Qed.

(** C3, as amended.  [filterLogs] returns exactly the entries whose
    level is among the chosen ones, or any level when none is chosen, and
    whose message or JSON text of the data, in lower case, has the search
    text in lower case in it, or any when the search text is empty; they
    come in their original order, and all of them for an empty search
    and an empty level list.  The same holds of the filter over any type
    of strings, whatever [toLowerCase] and [includes] do on them. *)
Theorem filterLogs_selects (rt : Runtime) (entries : list LogEntry)
  (search : jsstring) (levels : list LogLevel) :
  Forall typedData entries ->
  selects (passes rt search levels) entries (filterLogs rt entries search levels)
  /\ filterLogs rt entries [] [] = entries
  /\ (forall (text entry : Type) (nonEmptyText : text -> bool) (lower : text -> text)
        (contains : text -> text -> bool) (levelOf : entry -> LogLevel)
        (messageOf : entry -> text) (hasData : entry -> bool) (dataText : entry -> text)
        (es : list entry) (s : text) (ls : list LogLevel),
        selects
          (passesOn nonEmptyText lower contains levelOf messageOf hasData dataText s ls)
          es
          (filterOn nonEmptyText lower contains levelOf messageOf hasData dataText
             es s ls)).
Proof.
  intros Ht. split; [|split].
  - apply filter_selects. eapply Forall_impl; [|exact Ht].
    intros e He. now apply keeps_passes.
  - apply filter_all. reflexivity.
  - intros. apply filter_selects. apply Forall_forall. intros e _.
    apply keepsOn_passesOn.
Qed.

(** ** The bucket map *)

Lemma mapHas_get (i : Z) (m : BucketMap) :
  mapHas i m = match mapGet i m with Some _ => true | None => false end.
Proof.
  induction m as [|[j b] m IH]; simpl; [reflexivity|].
  destruct (i =? j)%Z; simpl; [reflexivity | exact IH].
Qed.

Lemma mapGet_update (i j : Z) (f : TimelineBucket -> TimelineBucket) (m : BucketMap) :
  mapGet j (mapUpdate i f m) =
  if (j =? i)%Z then option_map f (mapGet j m) else mapGet j m.
Proof.
  induction m as [|[k b] m IH]; simpl.
  - now destruct (j =? i)%Z.
  - destruct (i =? k)%Z eqn:Eik; simpl.
    + apply Z.eqb_eq in Eik. subst k.
      destruct (j =? i)%Z; reflexivity.
    + destruct (j =? k)%Z eqn:Ejk.
      * apply Z.eqb_eq in Ejk. subst k.
        rewrite Z.eqb_sym in Eik. now rewrite Eik.
      * exact IH.
Qed.

Lemma mapGet_app (j : Z) (m m' : BucketMap) :
  mapGet j (m ++ m') =
  match mapGet j m with Some b => Some b | None => mapGet j m' end.
Proof.
  induction m as [|[k b] m IH]; simpl; [reflexivity|].
  now destruct (j =? k)%Z.
Qed.

Lemma mapGet_place (i j : Z) (t : option Z) (l : LogLevel) (m : BucketMap) :
  mapGet j (place i t l m) =
  if (j =? i)%Z then
    Some (hit l (match mapGet i m with Some b => b | None => emptyBucket t end))
  else mapGet j m.
Proof.
  unfold place. rewrite mapGet_update, mapHas_get.
  destruct (j =? i)%Z eqn:E.
  - apply Z.eqb_eq in E. subst j.
    destruct (mapGet i m) eqn:G.
    + now rewrite G.
    + rewrite mapGet_app, G. simpl. now rewrite Z.eqb_refl.
  - destruct (mapGet i m) eqn:G; [reflexivity|].
    rewrite mapGet_app. simpl. rewrite E. now destruct (mapGet j m).
Qed.

Lemma keys_update (i : Z) (f : TimelineBucket -> TimelineBucket) (m : BucketMap) :
  map fst (mapUpdate i f m) = map fst m.
Proof.
  induction m as [|[k b] m IH]; simpl; [reflexivity|].
  destruct (i =? k)%Z; simpl; [reflexivity | now rewrite IH].
Qed.

Lemma mapGet_None_keys (i : Z) (m : BucketMap) :
  mapGet i m = None <-> ~ In i (map fst m).
Proof.
  induction m as [|[k b] m IH]; simpl.
  - tauto.
  - destruct (i =? k)%Z eqn:E.
    + apply Z.eqb_eq in E. subst. split; [discriminate | intros H; exfalso; apply H; now left].
    + apply Z.eqb_neq in E. rewrite IH. split.
      * intros H [H1 | H1]; [congruence | tauto].
      * intros H H1. apply H. now right.
Qed.

Lemma keys_place_NoDup (i : Z) (t : option Z) (l : LogLevel) (m : BucketMap) :
  NoDup (map fst m) -> NoDup (map fst (place i t l m)).
Proof.
  intros H. unfold place. rewrite keys_update, mapHas_get.
  destruct (mapGet i m) eqn:G; [assumption|].
  rewrite map_app. simpl.
  apply mapGet_None_keys in G.
  apply NoDup_app; [assumption | constructor; [intros []| constructor] |].
  intros a Ha [Hb | []]. now subst.
Qed.

Lemma sumCounts_app (a b : list TimelineBucket) :
  sumCounts (a ++ b) = sumCounts a + sumCounts b.
Proof. induction a as [|x a IH]; simpl; [reflexivity | rewrite IH; lia]. Qed.

Lemma sumCounts_update (i : Z) (l : LogLevel) (m : BucketMap) :
  mapHas i m = true ->
  sumCounts (map snd (mapUpdate i (hit l) m)) = S (sumCounts (map snd m)).
Proof.
  induction m as [|[k b] m IH]; simpl; [discriminate|].
  destruct (i =? k)%Z; simpl.
  - intros _. reflexivity.
  - intros H. rewrite IH by exact H. lia.
Qed.

Lemma mapHas_app (i : Z) (m m' : BucketMap) :
  mapHas i (m ++ m') = mapHas i m || mapHas i m'.
Proof.
  induction m as [|[k b] m IH]; simpl; [reflexivity|].
  now rewrite IH, orb_assoc.
Qed.

Lemma sumCounts_place (i : Z) (t : option Z) (l : LogLevel) (m : BucketMap) :
  sumCounts (map snd (place i t l m)) = S (sumCounts (map snd m)).
Proof.
  unfold place. destruct (mapHas i m) eqn:H.
  - now apply sumCounts_update.
  - rewrite sumCounts_update.
    + rewrite map_app, sumCounts_app. simpl. lia.
    + rewrite mapHas_app. simpl. rewrite Z.eqb_refl. now rewrite orb_true_r.
Qed.

Lemma sumCounts_insert (x : Z * TimelineBucket) (m : BucketMap) :
  sumCounts (map snd (insertByIndex x m)) = count (snd x) + sumCounts (map snd m).
Proof.
  induction m as [|y m IH]; simpl; [reflexivity|].
  destruct (fst y <? fst x)%Z; simpl; [rewrite IH; lia | reflexivity].
Qed.

Lemma sumCounts_sort (m : BucketMap) :
  sumCounts (map snd (sortByIndex m)) = sumCounts (map snd m).
Proof.
  induction m as [|x m IH]; simpl; [reflexivity|].
  unfold sortByIndex in *. simpl. now rewrite sumCounts_insert, IH.
Qed.

Lemma insertByIndex_In (x y : Z * TimelineBucket) (m : BucketMap) :
  In y (insertByIndex x m) <-> y = x \/ In y m.
Proof.
  induction m as [|z m IH]; simpl.
  - intuition.
  - destruct (fst z <? fst x)%Z; simpl; [rewrite IH|]; intuition.
Qed.

Lemma sortByIndex_In (y : Z * TimelineBucket) (m : BucketMap) :
  In y (sortByIndex m) <-> In y m.
Proof.
  induction m as [|x m IH]; simpl; [tauto|].
  unfold sortByIndex in *. simpl. rewrite insertByIndex_In, IH. intuition.
Qed.

Lemma mapGet_In (i : Z) (b : TimelineBucket) (m : BucketMap) :
  NoDup (map fst m) -> (In (i, b) m <-> mapGet i m = Some b).
Proof.
  induction m as [|[k c] m IH]; simpl; intros H.
  - split; [intros [] | discriminate].
  - inversion H as [|? ? Hk Hm]; subst.
    destruct (i =? k)%Z eqn:E.
    + apply Z.eqb_eq in E. subst k. split.
      * intros [H1 | H1]; [now injection H1 as -> |].
        exfalso. apply Hk. now apply (in_map fst) in H1.
      * intros H1. injection H1 as ->. now left.
    + apply Z.eqb_neq in E. rewrite <- (IH Hm). split.
      * intros [H1 | H1]; [injection H1 as -> ->; congruence | assumption].
      * intros H1. now right.
Qed.

(** ** The loop of the bucketizer *)

Section Fill.

Variable rt : Runtime.
Variable ix : Z -> Z.
Variable bt : Z -> option Z.

Lemma validTime_getTime (e : LogEntry) :
  validTime rt e = true <-> exists t, getTime rt e = Ok (Some t).
Proof.
  unfold validTime. destruct (getTime rt e) as [[t|]|].
  - split; [intros _; now exists t | reflexivity].
  - split; [discriminate | intros [t H]; discriminate].
  - split; [discriminate | intros [t H]; discriminate].
Qed.

(** The loop returns when every timestamp can be converted, the keys
    stay distinct, and the counters add up. *)
Lemma fill_total (es : list LogEntry) (m : BucketMap) :
  Forall (convertible rt) es ->
  exists m', fill rt ix bt es m = Ok m'
             /\ (NoDup (map fst m) -> NoDup (map fst m'))
             /\ sumCounts (map snd m') =
                sumCounts (map snd m) + length (filter (validTime rt) es).
Proof.
  intros H. revert m. induction H as [|e es He _ IH]; intros m; simpl.
  - exists m. split; [reflexivity|]. split; [auto|]. simpl. lia.
  - unfold convertible in He.
    assert (Hv : validTime rt e = match getTime rt e with Ok (Some _) => true | _ => false end)
      by reflexivity.
    rewrite Hv. clear Hv.
    destruct (getTime rt e) as [[t|]|]; simpl; [| |congruence].
    + destruct (IH (place (ix t) (bt (ix t)) (level e) m)) as [m' [E [N S]]].
      exists m'. split; [exact E|]. split.
      * intros Hm. apply N. now apply keys_place_NoDup.
      * rewrite S, sumCounts_place. lia.
    + apply IH.
Qed.

End Fill.

Lemma byLevelGet_incr (b : ByLevel) (l l' : LogLevel) :
  byLevelGet (byLevelIncr b l) l' =
  byLevelGet b l' + (if LogLevel_eqb l' l then 1 else 0).
Proof. destruct l, l'; simpl; lia. Qed.

Lemma countAt_place (i j : Z) (t : option Z) (l : LogLevel) (m : BucketMap) :
  countAt i (place j t l m) = countAt i m + (if (i =? j)%Z then 1 else 0).
Proof.
  unfold countAt. rewrite mapGet_place.
  destruct (i =? j)%Z eqn:E.
  - apply Z.eqb_eq in E. subst j. destruct (mapGet i m); simpl; lia.
  - lia.
Qed.

Lemma levelAt_place (i j : Z) (t : option Z) (l l' : LogLevel) (m : BucketMap) :
  levelAt i l' (place j t l m) =
  levelAt i l' m + (if (i =? j)%Z && LogLevel_eqb l' l then 1 else 0).
Proof.
  unfold levelAt. rewrite mapGet_place.
  destruct (i =? j)%Z eqn:E.
  - apply Z.eqb_eq in E. subst j.
    destruct (mapGet i m); simpl; rewrite byLevelGet_incr; simpl;
      destruct (LogLevel_eqb l' l); try lia; destruct l'; simpl; lia.
  - simpl. lia.
Qed.

Lemma withLevel_sum (es : list LogEntry) :
  length es =
  length (withLevel debug es) + length (withLevel info es) + length (withLevel warn es)
  + length (withLevel error es) + length (withLevel fatal es).
Proof.
  induction es as [|e es IH]; simpl; [reflexivity|].
  destruct (level e); simpl; lia.
Qed.

Section FillCounters.

Variable rt : Runtime.
Variable ix : Z -> Z.
Variable bt : Z -> option Z.

Lemma hits_cons (i : Z) (e : LogEntry) (es : list LogEntry) :
  hits rt ix i (e :: es) =
  match getTime rt e with
  | Ok (Some t) => if (i =? ix t)%Z then e :: hits rt ix i es else hits rt ix i es
  | _ => hits rt ix i es
  end.
Proof. unfold hits. simpl. now destruct (getTime rt e) as [[t|]|]. Qed.

(** After the loop, the bucket of an index has counted the entries of
    that index, level by level, and a bucket exists for the indices
    that were hit and no other. *)
Lemma fill_counters (es : list LogEntry) (m m' : BucketMap) :
  fill rt ix bt es m = Ok m' ->
  forall i,
    countAt i m' = countAt i m + length (hits rt ix i es)
    /\ (forall l, levelAt i l m' = levelAt i l m + length (withLevel l (hits rt ix i es)))
    /\ (mapGet i m' = None <-> mapGet i m = None /\ hits rt ix i es = []).
Proof.
  revert m. induction es as [|e es IH]; intros m.
  - intros H i. injection H as <-. simpl. repeat split; try lia; tauto.
  - intros H i. rewrite hits_cons. simpl in H.
    destruct (getTime rt e) as [[t|]|]; simpl in H; [| now apply IH | discriminate].
    destruct (IH _ H i) as [C [L G]].
    rewrite countAt_place in C.
    split; [|split].
    + rewrite C. destruct (i =? ix t)%Z; simpl; lia.
    + intros l. rewrite (L l), levelAt_place.
      destruct (i =? ix t)%Z; simpl; [|lia].
      destruct (LogLevel_eqb (level e) l) eqn:E.
      * apply LogLevel_eqb_eq in E. subst l.
        replace (LogLevel_eqb (level e) (level e)) with true
          by (symmetry; now apply LogLevel_eqb_eq).
        simpl. lia.
      * replace (LogLevel_eqb l (level e)) with false; [lia|].
        destruct (LogLevel_eqb l (level e)) eqn:E'; [|reflexivity].
        apply LogLevel_eqb_eq in E'. subst l.
        rewrite (proj2 (LogLevel_eqb_eq _ _) eq_refl) in E. discriminate.
    + rewrite G, mapGet_place.
      destruct (i =? ix t)%Z; split.
      * intros [Hn _]. discriminate.
      * intros [_ Hn]. discriminate.
      * tauto.
      * tauto.
Qed.

End FillCounters.

(** ** The buckets of [Timeline] *)

Lemma mapR_total (rt : Runtime) (es : list LogEntry) :
  Forall (convertible rt) es ->
  exists times, mapR (getTime rt) es = Ok times
                /\ length (validTimes times) = length (filter (validTime rt) es).
Proof.
  induction 1 as [|e es He _ [times [E L]]]; simpl.
  - now exists [].
  - unfold convertible in He.
    assert (Hv : validTime rt e = match getTime rt e with Ok (Some _) => true | _ => false end)
      by reflexivity.
    rewrite Hv. clear Hv.
    destruct (getTime rt e) as [[t|]|]; [| |congruence]; rewrite E; simpl.
    + exists (Some t :: times). simpl. now rewrite L.
    + exists (None :: times). simpl. now rewrite L.
Qed.

(** [grid] returns nothing for no date, throws for more dates than one
    call takes, and otherwise gives the least date and the bucket size. *)
Lemma grid_nil (rt : Runtime) (n : nat) : grid rt [] n = Ok None.
Proof. reflexivity. Qed.

Lemma grid_None (rt : Runtime) (dates : list Z) (n : nat) :
  grid rt dates n = Ok None <-> dates = [].
Proof.
  destruct dates as [|d ds]; [split; reflexivity|].
  unfold grid. destruct (length (d :: ds) <=? maxArguments rt); split; congruence.
Qed.

Lemma grid_Throw (rt : Runtime) (dates : list Z) (n : nat) :
  grid rt dates n = Throw <-> maxArguments rt < length dates.
Proof.
  destruct dates as [|d ds].
  - simpl. split; [discriminate | lia].
  - unfold grid. destruct (length (d :: ds) <=? maxArguments rt) eqn:E.
    + apply Nat.leb_le in E. split; [discriminate | lia].
    + apply Nat.leb_gt in E. split; [intros _; exact E | reflexivity].
Qed.

Lemma grid_Some (rt : Runtime) (dates : list Z) (n : nat) (minTime : Z) (size : double) :
  grid rt dates n = Ok (Some (minTime, size)) ->
  length dates <= maxArguments rt
  /\ exists maxTime,
       spanOf dates = Some (minTime, maxTime)
       /\ size = bucketSize (dsub (ofZ maxTime) (ofZ minTime)) n.
Proof.
  destruct dates as [|d ds]; [discriminate|].
  unfold grid. destruct (length (d :: ds) <=? maxArguments rt) eqn:E; [|discriminate].
  apply Nat.leb_le in E. intros H. injection H as <- <-.
  split; [exact E|]. eexists. split; reflexivity.
Qed.

Lemma grid_within (rt : Runtime) (d : Z) (ds : list Z) (n : nat) :
  length (d :: ds) <= maxArguments rt ->
  grid rt (d :: ds) n =
  Ok (Some (fold_left Z.min ds d,
            bucketSize (dsub (ofZ (fold_left Z.max ds d)) (ofZ (fold_left Z.min ds d))) n)).
Proof.
  intros H. unfold grid. apply Nat.leb_le in H. now rewrite H.
Qed.

(** The shape of the result of [bucketEntries]. *)
Lemma bucketEntries_inv (rt : Runtime) (entries : list LogEntry) :
  Forall (convertible rt) entries ->
  exists times,
    mapR (getTime rt) entries = Ok times
    /\ length (validTimes times) = length (filter (validTime rt) entries)
    /\ match grid rt (validTimes times) (length entries) with
       | Throw => bucketEntries rt entries = Throw
       | Ok None => bucketEntries rt entries = Ok []
       | Ok (Some (minTime, size)) =>
           exists m,
             fill rt (bucketIndex minTime size) (bucketTime minTime size) entries [] = Ok m
             /\ NoDup (map fst m)
             /\ sumCounts (map snd m) = length (filter (validTime rt) entries)
             /\ bucketEntries rt entries = Ok (sortByIndex m)
       end.
Proof.
  intros H.
  destruct (mapR_total rt entries H) as [times [E L]].
  exists times. split; [exact E|]. split; [exact L|].
  unfold bucketEntries.
  destruct entries as [|e0 es] eqn:Ees.
  - simpl in E. injection E as <-. reflexivity.
  - rewrite <- Ees in *.
    assert ((length entries =? 0) = false) as -> by (subst; reflexivity).
    rewrite E. simpl.
    destruct (grid rt (validTimes times) (length entries)) as [[[minTime size]|]|];
      [|reflexivity|reflexivity].
    destruct (fill_total rt (bucketIndex minTime size) (bucketTime minTime size)
                entries [] H) as [m [F [N S]]].
    exists m. cbn [rbind]. rewrite F. simpl in S. repeat split; auto. apply N. constructor.
Qed.

Lemma mapR_convertible (rt : Runtime) (es : list LogEntry) (times : list (option Z)) :
  mapR (getTime rt) es = Ok times -> Forall (convertible rt) es.
Proof.
  revert times. induction es as [|e es IH]; intros times E; [constructor|].
  simpl in E. destruct (getTime rt e) as [t|] eqn:G; [|discriminate].
  simpl in E. destruct (mapR (getTime rt) es) as [ts|] eqn:M; [|discriminate].
  constructor; [unfold convertible; congruence | exact (IH ts eq_refl)].
Qed.

(** A list for which [bucketEntries] returns has only timestamps that
    [new Date] takes, and no more valid ones than one call takes. *)
Lemma bucketEntries_returns (rt : Runtime) (entries : list LogEntry) (m : BucketMap) :
  bucketEntries rt entries = Ok m ->
  entries <> [] ->
  Forall (convertible rt) entries
  /\ length (filter (validTime rt) entries) <= maxArguments rt.
Proof.
  intros B Hne. unfold bucketEntries in B.
  destruct entries as [|e0 es] eqn:Ees; [congruence|]. rewrite <- Ees in *.
  assert ((length entries =? 0) = false) as E0 by (subst; reflexivity).
  rewrite E0 in B.
  destruct (mapR (getTime rt) entries) as [times|] eqn:E; [|discriminate].
  pose proof (mapR_convertible rt entries times E) as Hc.
  split; [exact Hc|].
  destruct (mapR_total rt entries Hc) as [times' [E' L]].
  rewrite E in E'. injection E' as <-. rewrite <- L.
  simpl in B.
  destruct (grid rt (validTimes times) (length entries)) as [g|] eqn:Eg; [|discriminate].
  apply Nat.nlt_ge. intros Hlt. apply (proj2 (grid_Throw rt _ (length entries))) in Hlt.
  congruence.
Qed.

Lemma buckets_sum (rt : Runtime) (entries : list LogEntry) :
  Forall (convertible rt) entries ->
  length (filter (validTime rt) entries) <= maxArguments rt ->
  exists bs,
    buckets rt entries = Ok bs
    /\ sumCounts bs = length (filter (validTime rt) entries)
    /\ (filter (validTime rt) entries = [] -> bs = []).
Proof.
  intros H Hlim.
  destruct (bucketEntries_inv rt entries H) as [times [E [L G]]].
  unfold buckets.
  destruct (grid rt (validTimes times) (length entries)) as [[[minTime size]|]|] eqn:Eg.
  - destruct G as [m [F [N [S B]]]]. rewrite B. simpl.
    exists (map snd (sortByIndex m)). split; [reflexivity|]. split.
    + now rewrite sumCounts_sort.
    + intros Hnone. rewrite Hnone in L. simpl in L.
      apply length_zero_iff_nil in L.
      apply (proj2 (grid_None rt _ (length entries))) in L. congruence.
  - rewrite G. simpl. exists []. split; [reflexivity|].
    apply grid_None in Eg. rewrite Eg in L. simpl in L. split; [exact L | reflexivity].
  - exfalso. apply grid_Throw in Eg. lia.
Qed.

(** More valid times than one call takes: [Math.min(...dates)] throws. *)
Lemma buckets_throw (rt : Runtime) (entries : list LogEntry) :
  Forall (convertible rt) entries ->
  maxArguments rt < length (filter (validTime rt) entries) ->
  bucketEntries rt entries = Throw /\ buckets rt entries = Throw.
Proof.
  intros H Hlim.
  destruct (bucketEntries_inv rt entries H) as [times [E [L G]]].
  rewrite <- L in Hlim.
  apply (proj2 (grid_Throw rt _ (length entries))) in Hlim. rewrite Hlim in G.
  unfold buckets. rewrite G. split; reflexivity.
Qed.

Lemma invalid_no_index (rt : Runtime) (entries : list LogEntry) (e : LogEntry) :
  validTime rt e = false -> entryIndex rt entries e = None.
Proof.
  unfold validTime, entryIndex. intros H.
  destruct (mapR (getTime rt) entries) as [times|]; [|reflexivity].
  destruct (grid rt (validTimes times) (length entries)) as [[[minTime size]|]|];
    [|reflexivity|reflexivity].
  destruct (getTime rt e) as [[t|]|]; [discriminate | reflexivity | reflexivity].
Qed.

(** C4.  While the entries with a valid instant are no more than one
    call of the engine takes arguments, the counts of the buckets add up
    to their number, and there is no bucket when there is none of them;
    with more of them [Math.min(...dates)] throws and there are no
    buckets at all.  An entry without a valid instant has no bucket
    index. *)
Theorem buckets_count_sum (rt : Runtime) (entries : list LogEntry) :
  Forall (convertible rt) entries ->
  (length (filter (validTime rt) entries) <= maxArguments rt ->
   exists bs,
     buckets rt entries = Ok bs
     /\ sumCounts bs = length (filter (validTime rt) entries)
     /\ (filter (validTime rt) entries = [] -> bs = []))
  /\ (maxArguments rt < length (filter (validTime rt) entries) ->
      buckets rt entries = Throw)
  /\ (forall e, validTime rt e = false -> entryIndex rt entries e = None)
  /\ buckets rt [] = Ok [].
Proof.
  intros H. split; [exact (buckets_sum rt entries H)|].
  split; [intros Hl; exact (proj2 (buckets_throw rt entries H Hl))|].
  split; [intros e; apply invalid_no_index | reflexivity].
Qed.

Lemma entryIndex_grid (rt : Runtime) (entries : list LogEntry) (times : list (option Z))
  (minTime : Z) (size : double) (e : LogEntry) :
  mapR (getTime rt) entries = Ok times ->
  grid rt (validTimes times) (length entries) = Ok (Some (minTime, size)) ->
  entryIndex rt entries e =
  match getTime rt e with
  | Ok (Some t) => Some (bucketIndex minTime size t)
  | _ => None
  end.
Proof. intros E G. unfold entryIndex. rewrite E, G. reflexivity. Qed.

Lemma members_hits (rt : Runtime) (entries : list LogEntry) (times : list (option Z))
  (minTime : Z) (size : double) (i : Z) :
  mapR (getTime rt) entries = Ok times ->
  grid rt (validTimes times) (length entries) = Ok (Some (minTime, size)) ->
  members rt entries i = hits rt (bucketIndex minTime size) i entries.
Proof.
  intros E G. unfold members, hits. apply filter_ext. intros e.
  rewrite (entryIndex_grid rt entries times minTime size e E G).
  now destruct (getTime rt e) as [[t|]|].
Qed.

Lemma bucketEntries_counters (rt : Runtime) (entries : list LogEntry) :
  Forall (convertible rt) entries ->
  length (filter (validTime rt) entries) <= maxArguments rt ->
  exists m,
    bucketEntries rt entries = Ok m
    /\ buckets rt entries = Ok (map snd m)
    /\ (forall i b,
          In (i, b) m ->
          count b = length (members rt entries i)
          /\ (forall l, byLevelGet (byLevel b) l = length (withLevel l (members rt entries i)))
          /\ count b = n_debug (byLevel b) + n_info (byLevel b) + n_warn (byLevel b)
                       + n_error (byLevel b) + n_fatal (byLevel b))
    /\ (forall e i,
          In e entries -> entryIndex rt entries e = Some i -> exists b, In (i, b) m).
Proof.
  intros H Hlim.
  destruct (bucketEntries_inv rt entries H) as [times [E [L G]]].
  unfold buckets.
  destruct (grid rt (validTimes times) (length entries)) as [[[minTime size]|]|] eqn:Eg.
  - destruct G as [m [F [N [S B]]]]. rewrite B.
    exists (sortByIndex m). split; [reflexivity|]. split; [reflexivity|].
    pose proof (fill_counters rt _ _ entries [] m F) as C.
    split.
    + intros i b Hin. apply (proj1 (sortByIndex_In _ _)) in Hin.
      apply (proj1 (mapGet_In i b m N)) in Hin.
      destruct (C i) as [Cc [Cl _]].
      rewrite (members_hits rt entries times minTime size i E Eg).
      unfold countAt in Cc. unfold levelAt in Cl. rewrite Hin in Cc, Cl. simpl in Cc, Cl.
      assert (Hl : forall l,
                 byLevelGet (byLevel b) l =
                 length (withLevel l (hits rt (bucketIndex minTime size) i entries))).
      { intros l. now rewrite (Cl l). }
      split; [exact Cc|]. split; [exact Hl|].
      rewrite Cc, (withLevel_sum (hits rt (bucketIndex minTime size) i entries)).
      rewrite <- !Hl. reflexivity.
    + intros e i Hin Hi.
      rewrite (entryIndex_grid rt entries times minTime size e E Eg) in Hi.
      destruct (getTime rt e) as [[t|]|] eqn:Ge; try discriminate.
      injection Hi as <-.
      destruct (mapGet (bucketIndex minTime size t) m) as [b|] eqn:Gm.
      * exists b. apply sortByIndex_In. now apply mapGet_In.
      * exfalso. destruct (C (bucketIndex minTime size t)) as [_ [_ Cn]].
        apply Cn in Gm. destruct Gm as [_ Hn].
        assert (In e (hits rt (bucketIndex minTime size) (bucketIndex minTime size t) entries)).
        { unfold hits. apply filter_In. split; [exact Hin|].
          rewrite Ge. apply Z.eqb_refl. }
        rewrite Hn in H0. exact H0.
  - rewrite G. exists []. split; [reflexivity|]. split; [reflexivity|]. split.
    + intros i b [].
    + intros e i _ Hi. unfold entryIndex in Hi. rewrite E, Eg in Hi. discriminate.
  - exfalso. apply grid_Throw in Eg. lia.
Qed.

(** The same for any list on which [bucketEntries] returns. *)
Lemma returned_counters (rt : Runtime) (entries : list LogEntry) (m : BucketMap) :
  bucketEntries rt entries = Ok m ->
  buckets rt entries = Ok (map snd m)
  /\ (forall i b,
        In (i, b) m ->
        count b = length (members rt entries i)
        /\ (forall l, byLevelGet (byLevel b) l = length (withLevel l (members rt entries i)))
        /\ count b = n_debug (byLevel b) + n_info (byLevel b) + n_warn (byLevel b)
                     + n_error (byLevel b) + n_fatal (byLevel b))
  /\ (forall e i,
        In e entries -> entryIndex rt entries e = Some i -> exists b, In (i, b) m).
Proof.
  intros B. destruct entries as [|e0 es] eqn:Ees.
  - simpl in B. injection B as <-. split; [reflexivity|]. split.
    + intros i b [].
    + intros e i [].
  - rewrite <- Ees in *.
    assert (Hne : entries <> []) by (subst; discriminate).
    destruct (bucketEntries_returns rt entries m B Hne) as [Hc Hlim].
    destruct (bucketEntries_counters rt entries Hc Hlim) as [m' [B' P]].
    rewrite B in B'. injection B' as <-. exact P.
Qed.

(** C10.  While the entries with a valid instant are no more than one
    call of the engine takes arguments, the buckets are produced.  Every
    bucket produced carries the five level counters; each counter is the
    number of the entries of the bucket with that level, and [count] is
    the number of the entries of the bucket, the sum of the five
    counters.  Every entry with a valid instant has its bucket. *)
Theorem bucket_level_counters (rt : Runtime) (entries : list LogEntry) :
  Forall (convertible rt) entries ->
  (length (filter (validTime rt) entries) <= maxArguments rt ->
   exists m, bucketEntries rt entries = Ok m)
  /\ forall m,
       bucketEntries rt entries = Ok m ->
       buckets rt entries = Ok (map snd m)
       /\ (forall i b,
             In (i, b) m ->
             count b = length (members rt entries i)
             /\ (forall l,
                   byLevelGet (byLevel b) l = length (withLevel l (members rt entries i)))
             /\ count b = n_debug (byLevel b) + n_info (byLevel b) + n_warn (byLevel b)
                          + n_error (byLevel b) + n_fatal (byLevel b))
       /\ (forall e i,
             In e entries -> entryIndex rt entries e = Some i -> exists b, In (i, b) m).
Proof.
  intros H. split.
  - intros Hlim. destruct (bucketEntries_counters rt entries H Hlim) as [m [B _]].
    now exists m.
  - intros m. apply returned_counters.
Qed.

(** ** Entries at one instant *)

Lemma falsy_one : falsy (ofZ 1) = false.
Proof. reflexivity. Qed.

(** [x || 1] is neither zero nor NaN. *)
Lemma bucketSize_truthy (range : double) (n : nat) : falsy (bucketSize range n) = false.
Proof.
  unfold bucketSize. cbv zeta.
  destruct (falsy (ddiv range (numBuckets n))) eqn:E; [exact falsy_one | exact E].
Qed.

(** A Number minus itself is zero, or NaN for an infinity. *)
Lemma dsub_diag (x : double) : falsy (dsub x x) = true.
Proof.
  destruct x as [s|s| |s m e]; try (destruct s; reflexivity); try reflexivity.
  unfold dsub, SFsub. rewrite Z.min_id.
  unfold shl_align. rewrite Z.sub_diag. cbn [fst].
  replace (cond_Zopp s (Z.pos m) + cond_Zopp (negb s) (Z.pos m))%Z with 0%Z
    by (destruct s; unfold cond_Zopp, negb; lia).
  reflexivity.
Qed.

(** Zero or NaN divided by anything is zero or NaN. *)
Lemma ddiv_falsy (x y : double) : falsy x = true -> falsy (ddiv x y) = true.
Proof.
  destruct x as [s|s| |s m e]; try discriminate; intros _;
    destruct y as [s'|s'| |s' m' e']; reflexivity.
Qed.

Lemma floorZ_falsy (x : double) : falsy x = true -> floorZ x = 0%Z.
Proof. destruct x; try discriminate; reflexivity. Qed.

Lemma bucketSize_zero_range (t : Z) (n : nat) :
  bucketSize (dsub (ofZ t) (ofZ t)) n = ofZ 1.
Proof.
  unfold bucketSize. cbv zeta.
  now rewrite (ddiv_falsy _ (numBuckets n) (dsub_diag (ofZ t))).
Qed.

Lemma bucketIndex_min (t : Z) (size : double) : bucketIndex t size t = 0%Z.
Proof.
  unfold bucketIndex. apply floorZ_falsy, ddiv_falsy, dsub_diag.
Qed.

Lemma fold_min_same (t : Z) (n : nat) : fold_left Z.min (repeat t n) t = t.
Proof. induction n as [|n IH]; simpl; [reflexivity|]. now rewrite Z.min_id. Qed.

Lemma fold_max_same (t : Z) (n : nat) : fold_left Z.max (repeat t n) t = t.
Proof. induction n as [|n IH]; simpl; [reflexivity|]. now rewrite Z.max_id. Qed.

Lemma mapR_same (rt : Runtime) (t : Z) (es : list LogEntry) :
  Forall (fun e => getTime rt e = Ok (Some t)) es ->
  mapR (getTime rt) es = Ok (repeat (Some t) (length es)).
Proof.
  induction 1 as [|e es He _ IH]; simpl; [reflexivity|].
  now rewrite He, IH.
Qed.

Lemma validTimes_repeat (t : Z) (n : nat) :
  validTimes (repeat (Some t) n) = repeat t n.
Proof. induction n as [|n IH]; simpl; [reflexivity | now rewrite IH]. Qed.

Lemma hits_all (rt : Runtime) (ix : Z -> Z) (t : Z) (es : list LogEntry) :
  Forall (fun e => getTime rt e = Ok (Some t)) es ->
  forall i, hits rt ix i es = if (i =? ix t)%Z then es else [].
Proof.
  intros H i. unfold hits. induction H as [|e es He _ IH]; simpl.
  - now destruct (i =? ix t)%Z.
  - rewrite He, IH. now destruct (i =? ix t)%Z.
Qed.

Lemma single_bucket (m : BucketMap) (b : TimelineBucket) :
  NoDup (map fst m) -> mapGet 0%Z m = Some b ->
  (forall i, i <> 0%Z -> mapGet i m = None) ->
  m = [(0%Z, b)].
Proof.
  intros N G0 Gn. destruct m as [|[k c] m]; [discriminate|].
  assert (k = 0%Z) as ->.
  { destruct (Z.eq_dec k 0) as [|Hk]; [assumption|].
    specialize (Gn k Hk). simpl in Gn. rewrite Z.eqb_refl in Gn. discriminate. }
  simpl in G0. injection G0 as ->.
  destruct m as [|[k' c'] m]; [reflexivity|].
  exfalso. inversion N as [|? ? Hk _]; subst.
  destruct (Z.eq_dec k' 0) as [->|Hk'].
  - apply Hk. now left.
  - specialize (Gn k' Hk'). simpl in Gn.
    replace (k' =? 0)%Z with false in Gn by (symmetry; now apply Z.eqb_neq).
    rewrite Z.eqb_refl in Gn. discriminate.
Qed.

(** C8.  The bucket width is never zero and never NaN.  When all
    entries have the same valid instant the width is one unit; while the
    entries are no more than one call of the engine takes arguments there
    is exactly one bucket, which holds all the entries, and with more
    entries [Math.min(...dates)] throws and there is no bucket. *)
Theorem buckets_zero_range (rt : Runtime) (entries : list LogEntry) (t : Z) :
  entries <> [] ->
  Forall (fun e => getTime rt e = Ok (Some t)) entries ->
  (forall range n, falsy (bucketSize range n) = false)
  /\ (forall n, bucketSize (dsub (ofZ t) (ofZ t)) n = ofZ 1)
  /\ (length entries <= maxArguments rt ->
      (exists times,
          mapR (getTime rt) entries = Ok times
          /\ grid rt (validTimes times) (length entries) = Ok (Some (t, ofZ 1)))
      /\ (exists b,
            buckets rt entries = Ok [b]
            /\ count b = length entries
            /\ forall l, byLevelGet (byLevel b) l = length (withLevel l entries)))
  /\ (maxArguments rt < length entries -> buckets rt entries = Throw).
Proof.
  intros Hne Hall.
  split; [exact bucketSize_truthy|].
  split; [exact (bucketSize_zero_range t)|].
  assert (Hc : Forall (convertible rt) entries).
  { eapply Forall_impl; [|exact Hall]. intros e He. unfold convertible. congruence. }
  assert (Hv : filter (validTime rt) entries = entries).
  { clear Hne Hc. induction Hall as [|e es He _ IH]; [reflexivity|].
    simpl. unfold validTime at 1. rewrite He. now rewrite IH. }
  split.
  - intros Hlim.
    pose proof (mapR_same rt t entries Hall) as E.
    assert (G : grid rt (validTimes (repeat (Some t) (length entries))) (length entries)
                = Ok (Some (t, ofZ 1))).
    { rewrite validTimes_repeat. destruct entries as [|e es]; [congruence|].
      cbn [length repeat]. rewrite grid_within.
      - now rewrite fold_min_same, fold_max_same, bucketSize_zero_range.
      - cbn [length]. rewrite repeat_length. exact Hlim. }
    split; [eexists; split; [exact E | exact G]|].
    destruct (bucketEntries_inv rt entries Hc) as [times [E' [_ B]]].
    rewrite E in E'. injection E' as <-. rewrite G in B.
    destruct B as [m [F [N [_ B]]]].
    pose proof (fill_counters rt _ _ entries [] m F) as C.
    assert (Hh : forall i, hits rt (bucketIndex t (ofZ 1)) i entries
                           = if (i =? 0)%Z then entries else []).
    { intros i. rewrite (hits_all rt _ t entries Hall), bucketIndex_min. reflexivity. }
    destruct (mapGet 0%Z m) as [b|] eqn:G0.
    + assert (m = [(0%Z, b)]) as ->.
      { apply single_bucket; [exact N | exact G0 |].
        intros i Hi. apply (proj2 (proj2 (C i))). split; [reflexivity|].
        rewrite Hh. now replace (i =? 0)%Z with false by (symmetry; now apply Z.eqb_neq). }
      exists b. unfold buckets. rewrite B. split; [reflexivity|].
      destruct (C 0%Z) as [Cc [Cl _]]. rewrite Hh in Cc, Cl.
      unfold countAt, levelAt in Cc, Cl. simpl in Cc, Cl. split; [exact Cc | exact Cl].
    + exfalso. apply (proj1 (proj2 (proj2 (C 0%Z)))) in G0.
      destruct G0 as [_ G0]. rewrite Hh in G0. simpl in G0. congruence.
  - intros Hlim. apply (buckets_throw rt entries Hc). now rewrite Hv.
Qed.

Lemma sampleEntries_convertible : Forall (convertible Reference.runtime) sampleEntries.
Proof. repeat constructor; discriminate. Qed.

Lemma sampleEntries_within :
  length (filter (validTime Reference.runtime) sampleEntries)
  <= maxArguments Reference.runtime.
Proof. apply Nat.leb_le. vm_compute. reflexivity. Qed.

Lemma repeat_Forall {A : Type} (P : A -> Prop) (x : A) (n : nat) :
  P x -> Forall P (repeat x n).
Proof. intros H. induction n; simpl; constructor; assumption. Qed.

Lemma filter_repeat_true {A : Type} (f : A -> bool) (x : A) (n : nat) :
  f x = true -> filter f (repeat x n) = repeat x n.
Proof. intros H. induction n as [|n IH]; simpl; [reflexivity|]. now rewrite H, IH. Qed.

Lemma manyEntries_times :
  Forall (fun e => getTime Reference.runtime e = Ok (Some 1767991929000%Z)) manyEntries.
Proof. apply repeat_Forall. reflexivity. Qed.

Lemma manyEntries_convertible : Forall (convertible Reference.runtime) manyEntries.
Proof. apply repeat_Forall. discriminate. Qed.

Lemma manyEntries_length : maxArguments Reference.runtime < length manyEntries.
Proof.
  unfold manyEntries. rewrite repeat_length.
  change (maxArguments Reference.runtime) with (N.to_nat 65535). lia.
Qed.

Lemma manyEntries_beyond :
  maxArguments Reference.runtime
  < length (filter (validTime Reference.runtime) manyEntries).
Proof.
  unfold manyEntries at 1. rewrite filter_repeat_true by reflexivity.
  exact manyEntries_length.
Qed.

Lemma buckets_count_sum_witness :
  Forall (convertible Reference.runtime) sampleEntries
  /\ (exists bs,
        buckets Reference.runtime sampleEntries = Ok bs
        /\ sumCounts bs = length (filter (validTime Reference.runtime) sampleEntries)
        /\ (filter (validTime Reference.runtime) sampleEntries = [] -> bs = []))
  /\ Forall (convertible Reference.runtime) manyEntries
  /\ buckets Reference.runtime manyEntries = Throw.
Proof.
  split; [exact sampleEntries_convertible|].
  split.
  - exact (proj1 (buckets_count_sum Reference.runtime sampleEntries
                    sampleEntries_convertible) sampleEntries_within).
  - split; [exact manyEntries_convertible|].
    exact (proj1 (proj2 (buckets_count_sum Reference.runtime manyEntries
                           manyEntries_convertible)) manyEntries_beyond).
Defined.

Lemma sampleEntries_layout :
  match bucketEntries Reference.runtime sampleEntries with
  | Ok m => map (fun p => (fst p, count (snd p))) m
  | Throw => []
  end = [(0%Z, 1); (20%Z, 1)].
Proof. vm_compute. reflexivity. Qed.

Lemma bucket_level_counters_witness :
  Forall (convertible Reference.runtime) sampleEntries
  /\ exists m,
       bucketEntries Reference.runtime sampleEntries = Ok m
       /\ buckets Reference.runtime sampleEntries = Ok (map snd m)
       /\ map (fun p => (fst p, count (snd p))) m = [(0%Z, 1); (20%Z, 1)]
       /\ forall i b,
            In (i, b) m ->
            count b = n_debug (byLevel b) + n_info (byLevel b) + n_warn (byLevel b)
                      + n_error (byLevel b) + n_fatal (byLevel b).
Proof.
  split.
  - exact sampleEntries_convertible.
  - destruct (bucket_level_counters Reference.runtime sampleEntries
                sampleEntries_convertible) as [R P].
    destruct (R sampleEntries_within) as [m B].
    destruct (P m B) as [Bs [Pb _]].
    exists m. split; [exact B|]. split; [exact Bs|]. split.
    + pose proof sampleEntries_layout as Ly. rewrite B in Ly. exact Ly.
    + intros i b Hin. exact (proj2 (proj2 (Pb i b Hin))).
Defined.

Lemma sameInstantEntries_times :
  Forall (fun e => getTime Reference.runtime e = Ok (Some 1767991929000%Z))
    sameInstantEntries.
Proof. repeat constructor. Qed.

Lemma sameInstantEntries_within :
  length sameInstantEntries <= maxArguments Reference.runtime.
Proof. apply Nat.leb_le. vm_compute. reflexivity. Qed.

Lemma buckets_zero_range_witness :
  sameInstantEntries <> []
  /\ Forall (fun e => getTime Reference.runtime e = Ok (Some 1767991929000%Z))
       sameInstantEntries
  /\ (exists b,
        buckets Reference.runtime sameInstantEntries = Ok [b]
        /\ count b = length sameInstantEntries)
  /\ manyEntries <> []
  /\ Forall (fun e => getTime Reference.runtime e = Ok (Some 1767991929000%Z)) manyEntries
  /\ buckets Reference.runtime manyEntries = Throw.
Proof.
  assert (Hne : sameInstantEntries <> []) by discriminate.
  assert (Hne' : manyEntries <> []).
  { intros E. pose proof manyEntries_length as L. rewrite E in L. simpl in L. lia. }
  split; [exact Hne|]. split; [exact sameInstantEntries_times|].
  split.
  - destruct (buckets_zero_range Reference.runtime sameInstantEntries 1767991929000%Z
                Hne sameInstantEntries_times) as [_ [_ [W _]]].
    destruct (W sameInstantEntries_within) as [_ [b [B [C _]]]].
    exists b. split; [exact B | exact C].
  - split; [exact Hne'|]. split; [exact manyEntries_times|].
    exact (proj2 (proj2 (proj2 (buckets_zero_range Reference.runtime manyEntries
                                  1767991929000%Z Hne' manyEntries_times)))
             manyEntries_length).
Defined.

Lemma typed_samples : Forall typedData sampleEntries.
Proof. repeat constructor; now left. Qed.

Lemma filterLogs_selects_witness :
  Forall typedData sampleEntries
  /\ selects (passes Reference.runtime (str "DISK") [warn; error]) sampleEntries
       (filterLogs Reference.runtime sampleEntries (str "DISK") [warn; error])
  /\ filterLogs Reference.runtime sampleEntries (str "DISK") [warn; error]
     = [sampleEntry "log-1-2" "yesterday" warn "disk at 90%"]
  /\ filterLogs Reference.runtime sampleEntries [] [] = sampleEntries.
Proof.
  split; [exact typed_samples|].
  destruct (filterLogs_selects Reference.runtime sampleEntries (str "DISK") [warn; error]
              typed_samples) as [S [A _]].
  split; [exact S|]. split; [reflexivity | exact A].
Defined.

(** C3, as stated: the search text [U+03A3], capital sigma, is part of
    the message [U+039F U+03A3], and the entry is not returned.  In lower
    case the sigma of the message has its final form and the sigma of
    the search text has not. *)
Lemma search_misses_final_sigma :
  occursIn [931%N] (Wide.message Wide.omicronSigma)
  /\ Wide.toLowerCase (Wide.message Wide.omicronSigma) = [959%N; 962%N]
  /\ Wide.toLowerCase [931%N] = [963%N]
  /\ Wide.filterLogs [Wide.omicronSigma] [931%N] [] = [].
Proof.
  split; [exists [927%N], []; reflexivity|].
  repeat split; reflexivity.
Qed.

(** ** The matcher *)

(** A successful match is a success of the continuation on a rest that
    is no longer than the input, and shorter for a consuming pattern. *)
Lemma rmatch_inv (n : nat) (r : regex) :
  forall (s : jsstring) (c : captures) (k : kont) (x : jsstring * captures),
    rmatch n r s c k = Some x ->
    exists s' c', k s' c' = Some x
                  /\ length s' + (if consuming r then 1 else 0) <= length s.
Proof.
  induction r as [|p|r1 IH1 r2 IH2|r1 IH1 r2 IH2|r1 IH1|i r1 IH1| |];
    intros s c k x H; simpl in H.
  - exists s, c. simpl. split; [exact H | lia].
  - destruct s as [|a s']; [discriminate|].
    destruct (p a); [|discriminate].
    exists s', c. simpl. split; [exact H | lia].
  - apply IH1 in H as [s1 [c1 [H L1]]].
    apply IH2 in H as [s2 [c2 [H L2]]].
    exists s2, c2. split; [exact H|]. simpl.
    destruct (consuming r1), (consuming r2); simpl; lia.
  - destruct (rmatch n r1 s c k) eqn:E.
    + injection H as ->. apply IH1 in E as [s1 [c1 [E L]]].
      exists s1, c1. split; [exact E|]. simpl.
      destruct (consuming r1), (consuming r2); simpl; lia.
    + apply IH2 in H as [s1 [c1 [E' L]]].
      exists s1, c1. split; [exact E'|]. simpl.
      destruct (consuming r1), (consuming r2); simpl; lia.
  - match type of H with
    | ?loop (length s) s c = _ =>
        assert (L : forall fuel s0 c0,
                   loop fuel s0 c0 = Some x ->
                   exists s' c', k s' c' = Some x /\ length s' <= length s0)
    end.
    { induction fuel as [|fuel IHf]; intros s0 c0 H0.
      - exists s0, c0. split; [exact H0 | lia].
      - match type of H0 with
        | match ?t with _ => _ end = _ => destruct t eqn:E
        end.
        + injection H0 as ->. apply IH1 in E as [s1 [c1 [E L]]].
          destruct (length s1 <? length s0) eqn:Lt; [|discriminate].
          apply IHf in E as [s2 [c2 [E L2]]].
          exists s2, c2. split; [exact E|]. lia.
        + exists s0, c0. split; [exact H0 | lia]. }
    apply L in H as [s' [c' [H L']]].
    exists s', c'. split; [exact H|]. simpl. lia.
  - apply IH1 in H as [s1 [c1 [H L]]].
    exists s1, ((i, firstn (length s - length s1) s) :: c1). split; [exact H|].
    simpl. exact L.
  - destruct (length s =? n); [|discriminate].
    exists s, c. simpl. split; [exact H | lia].
  - destruct s; [|discriminate]. exists [], c. simpl. split; [exact H | lia].
Qed.

Lemma search_inv (n : nat) (r : regex) (s : jsstring) :
  forall i m,
    search n r i s = Some m ->
    exists s0 s1 c1,
      rmatch n r s0 [] accept = Some (s1, c1)
      /\ matched m = firstn (length s0 - length s1) s0
      /\ groups m = c1
      /\ length s0 <= length s.
Proof.
  induction s as [|a s IH]; intros i m H; simpl in H.
  - destruct (rmatch n r [] [] accept) as [[s1 c1]|] eqn:E; [|discriminate].
    injection H as <-. exists [], s1, c1. simpl. auto.
  - destruct (rmatch n r (a :: s) [] accept) as [[s1 c1]|] eqn:E.
    + injection H as <-. exists (a :: s), s1, c1. simpl. auto.
    + apply IH in H as [s0 [s1 [c1 [H1 [H2 [H3 H4]]]]]].
      exists s0, s1, c1. simpl. repeat split; auto.
Qed.

(** The match of a consuming pattern is not empty. *)
Lemma exec_nonEmpty (r : regex) (s : jsstring) (m : MatchResult) :
  consuming r = true -> exec r s = Some m -> nonEmpty (matched m) = true.
Proof.
  intros Hc H. unfold exec in H.
  apply search_inv in H as [s0 [s1 [c1 [H [Hm _]]]]].
  apply rmatch_inv in H as [s' [c' [Ha L]]].
  unfold accept in Ha. injection Ha as -> ->. rewrite Hc in L.
  rewrite Hm. destruct s0 as [|a s0]; [simpl in L; lia|].
  remember (length (a :: s0) - length s1) as k eqn:Ek.
  destruct k as [|k]; [lia | reflexivity].
Qed.

Lemma nonEmpty_app_r (a b : jsstring) : nonEmpty b = true -> nonEmpty (a ++ b) = true.
Proof. destruct a; simpl; auto. Qed.

(** The extractor never returns the empty string. *)
Lemma extractTimestamp_nonEmpty (line ts : jsstring) :
  extractTimestamp line = Some ts -> nonEmpty ts = true.
Proof.
  unfold extractTimestamp.
  destruct (exec isoRegex line) as [m|] eqn:E.
  - intros H. injection H as <-. now apply (exec_nonEmpty isoRegex line).
  - destruct (exec commonRegex line) as [m|].
    + intros H. injection H as <-. now apply nonEmpty_app_r.
    + destruct (exec apacheRegex line) as [m|]; [|discriminate].
      destruct (exec apachePartsRegex (matched m)) as [parts|]; [|discriminate].
      intros H. injection H as <-.
      repeat (apply nonEmpty_app_r). reflexivity.
Qed.

(** ** The parsers in the world *)

Lemma generateId_run (rt : Runtime) (w : World) :
  generateId rt w =
  (Ok (idText (clock rt (ticks w)) (idCounter w)),
   {| idCounter := N.succ (idCounter w); ticks := S (ticks w) |}).
Proof. reflexivity. Qed.

Lemma nowISO_run (rt : Runtime) (w : World) :
  nowISO rt w =
  (Ok (toISOString rt (clock rt (ticks w))),
   {| idCounter := idCounter w; ticks := S (ticks w) |}).
Proof. reflexivity. Qed.

Ltac mstep := cbv beta iota delta [tryCatch bind lift ret rbind].

Lemma nullish_cases (v : JSValue) :
  (v = VUndefined \/ v = VNull) \/ (v <> VUndefined /\ v <> VNull).
Proof. destruct v; (left; auto; fail) || (right; split; discriminate). Qed.

Lemma get_total (v : JSValue) (name : jsstring) :
  v <> VUndefined -> v <> VNull -> exists x, get v name = Ok x.
Proof.
  intros H1 H2. destruct v; simpl; try congruence; try (now eexists).
  destruct (lookup name fields); now eexists.
Qed.

Lemma firstTruthy_total (v : JSValue) (names : list jsstring) :
  v <> VUndefined -> v <> VNull -> exists o, firstTruthy v names = Ok o.
Proof.
  intros H1 H2. induction names as [|n names IH]; simpl.
  - now eexists.
  - destruct (get_total v n H1 H2) as [x ->]. simpl.
    destruct (truthy x); [now eexists | exact IH].
Qed.

Lemma firstTruthy_nullish (v : JSValue) (n : jsstring) (names : list jsstring) :
  v = VUndefined \/ v = VNull -> firstTruthy v (n :: names) = Throw.
Proof. intros [-> | ->]; reflexivity. Qed.

(** The structured-data parser either declines, leaving the world as it
    is, or creates an entry whose content does not depend on the world
    beyond the id and a default timestamp. *)
Lemma parseJsonLog_shape (rt : Runtime) (line : jsstring) :
  (forall w, parseJsonLog rt line w = (Ok None, w))
  \/ (exists core use,
        raw core = Some line
        /\ forall w, parseJsonLog rt line w = (Ok (Some (stamp rt core use w)), advance use w)).
Proof.
  unfold parseJsonLog.
  destruct (JSON_parse rt line) as [parsed|]; [|left; reflexivity].
  mstep.
  destruct (nullish_cases parsed) as [Hn | [H1 H2]].
  { left. intros w. rewrite (firstTruthy_nullish parsed _ _ Hn). reflexivity. }
  destruct (firstTruthy_total parsed
              [str "level"; str "severity"; str "log_level"; str "loglevel"] H1 H2)
    as [lv Elv].
  destruct (firstTruthy_total parsed
              [str "dt"; str "timestamp"; str "time"; str "@timestamp"; str "date";
               str "datetime"] H1 H2) as [found Efound].
  destruct (firstTruthy_total parsed
              [str "message"; str "msg"; str "text"; str "log"; str "body"] H1 H2)
    as [msg Emsg].
  destruct (get_total parsed (str "pid") H1 H2) as [p Ep].
  destruct (get_total parsed (str "hostname") H1 H2) as [h Eh].
  destruct (get_total parsed (str "host") H1 H2) as [h' Eh'].
  destruct (get_total parsed (str "message_field") H1 H2) as [mf Emf].
  rewrite Elv. mstep.
  destruct (toStr rt match lv with Some x => x | None => VStr (str "info") end)
    as [levelText|] eqn:Et; [|left; reflexivity].
  rewrite Efound, Emsg. mstep.
  right.
  set (hostValue := if truthy h then h else h').
  assert (Eh2 : (if truthy h then Ok h else get parsed (str "host")) = Ok hostValue).
  { unfold hostValue. destruct (truthy h); [reflexivity | exact Eh']. }
  destruct found as [x|]; mstep; rewrite ?generateId_run, ?nowISO_run; mstep;
    rewrite ?generateId_run; mstep; rewrite Ep, Eh; mstep; rewrite Eh2, Emf.
  - exists {| id := []; dt := x; level := detectLogLevel levelText; pid := p;
              hostname := hostValue;
              message := textOf rt match msg with
                                   | Some y => y
                                   | None => VStr (JSON_stringify rt parsed)
                                   end;
              message_field := mf; data := parsed; raw := Some line |}, NoDefault.
    split; reflexivity.
  - exists {| id := []; dt := VUndefined; level := detectLogLevel levelText; pid := p;
              hostname := hostValue;
              message := textOf rt match msg with
                                   | Some y => y
                                   | None => VStr (JSON_stringify rt parsed)
                                   end;
              message_field := mf; data := parsed; raw := Some line |}, DefaultFirst.
    split; reflexivity.
Qed.

Lemma parseStructuredTextLog_shape (rt : Runtime) (line : jsstring) :
  (forall w, parseStructuredTextLog rt line w = (Ok None, w))
  \/ (exists core,
        raw core = Some line
        /\ (exists s, dt core = VStr s)
        /\ forall w, parseStructuredTextLog rt line w
                     = (Ok (Some (stamp rt core NoDefault w)), advance NoDefault w)).
Proof.
  unfold parseStructuredTextLog.
  destruct (exec structuredRegex line) as [m|]; [|left; reflexivity].
  right.
  destruct (structuredPayload rt (group 3 (groups m))) as [payload text] eqn:E.
  exists {| id := [];
            dt := VStr (if includes (group 1 (groups m)) (str "T") then group 1 (groups m)
                        else replaceFirst (group 1 (groups m)) (str " ") (str "T") ++ str "Z");
            level := detectLogLevel (group 2 (groups m));
            pid := VUndefined; hostname := VUndefined; message := text;
            message_field := VUndefined; data := payload; raw := Some line |}.
  split; [reflexivity|]. split; [now eexists | reflexivity].
Qed.

Lemma parsePlainTextLog_shape (rt : Runtime) (line : jsstring) :
  exists core use,
    raw core = Some line
    /\ message core = plainMessage line (extractTimestamp line)
    /\ level core = detectLogLevel line
    /\ (use = DefaultLast <-> extractTimestamp line = None)
    /\ (use = NoDefault \/ use = DefaultLast)
    /\ (forall ts, extractTimestamp line = Some ts -> nonEmpty ts = true ->
                   dt core = VStr ts /\ use = NoDefault)
    /\ forall w, parsePlainTextLog rt line w = (Ok (stamp rt core use w), advance use w).
Proof.
  unfold parsePlainTextLog.
  destruct (extractTimestamp line) as [ts|] eqn:E.
  - destruct (nonEmpty ts) eqn:Ene.
    + exists {| id := []; dt := VStr ts; level := detectLogLevel line; pid := VUndefined;
                hostname := VUndefined; message := plainMessage line (Some ts);
                message_field := VUndefined; data := VUndefined; raw := Some line |},
        NoDefault.
      split; [reflexivity|]. split; [reflexivity|]. split; [reflexivity|].
      split; [split; discriminate|]. split; [now left|].
      split; [|reflexivity].
      intros ts' Hts _. injection Hts as <-. now split.
    + exists {| id := []; dt := VUndefined; level := detectLogLevel line; pid := VUndefined;
                hostname := VUndefined; message := plainMessage line (Some ts);
                message_field := VUndefined; data := VUndefined; raw := Some line |},
        DefaultLast.
      split; [reflexivity|]. split; [reflexivity|]. split; [reflexivity|].
      apply extractTimestamp_nonEmpty in E. congruence.
  - exists {| id := []; dt := VUndefined; level := detectLogLevel line; pid := VUndefined;
              hostname := VUndefined; message := plainMessage line None;
              message_field := VUndefined; data := VUndefined; raw := Some line |},
      DefaultLast.
    split; [reflexivity|]. split; [reflexivity|]. split; [reflexivity|].
    split; [split; reflexivity|]. split; [now right|].
    split; [|reflexivity].
    intros ts' Hts. discriminate.
Qed.

(** ** Ids *)

Lemma uint_digits (u : Decimal.uint) :
  Forall (fun c => notHyphen c = true) (list_ascii_of_string (NilEmpty.string_of_uint u)).
Proof. induction u; simpl; constructor; auto. Qed.

Lemma N_to_str_digits (n : N) : Forall (fun c => notHyphen c = true) (N_to_str n).
Proof.
  unfold N_to_str, str.
  replace (NilZero.string_of_uint (N.to_uint n))
    with (NilEmpty.string_of_uint (N.to_uint n)).
  - apply uint_digits.
  - destruct n as [|p]; [reflexivity|]. simpl.
    pose proof (DecimalPos.Unsigned.to_uint_nonnil p) as H.
    destruct (Pos.to_uint p); [congruence | reflexivity ..].
Qed.

Lemma takeWhile_app (p : ascii -> bool) (a b : jsstring) (c : ascii) :
  Forall (fun x => p x = true) a -> p c = false -> takeWhile p (a ++ c :: b) = a.
Proof.
  induction 1 as [|x a Hx _ IH]; intros Hc; simpl.
  - now rewrite Hc.
  - now rewrite Hx, IH.
Qed.

Lemma lastSegment_app (a b : jsstring) :
  Forall (fun x => notHyphen x = true) b ->
  lastSegment (a ++ str "-" ++ b) = b.
Proof.
  intros H. unfold lastSegment.
  change (str "-" ++ b) with (chr "-" :: b).
  rewrite rev_app_distr. simpl. rewrite <- app_assoc. simpl.
  rewrite takeWhile_app.
  - apply rev_involutive.
  - apply Forall_rev. exact H.
  - reflexivity.
Qed.

(** The counter value can be read back from the id. *)
Lemma counterOf_idText (now : Z) (n : N) : counterOf (idText now n) = n.
Proof.
  unfold counterOf, idText.
  rewrite (app_assoc (str "log-") (Z_to_str now)).
  rewrite lastSegment_app by apply N_to_str_digits.
  unfold N_to_str, str. rewrite string_of_list_ascii_of_string.
  replace (NilZero.string_of_uint (N.to_uint n))
    with (NilEmpty.string_of_uint (N.to_uint n)).
  - rewrite NilEmpty.usu. apply DecimalN.Unsigned.of_to.
  - destruct n as [|p]; [reflexivity|]. simpl.
    pose proof (DecimalPos.Unsigned.to_uint_nonnil p) as H.
    destruct (Pos.to_uint p); [congruence | reflexivity ..].
Qed.

Lemma counterOf_stamp (rt : Runtime) (core : LogEntry) (use : ClockUse) (w : World) :
  counterOf (id (stamp rt core use w)) = idCounter w.
Proof. apply counterOf_idText. Qed.

Lemma sorted_app (l1 l2 : list N) :
  StronglySorted N.lt l1 -> StronglySorted N.lt l2 ->
  (forall a b, In a l1 -> In b l2 -> (a < b)%N) ->
  StronglySorted N.lt (l1 ++ l2).
Proof.
  induction 1 as [|x l1 Hs IH Hx]; intros H2 H; simpl; [assumption|].
  constructor.
  - apply IH; [assumption|]. intros a b Ha Hb. apply H; [now right | assumption].
  - apply Forall_app. split; [assumption|].
    apply Forall_forall. intros b Hb. apply H; [now left | assumption].
Qed.

Lemma numbered_nil (lo hi : N) : numbered lo hi [].
Proof. split; constructor. Qed.

Lemma numbered_app (lo mid hi : N) (a b : list LogEntry) :
  (lo <= mid)%N -> (mid <= hi)%N ->
  numbered lo mid a -> numbered mid hi b -> numbered lo hi (a ++ b).
Proof.
  intros H1 H2 [Sa Fa] [Sb Fb]. split.
  - rewrite map_app. apply sorted_app; [assumption | assumption |].
    intros x y Hx Hy.
    apply in_map_iff in Hx as [e [<- He]]. apply in_map_iff in Hy as [e' [<- He']].
    rewrite Forall_forall in Fa, Fb.
    specialize (Fa e He). specialize (Fb e' He'). lia.
  - apply Forall_app. split.
    + eapply Forall_impl; [|exact Fa]. intros e He. simpl in He. lia.
    + eapply Forall_impl; [|exact Fb]. intros e He. simpl in He. lia.
Qed.

Lemma numbered_one (c hi : N) (e : LogEntry) :
  counterOf (id e) = c -> (c < hi)%N -> numbered c hi [e].
Proof.
  intros H L. split; simpl.
  - repeat constructor.
  - constructor; [lia | constructor].
Qed.

Lemma sorted_NoDup (l : list N) : StronglySorted N.lt l -> NoDup l.
Proof.
  induction 1 as [|x l Hs IH Hx]; constructor; [|assumption].
  intros Hin. rewrite Forall_forall in Hx. specialize (Hx x Hin). lia.
Qed.

Lemma numbered_NoDup (lo hi : N) (es : list LogEntry) :
  numbered lo hi es -> NoDup (map id es).
Proof.
  intros [S _]. apply sorted_NoDup in S.
  rewrite <- (map_map id counterOf) in S.
  now apply NoDup_map_inv in S.
Qed.

(** ** The dispatcher *)

(** Every line yields one entry, which carries the line; the world
    enters only through [stamp]. *)
Lemma dispatch_shape (rt : Runtime) (line : jsstring) :
  exists core use,
    raw core = Some line
    /\ (startsWith (trim line) (str "{") = false ->
        forall w, exists s, dt (stamp rt core use w) = VStr s)
    /\ forall w, dispatch rt line w = (Ok (Some (stamp rt core use w)), advance use w).
Proof.
  unfold dispatch.
  destruct (parsePlainTextLog_shape rt line)
    as [pc [pu [Hpr [_ [_ [Hpn [Hpu [Hpd Hp]]]]]]]].
  assert (Hpt : forall w, exists s, dt (stamp rt pc pu w) = VStr s).
  { intros w. destruct Hpu as [-> | ->]; [|simpl; now eexists].
    destruct (extractTimestamp line) as [ts|] eqn:E.
    - destruct (Hpd ts eq_refl (extractTimestamp_nonEmpty line ts E)) as [Hd _].
      simpl. rewrite Hd. now eexists.
    - destruct Hpn as [_ Hpn]. specialize (Hpn eq_refl). discriminate. }
  destruct (parseStructuredTextLog_shape rt line) as [Hs | [sc [Hsr [Hsd Hs]]]];
    destruct (parseJsonLog_shape rt line) as [Hj | [jc [ju [Hjr Hj]]]];
    destruct (startsWith (trim line) (str "{")).
  - exists pc, pu. split; [exact Hpr|]. split; [auto|].
    intros w. mstep. now rewrite Hj, Hs, Hp.
  - exists pc, pu. split; [exact Hpr|]. split; [auto|].
    intros w. mstep. now rewrite Hs, Hp.
  - exists jc, ju. split; [exact Hjr|]. split; [discriminate|].
    intros w. mstep. now rewrite Hj.
  - exists pc, pu. split; [exact Hpr|]. split; [auto|].
    intros w. mstep. now rewrite Hs, Hp.
  - exists sc, NoDefault. split; [exact Hsr|]. split; [auto|].
    intros w. mstep. now rewrite Hj, Hs.
  - exists sc, NoDefault. split; [exact Hsr|]. split; [intros _ w; exact Hsd|].
    intros w. mstep. now rewrite Hs.
  - exists jc, ju. split; [exact Hjr|]. split; [discriminate|].
    intros w. mstep. now rewrite Hj.
  - exists sc, NoDefault. split; [exact Hsr|]. split; [intros _ w; exact Hsd|].
    intros w. mstep. now rewrite Hs.
Qed.

Lemma collect_run (rt : Runtime) (acc : Acc) (e : LogEntry) (w : World) :
  collect rt acc e w =
  match newDate rt (dt e) with
  | Throw => (Throw, w)
  | Ok entryDate =>
      (Ok {| acc_entries := acc_entries acc ++ [e];
             levelsSet := setAdd (level e) (levelsSet acc);
             minDate := match entryDate with
                        | Some t =>
                            match minDate acc with
                            | None => Some t
                            | Some m => if (t <? m)%Z then Some t else Some m
                            end
                        | None => minDate acc
                        end;
             maxDate := match entryDate with
                        | Some t =>
                            match maxDate acc with
                            | None => Some t
                            | Some m => if (m <? t)%Z then Some t else Some m
                            end
                        | None => maxDate acc
                        end |}, w)
  end.
Proof. unfold collect. mstep. now destruct (newDate rt (dt e)). Qed.

Lemma advance_counter (use : ClockUse) (w : World) :
  idCounter (advance use w) = N.succ (idCounter w).
Proof. reflexivity. Qed.

Section ParseLines.

Variable rt : Runtime.

Lemma parseLines_cons (line : jsstring) (lines : list jsstring) :
  exists core use,
    raw core = Some line
    /\ (startsWith (trim line) (str "{") = false ->
        forall w, exists s, dt (stamp rt core use w) = VStr s)
    /\ forall acc w,
         parseLines rt (line :: lines) acc w =
         match collect rt acc (stamp rt core use w) (advance use w) with
         | (Ok acc', w') => parseLines rt lines acc' w'
         | (Throw, w') => (Throw, w')
         end.
Proof.
  destruct (dispatch_shape rt line) as [core [use [Hr [Ht Hd]]]].
  exists core, use. split; [exact Hr|]. split; [exact Ht|].
  intros acc w. simpl. mstep. rewrite Hd. reflexivity.
Qed.

Lemma parseLines_counter (lines : list jsstring) :
  forall acc w, (idCounter w <= idCounter (snd (parseLines rt lines acc w)))%N.
Proof.
  induction lines as [|line lines IH]; intros acc w.
  - simpl. lia.
  - destruct (parseLines_cons line lines) as [core [use [_ [_ E]]]].
    rewrite E, collect_run.
    destruct (newDate rt (dt (stamp rt core use w))).
    + etransitivity; [|apply IH]. rewrite advance_counter. lia.
    + simpl. lia.
Qed.

(** A parse that returns has added one entry per line, in the order of
    the lines, with increasing counter values in the ids. *)
Lemma parseLines_entries (lines : list jsstring) :
  forall acc w acc' w',
    parseLines rt lines acc w = (Ok acc', w') ->
    exists new,
      acc_entries acc' = acc_entries acc ++ new
      /\ map raw new = map Some lines
      /\ numbered (idCounter w) (idCounter w') new
      /\ Forall (fun e => exists k, id e = idText (clock rt k) (counterOf (id e))) new.
Proof.
  induction lines as [|line lines IH]; intros acc w acc' w' H.
  - simpl in H. injection H as <- <-. exists []. rewrite app_nil_r.
    split; [reflexivity|]. split; [reflexivity|].
    split; [apply numbered_nil | constructor].
  - destruct (parseLines_cons line lines) as [core [use [Hr [_ E]]]].
    rewrite E in H. clear E. rewrite collect_run in H.
    destruct (newDate rt (dt (stamp rt core use w))); [|discriminate].
    pose proof (parseLines_counter lines
                  {| acc_entries := acc_entries acc ++ [stamp rt core use w];
                     levelsSet := setAdd (level (stamp rt core use w)) (levelsSet acc);
                     minDate := match a with
                                | Some t => match minDate acc with
                                            | None => Some t
                                            | Some m => if (t <? m)%Z then Some t else Some m
                                            end
                                | None => minDate acc
                                end;
                     maxDate := match a with
                                | Some t => match maxDate acc with
                                            | None => Some t
                                            | Some m => if (m <? t)%Z then Some t else Some m
                                            end
                                | None => maxDate acc
                                end |} (advance use w)) as Hc.
    rewrite H in Hc. simpl in Hc.
    apply IH in H as [new [Ha [Hraw [Hn Hid]]]]. simpl in Ha.
    exists (stamp rt core use w :: new). split; [|split; [|split]].
    + rewrite Ha, <- app_assoc. reflexivity.
    + simpl. now rewrite Hr, Hraw.
    + change (stamp rt core use w :: new) with ([stamp rt core use w] ++ new).
      apply (numbered_app _ (N.succ (idCounter w))); [lia | exact Hc | | exact Hn].
      apply numbered_one; [apply counterOf_stamp | lia].
    + constructor; [|exact Hid].
      rewrite counterOf_stamp. simpl. now eexists.
Qed.

(** Lines that do not look like structured data are parsed without an
    exception. *)
Lemma parseLines_text (lines : list jsstring) :
  Forall (fun line => startsWith (trim line) (str "{") = false) lines ->
  forall acc w, exists acc' w', parseLines rt lines acc w = (Ok acc', w').
Proof.
  induction 1 as [|line lines Hl _ IH]; intros acc w.
  - now exists acc, w.
  - destruct (parseLines_cons line lines) as [core [use [_ [Ht E]]]].
    rewrite E, collect_run.
    destruct (Ht Hl w) as [s ->]. simpl. apply IH.
Qed.

End ParseLines.

Lemma parseLogFile_run (rt : Runtime) (content : jsstring) (w : World) :
  parseLogFile rt content w =
  match parseLines rt (retainedLines content)
          {| acc_entries := []; levelsSet := []; minDate := None; maxDate := None |} w with
  | (Ok acc, w') =>
      (Ok {| entries := acc_entries acc;
             levels := sortedLevels (levelsSet acc);
             dateRange := match minDate acc, maxDate acc with
                          | Some lo, Some hi => Some (lo, hi)
                          | _, _ => None
                          end |}, w')
  | (Throw, w') => (Throw, w')
  end.
Proof.
  unfold parseLogFile. mstep.
  now destruct (parseLines rt (retainedLines content) _ w) as [[acc|] w'].
Qed.

(** C1, the part that holds: a parse that returns has made exactly one
    entry per retained line, in the order of the lines. *)
Lemma parseLogFile_one_entry_per_line (rt : Runtime) (content : jsstring)
  (w w' : World) (p : ParsedLog) :
  parseLogFile rt content w = (Ok p, w') ->
  map raw (entries p) = map Some (retainedLines content)
  /\ length (entries p) = length (retainedLines content).
Proof.
  rewrite parseLogFile_run.
  destruct (parseLines rt (retainedLines content) _ w) as [[acc|] w1] eqn:E; [|discriminate].
  intros H. injection H as <- <-. simpl.
  apply parseLines_entries in E as [new [Ha [Hr _]]]. simpl in Ha.
  rewrite Ha. split; [exact Hr|].
  rewrite <- (length_map raw), Hr. apply length_map.
Qed.

(** C1, the part that holds: a content without a line that looks like
    structured data is parsed without an exception. *)
Lemma parseLogFile_returns_on_text (rt : Runtime) (content : jsstring) (w : World) :
  Forall (fun line => startsWith (trim line) (str "{") = false) (retainedLines content) ->
  exists p w', parseLogFile rt content w = (Ok p, w').
Proof.
  intros H. rewrite parseLogFile_run.
  destruct (parseLines_text rt (retainedLines content) H
              {| acc_entries := []; levelsSet := []; minDate := None; maxDate := None |} w)
    as [acc [w' ->]].
  now eexists _, _.
Qed.

(** C1.  On the line [{"dt":{"toString":1}}], decoded as [JSON.parse]
    decodes it, the structured-data parser returns an entry whose
    timestamp is an object that cannot be made primitive, and
    [parseLogFile] throws out of [new Date(entry.dt)]: no entry is
    produced for this retained line. *)
Theorem parseLogFile_throws_on_object_timestamp (rt : Runtime) (w : World) :
  JSON_parse rt objectTimestampLine
  = Some (VObj [(str "dt", VObj [(str "toString", VNum (Fin 1))])]) ->
  retainedLines objectTimestampLine = [objectTimestampLine]
  /\ fst (parseLogFile rt objectTimestampLine w) = Throw.
Proof.
  intros H. split; [vm_compute; reflexivity|].
  rewrite parseLogFile_run.
  replace (retainedLines objectTimestampLine) with [objectTimestampLine]
    by (vm_compute; reflexivity).
  cbn [parseLines]. unfold dispatch, parseJsonLog.
  replace (startsWith (trim objectTimestampLine) (str "{")) with true
    by (vm_compute; reflexivity).
  mstep. rewrite H. destruct rt, w. vm_compute. reflexivity.
Qed.

Lemma parseLogFile_throws_on_object_timestamp_witness :
  JSON_parse Reference.runtime objectTimestampLine
  = Some (VObj [(str "dt", VObj [(str "toString", VNum (Fin 1))])])
  /\ retainedLines objectTimestampLine = [objectTimestampLine]
  /\ fst (parseLogFile Reference.runtime objectTimestampLine world0) = Throw.
Proof.
  assert (H : JSON_parse Reference.runtime objectTimestampLine
              = Some (VObj [(str "dt", VObj [(str "toString", VNum (Fin 1))])]))
    by (vm_compute; reflexivity).
  split; [exact H|].
  exact (parseLogFile_throws_on_object_timestamp Reference.runtime world0 H).
Defined.

(** ** Ids across a process *)

Lemma parseLogFile_numbered (rt : Runtime) (content : jsstring) (w : World) :
  (idCounter w <= idCounter (snd (parseLogFile rt content w)))%N
  /\ numbered (idCounter w) (idCounter (snd (parseLogFile rt content w)))
       (entriesOf (fst (parseLogFile rt content w)))
  /\ Forall (fun e => exists k, id e = idText (clock rt k) (counterOf (id e)))
       (entriesOf (fst (parseLogFile rt content w))).
Proof.
  rewrite parseLogFile_run.
  pose proof (parseLines_counter rt (retainedLines content)
                {| acc_entries := []; levelsSet := []; minDate := None; maxDate := None |} w)
    as Hc.
  destruct (parseLines rt (retainedLines content) _ w) as [[acc|] w1] eqn:E; simpl in *.
  - split; [exact Hc|].
    apply parseLines_entries in E as [new [Ha [_ [Hn Hid]]]]. simpl in Ha.
    rewrite Ha. split; assumption.
  - split; [exact Hc|]. split; [apply numbered_nil | constructor].
Qed.

Lemma parseFiles_numbered (rt : Runtime) (contents : list jsstring) :
  forall w,
    (idCounter w <= idCounter (snd (parseFiles rt contents w)))%N
    /\ numbered (idCounter w) (idCounter (snd (parseFiles rt contents w)))
         (allEntries (fst (parseFiles rt contents w)))
    /\ Forall (fun e => exists k, id e = idText (clock rt k) (counterOf (id e)))
         (allEntries (fst (parseFiles rt contents w))).
Proof.
  induction contents as [|content contents IH]; intros w; simpl.
  - split; [lia|]. split; [apply numbered_nil | constructor].
  - destruct (parseLogFile_numbered rt content w) as [L1 [N1 F1]].
    destruct (parseLogFile rt content w) as [r w1]. simpl in *.
    destruct (IH w1) as [L2 [N2 F2]].
    destruct (parseFiles rt contents w1) as [rs w2]. simpl in *.
    split; [lia|]. split.
    + unfold allEntries. simpl. apply (numbered_app _ (idCounter w1)); assumption.
    + unfold allEntries. simpl. apply Forall_app. split; assumption.
Qed.

(** C7, as amended.  Over all the files a process parses, the ids of the
    entries are pairwise distinct; every id is [log-], a clock reading,
    a hyphen and the counter value at creation, and the counter values
    grow strictly in input order. *)
Theorem ids_distinct_counters_increasing (rt : Runtime) (contents : list jsstring)
  (w : World) :
  let es := allEntries (fst (parseFiles rt contents w)) in
  NoDup (map id es)
  /\ StronglySorted N.lt (map (fun e => counterOf (id e)) es)
  /\ Forall (fun e => exists k, id e = idText (clock rt k) (counterOf (id e))) es.
Proof.
  destruct (parseFiles_numbered rt contents w) as [_ [Hn Hf]].
  split; [exact (numbered_NoDup _ _ _ Hn)|]. split; [exact (proj1 Hn) | exact Hf].
Qed.

Lemma sorted_nth {A : Type} (R : A -> A -> Prop) (l : list A) :
  StronglySorted R l ->
  forall i j a b,
    i < j -> nth_error l i = Some a -> nth_error l j = Some b -> R a b.
Proof.
  induction 1 as [|x l Hs IH Hx]; intros i j a b Hij Ha Hb.
  - destruct i; discriminate.
  - destruct j as [|j]; [lia|]. simpl in Hb.
    destruct i as [|i]; simpl in Ha.
    + injection Ha as <-. rewrite Forall_forall in Hx. apply Hx.
      eapply nth_error_In. exact Hb.
    + apply (IH i j); [lia | assumption | assumption].
Qed.

(** C7, as stated: with all clock readings in one millisecond the tenth
    id is [log-1767225600000-9] and the eleventh [log-1767225600000-10],
    which comes first in the order of strings. *)
Lemma ids_not_increasing_as_strings :
  ~ (forall (rt : Runtime) (content : jsstring) (w w' : World) (p : ParsedLog),
        parseLogFile rt content w = (Ok p, w') ->
        StronglySorted (fun a b => strlt a b = true) (map id (entries p))).
Proof.
  intros H.
  destruct (parseLogFile frozenRuntime elevenLines world0) as [[p|] w'] eqn:E;
    [|vm_compute in E; discriminate].
  specialize (H frozenRuntime elevenLines world0 w' p E).
  vm_compute in E. injection E as <- _.
  pose proof (sorted_nth _ _ H 9 10 (str "log-1767225600000-9") (str "log-1767225600000-10"))
    as Hlt.
  assert (strlt (str "log-1767225600000-9") (str "log-1767225600000-10") = true) as F.
  { apply Hlt; [lia | reflexivity | reflexivity]. }
  vm_compute in F. discriminate F.
Qed.

(** ** Two parses of one content *)

Lemma stamp_same (rt : Runtime) (core : LogEntry) (use : ClockUse) (w1 w2 : World) :
  sameUpToIdAndClock rt (stamp rt core use w1) (stamp rt core use w2).
Proof.
  unfold sameUpToIdAndClock. simpl. repeat split.
  destruct use; [now left | right; now eexists _, _ ..].
Qed.

Lemma stamp_newDate (rt : Runtime) (core : LogEntry) (use : ClockUse) (w1 w2 : World) :
  newDate rt (dt (stamp rt core use w1)) = Throw <->
  newDate rt (dt (stamp rt core use w2)) = Throw.
Proof. destruct use; simpl; split; congruence. Qed.

Lemma Forall2_snoc {A B : Type} (R : A -> B -> Prop) (l1 : list A) (l2 : list B)
  (a : A) (b : B) :
  Forall2 R l1 l2 -> R a b -> Forall2 R (l1 ++ [a]) (l2 ++ [b]).
Proof. intros H Hab. apply Forall2_app; [assumption | now constructor]. Qed.

Lemma parseLines_agree (rt : Runtime) (lines : list jsstring) :
  forall acc1 acc2 w1 w2,
    Forall2 (sameUpToIdAndClock rt) (acc_entries acc1) (acc_entries acc2) ->
    levelsSet acc1 = levelsSet acc2 ->
    match fst (parseLines rt lines acc1 w1), fst (parseLines rt lines acc2 w2) with
    | Ok a1, Ok a2 =>
        Forall2 (sameUpToIdAndClock rt) (acc_entries a1) (acc_entries a2)
        /\ levelsSet a1 = levelsSet a2
    | Throw, Throw => True
    | _, _ => False
    end.
Proof.
  induction lines as [|line lines IH]; intros acc1 acc2 w1 w2 He Hl.
  - simpl. now split.
  - destruct (parseLines_cons rt line lines) as [core [use [_ [_ E]]]].
    rewrite !E, !collect_run.
    pose proof (stamp_newDate rt core use w1 w2) as Ht.
    destruct (newDate rt (dt (stamp rt core use w1))) as [d1|];
      destruct (newDate rt (dt (stamp rt core use w2))) as [d2|].
    + apply IH; simpl.
      * apply Forall2_snoc; [exact He | apply stamp_same].
      * now rewrite Hl.
    + destruct Ht as [_ Ht]. specialize (Ht eq_refl). discriminate.
    + destruct Ht as [Ht _]. specialize (Ht eq_refl). discriminate.
    + exact I.
Qed.

Lemma filter_idem {A : Type} (f : A -> bool) (l : list A) :
  filter f (filter f l) = filter f l.
Proof.
  induction l as [|x l IH]; simpl; [reflexivity|].
  destruct (f x) eqn:E; simpl; [rewrite E, IH|]; auto.
Qed.

(** C9, as amended.  Two invocations of [parseLogFile] on one content,
    in any two worlds, both throw or both return; when they return, the
    entries agree pairwise in everything but the id and a timestamp read
    from the clock, and the level lists are equal.  [filterLogs] and the
    bucketizer have no world to depend on; filtering twice is filtering
    once. *)
Theorem parses_agree_up_to_id_and_clock (rt : Runtime) (content : jsstring)
  (w1 w2 : World) :
  match fst (parseLogFile rt content w1), fst (parseLogFile rt content w2) with
  | Ok p1, Ok p2 =>
      Forall2 (sameUpToIdAndClock rt) (entries p1) (entries p2)
      /\ levels p1 = levels p2
  | Throw, Throw => True
  | _, _ => False
  end
  /\ forall es search lv,
       filterLogs rt (filterLogs rt es search lv) search lv = filterLogs rt es search lv.
Proof.
  split.
  - rewrite !parseLogFile_run.
    pose proof (parseLines_agree rt (retainedLines content)
                  {| acc_entries := []; levelsSet := []; minDate := None; maxDate := None |}
                  {| acc_entries := []; levelsSet := []; minDate := None; maxDate := None |}
                  w1 w2 (Forall2_nil _) eq_refl) as H.
    destruct (parseLines rt (retainedLines content) _ w1) as [[a1|] w1'];
      destruct (parseLines rt (retainedLines content) _ w2) as [[a2|] w2'];
      simpl in *; try exact H.
    destruct H as [H1 H2]. split; [exact H1 | now rewrite H2].
  - intros es search lv. apply filter_idem.
Qed.

(** C9, as stated: the second invocation on ["hello"] returns another id
    than the first. *)
Lemma parseLogFile_not_repeatable :
  ~ (forall (rt : Runtime) (content : jsstring) (w : World),
        fst (parseLogFile rt content (snd (parseLogFile rt content w)))
        = fst (parseLogFile rt content w)).
Proof.
  intros H. specialize (H Reference.runtime (str "hello") world0).
  vm_compute in H. discriminate H.
Qed.
(** ** The date range *)

Lemma fold_min_spec (ds : list Z) :
  forall d0,
    (forall t, In t (d0 :: ds) -> (fold_left Z.min ds d0 <= t)%Z)
    /\ In (fold_left Z.min ds d0) (d0 :: ds).
Proof.
  induction ds as [|d ds IH]; intro d0; simpl.
  - split; [intros t [H | []]; lia|now left].
  - destruct (IH (Z.min d0 d)) as [H1 H2]. split.
    + intros t [H | [H | H]].
      * subst t. specialize (H1 (Z.min d0 d) (or_introl eq_refl)). lia.
      * subst t. specialize (H1 (Z.min d0 d) (or_introl eq_refl)). lia.
      * apply H1. now right.
    + destruct H2 as [H2 | H2]; [|now right; right].
      rewrite <- H2. destruct (Z.min_spec d0 d) as [[_ E] | [_ E]]; rewrite E; tauto.
Qed.

Lemma fold_max_spec (ds : list Z) :
  forall d0,
    (forall t, In t (d0 :: ds) -> (t <= fold_left Z.max ds d0)%Z)
    /\ In (fold_left Z.max ds d0) (d0 :: ds).
Proof.
  induction ds as [|d ds IH]; intro d0; simpl.
  - split; [intros t [H | []]; lia|now left].
  - destruct (IH (Z.max d0 d)) as [H1 H2]. split.
    + intros t [H | [H | H]].
      * subst t. specialize (H1 (Z.max d0 d) (or_introl eq_refl)). lia.
      * subst t. specialize (H1 (Z.max d0 d) (or_introl eq_refl)). lia.
      * apply H1. now right.
    + destruct H2 as [H2 | H2]; [|now right; right].
      rewrite <- H2. destruct (Z.max_spec d0 d) as [[_ E] | [_ E]]; rewrite E; tauto.
Qed.

Lemma spanOf_spec (ts : list Z) (lo hi : Z) :
  spanOf ts = Some (lo, hi) ->
  (forall t, In t ts -> (lo <= t <= hi)%Z) /\ In lo ts /\ In hi ts.
Proof.
  destruct ts as [|d0 ds]; [discriminate|]. unfold spanOf.
  intro H. injection H as H1 H2. subst lo hi.
  destruct (fold_min_spec ds d0) as [A1 A2].
  destruct (fold_max_spec ds d0) as [B1 B2].
  split; [|now split]. intros t Ht. split; [now apply A1|now apply B1].
Qed.

Lemma spanOf_None (ts : list Z) : spanOf ts = None <-> ts = [].
Proof. destruct ts; simpl; split; congruence. Qed.

Lemma validTimes_mem (rt : Runtime) (es : list LogEntry) :
  forall times,
    mapR (getTime rt) es = Ok times ->
    forall t, In t (validTimes times) <->
              exists e, In e es /\ getTime rt e = Ok (Some t).
Proof.
  induction es as [|e es IH]; intros times H t.
  - injection H as <-. simpl. split; [intros []|intros [e [[] _]]].
  - simpl in H. destruct (getTime rt e) as [o|] eqn:E; [|discriminate H].
    simpl in H. destruct (mapR (getTime rt) es) as [ts|] eqn:E2; [|discriminate H].
    simpl in H. injection H as <-. specialize (IH ts eq_refl t).
    destruct o as [t0|]; simpl.
    + rewrite IH. split.
      * intros [H | [e' [H1 H2]]].
        -- subst t0. exists e. split; [now left|exact E].
        -- exists e'. split; [now right|exact H2].
      * intros [e' [[H1 | H1] H2]].
        -- subst e'. left. congruence.
        -- right. now exists e'.
    + rewrite IH. split.
      * intros [e' [H1 H2]]. exists e'. split; [now right|exact H2].
      * intros [e' [[H1 | H1] H2]]; [subst e'; congruence|now exists e'].
Qed.


Lemma mapR_app {A B : Type} (f : A -> result B) (l1 l2 : list A) :
  mapR f (l1 ++ l2) =
  rbind (mapR f l1) (fun a => rbind (mapR f l2) (fun b => Ok (a ++ b))).
Proof.
  induction l1 as [|x l1 IH]; simpl.
  - destruct (mapR f l2); reflexivity.
  - destruct (f x) as [y|]; simpl; [|reflexivity].
    rewrite IH. destruct (mapR f l1) as [ys|]; simpl; [|reflexivity].
    destruct (mapR f l2); reflexivity.
Qed.

Lemma validTimes_app (a b : list (option Z)) :
  validTimes (a ++ b) = validTimes a ++ validTimes b.
Proof.
  induction a as [|[t|] a IH]; simpl; [reflexivity | now rewrite IH | exact IH].
Qed.

Lemma spanOf_snoc (ts : list Z) (t : Z) :
  spanOf (ts ++ [t]) =
  match spanOf ts with
  | None => Some (t, t)
  | Some (lo, hi) => Some (Z.min lo t, Z.max hi t)
  end.
Proof.
  destruct ts as [|t0 r]; simpl; [reflexivity|].
  now rewrite !fold_left_app.
Qed.

Lemma collect_dates (rt : Runtime) (acc acc' : Acc) (e : LogEntry) (w w' : World) :
  collect rt acc e w = (Ok acc', w') -> datesOk rt acc -> datesOk rt acc'.
Proof.
  rewrite collect_run. intros H [times [Et [Hmin Hmax]]].
  destruct (newDate rt (dt e)) as [d|] eqn:Ed; [|discriminate].
  injection H as <- _. unfold datesOk. simpl.
  exists (times ++ [d]). split; [|].
  - rewrite mapR_app, Et. simpl. unfold getTime at 1. now rewrite Ed.
  - rewrite validTimes_app, Hmin, Hmax.
    destruct d as [t|]; simpl.
    + rewrite spanOf_snoc. destruct (spanOf (validTimes times)) as [[lo hi]|]; simpl.
      * split.
        -- destruct (t <? lo)%Z eqn:E; [apply Z.ltb_lt in E | apply Z.ltb_ge in E];
             f_equal; lia.
        -- destruct (hi <? t)%Z eqn:E; [apply Z.ltb_lt in E | apply Z.ltb_ge in E];
             f_equal; lia.
      * now split.
    + rewrite app_nil_r. now split.
Qed.

Lemma parseLines_dates (rt : Runtime) (lines : list jsstring) :
  forall acc w acc' w',
    parseLines rt lines acc w = (Ok acc', w') -> datesOk rt acc -> datesOk rt acc'.
Proof.
  induction lines as [|line lines IH]; intros acc w acc' w' H Hd.
  - simpl in H. now injection H as <- _.
  - destruct (parseLines_cons rt line lines) as [core [use [_ [_ E]]]].
    rewrite E in H. clear E.
    destruct (collect rt acc (stamp rt core use w) (advance use w)) as [[acc1|] w1] eqn:Ec;
      [|discriminate].
    apply (IH _ _ _ _ H). exact (collect_dates _ _ _ _ _ _ Ec Hd).
Qed.

(** The date range of a parse is the span of the valid instants of its
    entries. *)
Lemma parseLogFile_dateRange (rt : Runtime) (content : jsstring) (w w' : World)
  (p : ParsedLog) :
  parseLogFile rt content w = (Ok p, w') ->
  exists times,
    mapR (getTime rt) (entries p) = Ok times
    /\ dateRange p = spanOf (validTimes times).
Proof.
  rewrite parseLogFile_run.
  destruct (parseLines rt (retainedLines content) _ w) as [[acc|] w1] eqn:E; [|discriminate].
  intros H. injection H as <- _. simpl.
  apply parseLines_dates in E.
  - destruct E as [times [Et [Hmin Hmax]]]. exists times. split; [exact Et|].
    rewrite Hmin, Hmax. now destruct (spanOf (validTimes times)) as [[lo hi]|].
  - exists []. now split.
Qed.

Lemma validTimes_In (rt : Runtime) (es : list LogEntry) (times : list (option Z))
  (e : LogEntry) (t : Z) :
  mapR (getTime rt) es = Ok times -> In e es -> getTime rt e = Ok (Some t) ->
  validTimes times <> [].
Proof.
  revert times. induction es as [|x es IH]; intros times H Hin Ht; [destruct Hin|].
  simpl in H. destruct (getTime rt x) as [d|] eqn:Ex; [|discriminate]. simpl in H.
  destruct (mapR (getTime rt) es) as [ds|] eqn:Es; [|discriminate]. simpl in H.
  injection H as <-. destruct Hin as [-> | Hin].
  - rewrite Ht in Ex. injection Ex as <-. discriminate.
  - destruct d; simpl; [discriminate|]. now apply (IH ds).
Qed.

(** Where the buckets are produced, an entry has a bucket exactly when
    its timestamp is a valid instant. *)
Lemma bucket_iff_valid (rt : Runtime) (entries : list LogEntry) (m : BucketMap) :
  bucketEntries rt entries = Ok m ->
  forall e, In e entries ->
    (validTime rt e = true <->
     exists i b, entryIndex rt entries e = Some i /\ In (i, b) m).
Proof.
  intros B e Hin.
  assert (Hne : entries <> []) by (intros ->; destruct Hin).
  destruct (bucketEntries_returns rt entries m B Hne) as [H _].
  destruct (returned_counters rt entries m B) as [_ [_ C]].
  split.
  - intros Hv. apply validTime_getTime in Hv as [t Ht].
    destruct (bucketEntries_inv rt entries H) as [times [Et [_ G]]].
    pose proof (validTimes_In rt entries times e t Et Hin Ht) as Hn.
    destruct (grid rt (validTimes times) (length entries)) as [[[minTime size]|]|] eqn:Eg.
    + pose proof (entryIndex_grid rt entries times minTime size e Et Eg) as Hi.
      rewrite Ht in Hi. destruct (C e _ Hin Hi) as [b Hb].
      now exists (bucketIndex minTime size t), b.
    + apply grid_None in Eg. congruence.
    + congruence.
  - intros [i [b [Hi _]]]. unfold entryIndex in Hi. unfold validTime.
    destruct (mapR (getTime rt) entries) as [times|]; [|discriminate].
    destruct (grid rt (validTimes times) (length entries)) as [[[minTime size]|]|];
      [|discriminate|discriminate].
    now destruct (getTime rt e) as [[t|]|].
Qed.

(** An entry with a valid instant lies within the date range of its
    parse. *)
Lemma dateRange_covers (rt : Runtime) (content : jsstring) (w w' : World) (p : ParsedLog)
  (e : LogEntry) (t : Z) :
  parseLogFile rt content w = (Ok p, w') ->
  In e (entries p) -> getTime rt e = Ok (Some t) ->
  exists lo hi, dateRange p = Some (lo, hi) /\ (lo <= t <= hi)%Z.
Proof.
  intros P Hin Ht.
  destruct (parseLogFile_dateRange rt content w w' p P) as [times [Et Hd]].
  assert (Hm : In t (validTimes times)).
  { apply (validTimes_mem rt (entries p) times Et t). exists e. split; assumption. }
  destruct (spanOf (validTimes times)) as [[lo hi]|] eqn:Es.
  - exists lo, hi. split; [exact Hd|].
    exact (proj1 (spanOf_spec _ lo hi Es) t Hm).
  - apply spanOf_None in Es. rewrite Es in Hm. destruct Hm.
Qed.

Lemma string_dt_convertible (rt : Runtime) (e : LogEntry) (s : jsstring) :
  dt e = VStr s -> convertible rt e.
Proof. intros H. unfold convertible, getTime. rewrite H. discriminate. Qed.

(** On a line for the plain-text parser the dispatcher returns what
    that parser returns. *)
Lemma dispatch_plainLine (rt : Runtime) (line : jsstring) (w : World) :
  plainLine line ->
  dispatch rt line w =
  match parsePlainTextLog rt line w with
  | (Ok e, w') => (Ok (Some e), w')
  | (Throw, w') => (Throw, w')
  end.
Proof.
  intros [Hb Hs]. unfold dispatch, parseStructuredTextLog. rewrite Hb, Hs.
  mstep. now destruct (parsePlainTextLog rt line w) as [[e|] w'].
Qed.

(** The entries of a parse come one per line, and the entry of a line
    without timestamp that went to the plain-text parser is dated with
    the text of a clock reading. *)
Lemma parseLines_defaults (rt : Runtime) (lines : list jsstring) :
  forall acc w acc' w',
    parseLines rt lines acc w = (Ok acc', w') ->
    exists new,
      acc_entries acc' = acc_entries acc ++ new
      /\ Forall2 (fun line e =>
                    raw e = Some line
                    /\ (plainLine line -> extractTimestamp line = None ->
                        exists k, dt e = VStr (toISOString rt (clock rt k))))
           lines new.
Proof.
  induction lines as [|line lines IH]; intros acc w acc' w' H.
  - simpl in H. injection H as <- _. exists []. rewrite app_nil_r.
    split; [reflexivity | constructor].
  - destruct (dispatch_shape rt line) as [core [use [Hr [_ Hd]]]].
    simpl in H. revert H. mstep. rewrite Hd, collect_run.
    destruct (newDate rt (dt (stamp rt core use w))) as [a|]; [|discriminate].
    intros H. apply IH in H as [new [Ha Hall]]. cbn [acc_entries] in Ha.
    exists (stamp rt core use w :: new). split.
    + rewrite Ha, <- app_assoc. reflexivity.
    + constructor; [|exact Hall]. split; [exact Hr|].
      intros Hp Hnone.
      pose proof (dispatch_plainLine rt line w Hp) as Hdp. rewrite Hd in Hdp.
      destruct (parsePlainTextLog_shape rt line)
        as [pc [pu [_ [_ [_ [Hu [_ [_ Hpp]]]]]]]].
      apply Hu in Hnone. subst pu. rewrite Hpp in Hdp.
      assert (He : stamp rt core use w = stamp rt pc DefaultLast w) by congruence.
      rewrite He. exists (S (ticks w)). reflexivity.
Qed.

Lemma Forall2_In_left {A B : Type} (R : A -> B -> Prop) (l : list A) (l' : list B)
  (x : A) :
  Forall2 R l l' -> In x l -> exists y, In y l' /\ R x y.
Proof.
  induction 1 as [|a b l l' Hab _ IH]; intros Hin; [destruct Hin|].
  destruct Hin as [-> | Hin].
  - exists b. split; [now left | exact Hab].
  - destruct (IH Hin) as [y [Hy Hr]]. exists y. split; [now right | exact Hr].
Qed.

(** In a parse, the entry of a line without timestamp that went to the
    plain-text parser. *)
Lemma parseLogFile_default_entry (rt : Runtime) (content : jsstring) (w w' : World)
  (p : ParsedLog) (line : jsstring) :
  parseLogFile rt content w = (Ok p, w') ->
  In line (retainedLines content) ->
  plainLine line -> extractTimestamp line = None ->
  exists e k,
    In e (entries p) /\ raw e = Some line
    /\ dt e = VStr (toISOString rt (clock rt k)).
Proof.
  rewrite parseLogFile_run.
  destruct (parseLines rt (retainedLines content) _ w) as [[acc|] w1] eqn:E; [|discriminate].
  intros H Hin Hp Hnone. injection H as <- _. cbn [entries].
  apply parseLines_defaults in E. destruct E as [new [Ha Hall]].
  cbn [acc_entries app] in Ha. rewrite Ha.
  destruct (Forall2_In_left _ _ _ line Hall Hin) as [e [He [Hr Hk]]].
  destruct (Hk Hp Hnone) as [k Hd].
  now exists e, k.
Qed.

(** C5, as amended.  On a line without a timestamp the plain-text parser
    still creates an entry, dated with the text of the clock reading that
    follows the one of its id; where the engine reads that text back as
    an instant, the entry has a valid instant.  The date range of a parse
    is the span of the valid instants of its entries and covers each of
    them.  The buckets are produced while the entries with a valid
    instant are no more than one call of the engine takes arguments, and
    where they are produced an entry has a bucket exactly when its
    timestamp is a valid instant.  So the entry that a parse makes of
    such a line, once its text is read back as an instant, lies within
    the date range of the parse and has a bucket among the buckets of
    its entries. *)
Theorem clock_default_is_a_timestamp (rt : Runtime) :
  (forall line w,
      extractTimestamp line = None ->
      exists e w',
        parsePlainTextLog rt line w = (Ok e, w')
        /\ raw e = Some line
        /\ dt e = VStr (toISOString rt (clock rt (S (ticks w))))
        /\ forall t,
             Date_parse rt (toISOString rt (clock rt (S (ticks w)))) = Some t ->
             getTime rt e = Ok (Some t) /\ validTime rt e = true)
  /\ (forall content w p w',
        parseLogFile rt content w = (Ok p, w') ->
        (exists times,
            mapR (getTime rt) (entries p) = Ok times
            /\ dateRange p = spanOf (validTimes times))
        /\ forall e t,
             In e (entries p) -> getTime rt e = Ok (Some t) ->
             exists lo hi, dateRange p = Some (lo, hi) /\ (lo <= t <= hi)%Z)
  /\ (forall entries,
        Forall (convertible rt) entries ->
        length (filter (validTime rt) entries) <= maxArguments rt ->
        exists m, bucketEntries rt entries = Ok m)
  /\ (forall entries m,
        bucketEntries rt entries = Ok m ->
        forall e, In e entries ->
          (validTime rt e = true <->
           exists i b, entryIndex rt entries e = Some i /\ In (i, b) m))
  /\ (forall content w p w' line,
        parseLogFile rt content w = (Ok p, w') ->
        In line (retainedLines content) ->
        plainLine line -> extractTimestamp line = None ->
        exists e k,
          In e (entries p)
          /\ raw e = Some line
          /\ dt e = VStr (toISOString rt (clock rt k))
          /\ forall t,
               Date_parse rt (toISOString rt (clock rt k)) = Some t ->
               getTime rt e = Ok (Some t)
               /\ (exists lo hi, dateRange p = Some (lo, hi) /\ (lo <= t <= hi)%Z)
               /\ forall m,
                    bucketEntries rt (entries p) = Ok m ->
                    exists i b, entryIndex rt (entries p) e = Some i /\ In (i, b) m).
Proof.
  split; [|split; [|split; [|split]]].
  - intros line w Hnone.
    destruct (parsePlainTextLog_shape rt line) as [core [use [Hr [_ [_ [Hu [_ [_ Hp]]]]]]]].
    apply Hu in Hnone. subst use.
    exists (stamp rt core DefaultLast w), (advance DefaultLast w).
    split; [apply Hp|]. split; [exact Hr|]. split; [reflexivity|].
    intros t Ht. unfold validTime, getTime. simpl. rewrite Ht. split; reflexivity.
  - intros content w p w' P. split; [exact (parseLogFile_dateRange rt content w w' p P)|].
    intros e t. exact (dateRange_covers rt content w w' p e t P).
  - intros entries H Hlim.
    destruct (bucketEntries_counters rt entries H Hlim) as [m [B _]]. now exists m.
  - exact (bucket_iff_valid rt).
  - intros content w p w' line P Hin Hp Hnone.
    destruct (parseLogFile_default_entry rt content w w' p line P Hin Hp Hnone)
      as [e [k [He [Hr Hd]]]].
    exists e, k. split; [exact He|]. split; [exact Hr|]. split; [exact Hd|].
    intros t Ht.
    assert (Hg : getTime rt e = Ok (Some t)).
    { unfold getTime. rewrite Hd. simpl. now rewrite Ht. }
    split; [exact Hg|].
    split; [exact (dateRange_covers rt content w w' p e t P He Hg)|].
    intros m B. apply (bucket_iff_valid rt (entries p) m B e He).
    apply validTime_getTime. now exists t.
Qed.

Lemma frozen_clock_reads_back (k : nat) :
  Date_parse frozenRuntime (toISOString frozenRuntime (clock frozenRuntime k))
  = Some 1767225600000%Z.
Proof. vm_compute. reflexivity. Qed.

Lemma hello_is_plain : plainLine (str "hello").
Proof. split; vm_compute; reflexivity. Qed.

Lemma clock_default_is_a_timestamp_witness :
  extractTimestamp (str "hello") = None
  /\ (exists e w',
        parsePlainTextLog Reference.runtime (str "hello") world0 = (Ok e, w')
        /\ raw e = Some (str "hello")
        /\ dt e = VStr (toISOString Reference.runtime (clock Reference.runtime 1))
        /\ getTime Reference.runtime e = Ok (Some 1767225600001%Z)
        /\ validTime Reference.runtime e = true)
  /\ exists p w' e,
       parseLogFile frozenRuntime (str "hello") world0 = (Ok p, w')
       /\ In e (entries p)
       /\ raw e = Some (str "hello")
       /\ getTime frozenRuntime e = Ok (Some 1767225600000%Z)
       /\ (exists lo hi,
             dateRange p = Some (lo, hi) /\ (lo <= 1767225600000 <= hi)%Z)
       /\ forall m,
            bucketEntries frozenRuntime (entries p) = Ok m ->
            exists i b, entryIndex frozenRuntime (entries p) e = Some i /\ In (i, b) m.
Proof.
  split; [reflexivity|]. split.
  - destruct (proj1 (clock_default_is_a_timestamp Reference.runtime) (str "hello") world0
                eq_refl) as [e [w' [P [R [D V]]]]].
    exists e, w'. split; [exact P|]. split; [exact R|]. split; [exact D|].
    apply (V 1767225600001%Z). vm_compute. reflexivity.
  - destruct (parseLogFile frozenRuntime (str "hello") world0) as [[p|] w'] eqn:P;
      [|vm_compute in P; discriminate P].
    assert (Hin : In (str "hello") (retainedLines (str "hello"))) by (left; reflexivity).
    destruct (proj2 (proj2 (proj2 (proj2 (clock_default_is_a_timestamp frozenRuntime))))
                (str "hello") world0 p w' (str "hello") P Hin hello_is_plain eq_refl)
      as [e [k [He [Hr [_ V]]]]].
    destruct (V _ (frozen_clock_reads_back k)) as [Hg [Hd Hb]].
    exists p, w', e. split; [reflexivity|]. split; [exact He|]. split; [exact Hr|].
    split; [exact Hg|]. split; [exact Hd | exact Hb].
Defined.

(** C5, as stated: the entry of the line ["hello"] has no timestamp of
    its own, and its clock default sets the date range and fills a
    bucket. *)
Lemma clock_default_is_in_range_and_bucket :
  extractTimestamp (str "hello") = None
  /\ exists p w',
       parseLogFile Reference.runtime (str "hello") world0 = (Ok p, w')
       /\ dateRange p = Some (1767225600001, 1767225600001)%Z
       /\ exists b,
            buckets Reference.runtime (entries p) = Ok [b] /\ count b = 1.
Proof.
  split; [reflexivity|].
  destruct (parseLogFile Reference.runtime (str "hello") world0) as [[p|] w'] eqn:E;
    vm_compute in E; [|discriminate].
  injection E as <- <-.
  eexists _, _. split; [reflexivity|]. split; [reflexivity|].
  eexists. split; vm_compute; reflexivity.
Qed.

(** ** The cleaning patterns *)


Lemma space_not_bracket (a : ascii) : isSpace a = true -> Ascii.eqb (chr "[") a = false.
Proof.
  destruct a as [b0 b1 b2 b3 b4 b5 b6 b7].
  destruct b0, b1, b2, b3, b4, b5, b6, b7; vm_compute; congruence.
Qed.

Lemma upper_closing (a : ascii) :
  Ascii.eqb (chr "]") (upperAscii a) = Ascii.eqb (chr "]") a.
Proof.
  destruct a as [b0 b1 b2 b3 b4 b5 b6 b7].
  destruct b0, b1, b2, b3, b4, b5, b6, b7; vm_compute; congruence.
Qed.

(** A match leaves a suffix of the input to the continuation. *)
Lemma rmatch_suffix (n : nat) (r : regex) :
  forall (s : jsstring) (c : captures) (k : kont) (x : jsstring * captures),
    rmatch n r s c k = Some x ->
    exists pre s' c', s = pre ++ s' /\ k s' c' = Some x.
Proof.
  induction r as [|p|r1 IH1 r2 IH2|r1 IH1 r2 IH2|r1 IH1|i r1 IH1| |];
    intros s c k x H; simpl in H.
  - now exists [], s, c.
  - destruct s as [|a s']; [discriminate|].
    destruct (p a); [|discriminate]. now exists [a], s', c.
  - apply IH1 in H as [p1 [s1 [c1 [-> H]]]].
    apply IH2 in H as [p2 [s2 [c2 [-> H]]]].
    exists (p1 ++ p2), s2, c2. now rewrite app_assoc.
  - destruct (rmatch n r1 s c k) eqn:E.
    + injection H as ->. now apply IH1 in E.
    + now apply IH2 in H.
  - match type of H with
    | ?loop (length s) s c = _ =>
        assert (L : forall fuel s0 c0,
                   loop fuel s0 c0 = Some x ->
                   exists pre s' c', s0 = pre ++ s' /\ k s' c' = Some x)
    end.
    { induction fuel as [|fuel IHf]; intros s0 c0 H0.
      - now exists [], s0, c0.
      - match type of H0 with
        | match ?t with _ => _ end = _ => destruct t eqn:E
        end.
        + injection H0 as ->. apply IH1 in E as [p1 [s1 [c1 [-> E]]]].
          destruct (length s1 <? length (p1 ++ s1)); [|discriminate].
          apply IHf in E as [p2 [s2 [c2 [-> E]]]].
          exists (p1 ++ p2), s2, c2. now rewrite app_assoc.
        + now exists [], s0, c0. }
    now apply L in H.
  - apply IH1 in H as [p1 [s1 [c1 [-> H]]]].
    now exists p1, s1, ((i, firstn (length (p1 ++ s1) - length s1) (p1 ++ s1)) :: c1).
  - destruct (length s =? n); [|discriminate]. now exists [], s, c.
  - destruct s; [|discriminate]. now exists [], [], c.
Qed.

Lemma search_unfold (n : nat) (r : regex) (i : nat) (s : jsstring) :
  search n r i s =
  match rmatch n r s [] accept with
  | Some (s1, c1) =>
      Some {| index := i; matched := firstn (length s - length s1) s; groups := c1 |}
  | None =>
      match s with
      | [] => None
      | _ :: s' => search n r (S i) s'
      end
  end.
Proof. destruct s; reflexivity. Qed.

(** A pattern that begins with [^] matches at the start or nowhere. *)
Lemma search_anchored_tail (n : nat) (r : regex) (s : jsstring) :
  forall i, length s < n -> search n (Cat Bol r) i s = None.
Proof.
  induction s as [|a s IH]; intros i L; rewrite search_unfold; cbn [rmatch].
  - destruct (length (@nil ascii) =? n) eqn:E; [apply Nat.eqb_eq in E; lia | reflexivity].
  - destruct (length (a :: s) =? n) eqn:E; [apply Nat.eqb_eq in E; lia|].
    apply IH. simpl in L. lia.
Qed.



Lemma rmatch_lit (n : nat) (x : string) (s : jsstring) (c : captures) (k : kont) :
  rmatch n (lit x) s c k =
  match takeChar (chr x) s with
  | Some s' => k s' c
  | None => None
  end.
Proof. destruct s as [|a s]; simpl; [reflexivity|]. now destruct (Ascii.eqb (chr x) a). Qed.



Lemma dropWhile_length (p : ascii -> bool) (s : jsstring) :
  length (dropWhile p s) <= length s.
Proof.
  induction s as [|a s IH]; simpl; [lia|]. destruct (p a); simpl; lia.
Qed.

(** A greedy run of one class gives all of the run to a continuation
    that has no use for a shorter one. *)
Lemma rmatch_star_class (n : nat) (p : ascii -> bool) (k : kont) :
  (forall a s c, p a = true -> k (dropWhile p s) c = None -> k (a :: s) c = None) ->
  forall s c, rmatch n (Star (Class p)) s c k = k (dropWhile p s) c.
Proof.
  intros Hk s c. cbn [rmatch].
  match goal with
  | |- ?loop (length s) s c = _ =>
      assert (L : forall fuel s0, length s0 <= fuel ->
                                  loop fuel s0 c = k (dropWhile p s0) c)
  end.
  { induction fuel as [|fuel IH]; intros s0 L0.
    - destruct s0; [reflexivity | simpl in L0; lia].
    - destruct s0 as [|a s']; [reflexivity|].
      simpl. destruct (p a) eqn:Pa; [|reflexivity].
      replace (length s' <? S (length s')) with true
        by (symmetry; apply Nat.ltb_lt; lia).
      rewrite IH by (simpl in L0; lia).
      destruct (k (dropWhile p s') c) eqn:E; [reflexivity|].
      now apply Hk. }
  apply L. lia.
Qed.

Lemma rmatch_cat (n : nat) (r1 r2 : regex) (s : jsstring) (c : captures) (k : kont) :
  rmatch n (Cat r1 r2) s c k = rmatch n r1 s c (fun s1 c1 => rmatch n r2 s1 c1 k).
Proof. reflexivity. Qed.

Lemma rmatch_class (n : nat) (p : ascii -> bool) (s : jsstring) (c : captures) (k : kont) :
  rmatch n (Class p) s c k =
  match s with
  | a :: s' => if p a then k s' c else None
  | [] => None
  end.
Proof. reflexivity. Qed.



Lemma rmatch_group (n i : nat) (r : regex) (s : jsstring) (c : captures) (k : kont) :
  rmatch n (Group i r) s c k =
  rmatch n r s c (fun s1 c1 => k s1 ((i, firstn (length s - length s1) s) :: c1)).
Proof. reflexivity. Qed.







Section LevelTag.

Variable n : nat.
Variable F : jsstring -> jsstring.
Variable k : kont.

(** The continuation asks for the closing bracket. *)
Hypothesis k_closing :
  forall s1 c1,
    option_map fst (k s1 c1) =
    match s1 with
    | b :: s' => if Ascii.eqb (chr "]") b then Some (F s') else None
    | [] => None
    end.



End LevelTag.



(** ** The message of a plain-text line *)







(** A timestamp in access-log form, and a space-separated one that does
    not start the line, are recognized by the extractor and stay in the
    message: the text searched for removal is the normalized timestamp. *)
Lemma normalized_timestamp_stays_in_message :
  extractTimestamp (str "09/Jan/2026:20:52:09 WARN disk at 90%")
  = Some (str "2026-01-09T20:52:09Z")
  /\ cleanedMessage (str "09/Jan/2026:20:52:09 WARN disk at 90%")
     = str "09/Jan/2026:20:52:09 WARN disk at 90%"
  /\ extractTimestamp (str "job 2026-01-09 20:52:09 done")
     = Some (str "2026-01-09T20:52:09Z")
  /\ cleanedMessage (str "job 2026-01-09 20:52:09 done")
     = str "job 2026-01-09 20:52:09 done".
Proof. repeat split; vm_compute; reflexivity. Qed.

(** * Further properties: levels and filters *)

Lemma lowerChar_idem (a : ascii) : lowerChar (lowerChar a) = lowerChar a.
Proof. destruct a as [[] [] [] [] [] [] [] []]; reflexivity. Qed.

Lemma toLowerCase_idem (s : jsstring) : toLowerCase (toLowerCase s) = toLowerCase s.
Proof.
  unfold toLowerCase. rewrite map_map. apply map_ext. intro a. apply lowerChar_idem.
Qed.

Lemma includes_embedded (pre a post p : jsstring) :
  includes a p = true -> includes (pre ++ a ++ post) p = true.
Proof.
  rewrite !includes_spec. intros [x [y E]]. subst a.
  exists (pre ++ x), (y ++ post). now rewrite <- !app_assoc.
Qed.

Lemma found_embedded (pre a post : jsstring) (word : string) :
  includes (toLowerCase a) (str word) = true ->
  includes (toLowerCase (pre ++ a ++ post)) (str word) = true.
Proof.
  intro H. rewrite !toLowerCase_app. now apply includes_embedded.
Qed.

(** X1 (detectLogLevel): a text is never classified lower than a part of
    it.  In the order of the tests of the classifier (info, debug, warn,
    error, fatal, from last to first), the level of [pre ++ a ++ post] is
    at least the level of [a]: text around a marker can raise the level
    of a line and never lowers it. *)
Theorem detectLogLevel_embedding (pre a post : jsstring) :
  priority (detectLogLevel a) <= priority (detectLogLevel (pre ++ a ++ post)).
Proof.
  rewrite (detectLogLevel_cases a), (detectLogLevel_cases (pre ++ a ++ post)).
  pose proof (found_embedded pre a post "fatal") as Hf.
  pose proof (found_embedded pre a post "critical") as Hc.
  pose proof (found_embedded pre a post "error") as He.
  pose proof (found_embedded pre a post "err]") as Hr.
  pose proof (found_embedded pre a post "warn") as Hw.
  pose proof (found_embedded pre a post "debug") as Hd.
  pose proof (found_embedded pre a post "dbg") as Hg.
  revert Hf Hc He Hr Hw Hd Hg.
  generalize (includes (toLowerCase (pre ++ a ++ post)) (str "fatal")),
    (includes (toLowerCase (pre ++ a ++ post)) (str "critical")),
    (includes (toLowerCase (pre ++ a ++ post)) (str "error")),
    (includes (toLowerCase (pre ++ a ++ post)) (str "err]")),
    (includes (toLowerCase (pre ++ a ++ post)) (str "warn")),
    (includes (toLowerCase (pre ++ a ++ post)) (str "debug")),
    (includes (toLowerCase (pre ++ a ++ post)) (str "dbg")),
    (includes (toLowerCase a) (str "fatal")),
    (includes (toLowerCase a) (str "critical")),
    (includes (toLowerCase a) (str "error")),
    (includes (toLowerCase a) (str "err]")),
    (includes (toLowerCase a) (str "warn")),
    (includes (toLowerCase a) (str "debug")),
    (includes (toLowerCase a) (str "dbg")).
  intros B1 B2 B3 B4 B5 B6 B7 A1 A2 A3 A4 A5 A6 A7 Hf Hc He Hr Hw Hd Hg.
  destruct A1; [rewrite (Hf eq_refl); simpl; lia|clear Hf].
  destruct A2; [rewrite (Hc eq_refl), !orb_true_r; simpl; lia|clear Hc].
  destruct B1, B2; try (destruct A3, A4, A5, A6, A7; simpl; lia).
  destruct A3; [rewrite (He eq_refl); simpl; lia|clear He].
  destruct A4; [rewrite (Hr eq_refl), !orb_true_r; simpl; lia|clear Hr].
  destruct B3, B4; try (destruct A5, A6, A7; simpl; lia).
  destruct A5; [rewrite (Hw eq_refl); simpl; lia|clear Hw].
  destruct B5; [destruct A6, A7; simpl; lia|].
  destruct A6; [rewrite (Hd eq_refl); simpl; lia|clear Hd].
  destruct A7; [rewrite (Hg eq_refl), !orb_true_r; simpl; lia|].
  simpl. lia.
Qed.

Lemma keeps_split (rt : Runtime) (search : jsstring) (levels : list LogLevel)
  (e : LogEntry) :
  keeps rt search levels e = keeps rt [] levels e && keeps rt search [] e.
Proof.
  unfold keeps. change (nonEmpty []) with false.
  change (0 <? length (@nil LogLevel)) with false. cbn [andb].
  destruct ((0 <? length levels) && negb (existsb (LogLevel_eqb (level e)) levels));
    reflexivity.
Qed.

Lemma filter_filter {A : Type} (f g : A -> bool) (l : list A) :
  filter f (filter g l) = filter (fun x => g x && f x) l.
Proof.
  induction l as [|x l IH]; [reflexivity|]. simpl.
  destruct (g x); simpl; [destruct (f x)|]; now rewrite IH.
Qed.

(** X2 (filterLogs): the level filter and the search filter are
    independent.  Filtering by both at once is filtering by the search
    text alone and then by the levels alone, in either order. *)
Theorem filterLogs_splits (rt : Runtime) (entries : list LogEntry)
  (search : jsstring) (levels : list LogLevel) :
  filterLogs rt entries search levels
  = filterLogs rt (filterLogs rt entries search []) [] levels
  /\ filterLogs rt entries search levels
     = filterLogs rt (filterLogs rt entries [] levels) search [].
Proof.
  unfold filterLogs. rewrite !filter_filter. split; apply filter_ext; intro e.
  - rewrite (keeps_split rt search levels e). apply andb_comm.
  - apply keeps_split.
Qed.

Lemma keeps_same_levels (rt : Runtime) (search : jsstring) (l1 l2 : list LogLevel)
  (e : LogEntry) :
  (forall l, In l l1 <-> In l l2) ->
  keeps rt search l1 e = keeps rt search l2 e.
Proof.
  intro H. unfold keeps.
  assert (E1 : (0 <? length l1) = (0 <? length l2)).
  { destruct l1 as [|x l1], l2 as [|y l2]; try reflexivity.
    - exfalso. apply (proj2 (H y)). now left.
    - exfalso. apply (proj1 (H x)). now left. }
  assert (E2 : existsb (LogLevel_eqb (level e)) l1 = existsb (LogLevel_eqb (level e)) l2).
  { apply eq_true_iff_eq. rewrite !level_member. apply H. }
  now rewrite E1, E2.
Qed.

Lemma filterLogs_same_levels (rt : Runtime) (entries : list LogEntry)
  (search : jsstring) (l1 l2 : list LogLevel) :
  (forall l, In l l1 <-> In l l2) ->
  filterLogs rt entries search l1 = filterLogs rt entries search l2.
Proof.
  intro H. unfold filterLogs. apply filter_ext. intro e. now apply keeps_same_levels.
Qed.

Lemma keeps_every_level (rt : Runtime) (search : jsstring) (levels : list LogLevel)
  (e : LogEntry) :
  (forall l, In l levels) -> keeps rt search levels e = keeps rt search [] e.
Proof.
  intro H. unfold keeps.
  assert (E : existsb (LogLevel_eqb (level e)) levels = true)
    by (apply level_member, H).
  rewrite E. cbn [negb]. rewrite andb_false_r. reflexivity.
Qed.

(** X3 (filterLogs): the selected levels act as a set, and selecting
    every level is selecting none.  Two selections with the same members
    (whatever their order or repetitions) give the same result, and a
    selection that holds all five levels gives the result of the empty
    selection. *)
Theorem filterLogs_levels_as_set (rt : Runtime) (entries : list LogEntry)
  (search : jsstring) (l1 l2 : list LogLevel) :
  (forall l, In l l1 <-> In l l2) ->
  filterLogs rt entries search l1 = filterLogs rt entries search l2
  /\ ((forall l, In l l1) ->
      filterLogs rt entries search l1 = filterLogs rt entries search []).
Proof.
  intro H. split; [now apply filterLogs_same_levels|].
  intro Hall. unfold filterLogs. apply filter_ext. intro e.
  now apply keeps_every_level.
Qed.

Lemma filterLogs_levels_as_set_witness :
  (forall l, In l [debug; info; warn; error; fatal]
             <-> In l [fatal; fatal; error; warn; info; debug])
  /\ filterLogs Reference.runtime sampleEntries (str "e") [debug; info; warn; error; fatal]
     = filterLogs Reference.runtime sampleEntries (str "e")
         [fatal; fatal; error; warn; info; debug]
  /\ filterLogs Reference.runtime sampleEntries (str "e") [debug; info; warn; error; fatal]
     = filterLogs Reference.runtime sampleEntries (str "e") [].
Proof.
  assert (H : forall l, In l [debug; info; warn; error; fatal]
                        <-> In l [fatal; fatal; error; warn; info; debug]).
  { intro l. split; intros _; destruct l; simpl; tauto. }
  split; [exact H|].
  destruct (filterLogs_levels_as_set Reference.runtime sampleEntries (str "e") _ _ H)
    as [E1 E2].
  split; [exact E1|]. apply E2. intro l. destruct l; simpl; tauto.
Defined.

(** * Further properties: the viewer *)

Lemma toggleLevel_In (l x : LogLevel) (prev : list LogLevel) :
  In x (toggleLevel l prev) <->
  (x = l /\ ~ In l prev) \/ (x <> l /\ In x prev).
Proof.
  unfold toggleLevel.
  destruct (existsb (LogLevel_eqb l) prev) eqn:E.
  - apply level_member in E. rewrite filter_In. split.
    + intros [Hin Hx]. right. split; [|exact Hin].
      intro Heq. subst x.
      assert (T : LogLevel_eqb l l = true) by now apply LogLevel_eqb_eq.
      rewrite T in Hx. discriminate Hx.
    + intros [[_ Hn] | [Hne Hin]]; [contradiction|]. split; [exact Hin|].
      destruct (LogLevel_eqb x l) eqn:Ex; [|reflexivity].
      apply LogLevel_eqb_eq in Ex. contradiction.
  - assert (Hn : ~ In l prev).
    { intro Hin. apply level_member in Hin. rewrite Hin in E. discriminate E. }
    rewrite in_app_iff. simpl. split.
    + intros [Hin | [Heq | []]].
      * right. split; [|exact Hin]. intro Heq. subst x. contradiction.
      * subst x. now left.
    + intros [[Heq _] | [_ Hin]]; [subst x; right; now left|now left].
Qed.

Lemma toggleLevel_NoDup (l : LogLevel) (prev : list LogLevel) :
  NoDup prev -> NoDup (toggleLevel l prev).
Proof.
  intro H. unfold toggleLevel.
  destruct (existsb (LogLevel_eqb l) prev) eqn:E.
  - now apply NoDup_filter.
  - assert (Hn : ~ In l prev).
    { intro Hin. apply level_member in Hin. rewrite Hin in E. discriminate E. }
    apply NoDup_app; [exact H|repeat constructor; easy|].
    intros a Ha [Hb | []]. subst a. contradiction.
Qed.

(** X5 (handleLevelToggle): a toggle flips the membership of its level
    and of no other.  After the toggle the level is selected exactly when
    it was not selected before, every other level is selected exactly
    when it was, and a selection without repetitions stays so. *)
Theorem handleLevelToggle_flips (l : LogLevel) (st : ViewerState) :
  (In l (selectedLevels (handleLevelToggle l st)) <-> ~ In l (selectedLevels st))
  /\ (forall x, x <> l ->
        (In x (selectedLevels (handleLevelToggle l st)) <-> In x (selectedLevels st)))
  /\ (NoDup (selectedLevels st) -> NoDup (selectedLevels (handleLevelToggle l st))).
Proof.
  cbn [handleLevelToggle selectedLevels]. split; [|split].
  - rewrite toggleLevel_In. split.
    + intros [[_ H] | [H _]]; [exact H|now contradiction H].
    + intro H. left. now split.
  - intros x Hx. rewrite toggleLevel_In. split.
    + intros [[H _] | [_ H]]; [contradiction|exact H].
    + intro H. right. now split.
  - apply toggleLevel_NoDup.
Qed.

Lemma toggle_twice_members (l x : LogLevel) (prev : list LogLevel) :
  In x (toggleLevel l (toggleLevel l prev)) <-> In x prev.
Proof.
  rewrite !toggleLevel_In.
  destruct (LogLevel_eqb x l) eqn:E.
  - apply LogLevel_eqb_eq in E. subst x. split.
    + intros [[_ H] | [H _]]; [|now contradiction H].
      destruct (existsb (LogLevel_eqb l) prev) eqn:Ex; [now apply level_member|].
      exfalso. apply H. left. split; [reflexivity|].
      intro Hin. apply level_member in Hin. rewrite Hin in Ex. discriminate Ex.
    + intro H. left. split; [reflexivity|].
      intros [[_ Hn] | [Hn _]]; [contradiction|now apply Hn].
  - assert (Hne : x <> l).
    { intro H. apply LogLevel_eqb_eq in H. rewrite H in E. discriminate E. }
    split.
    + intros [[H _] | [_ [[H _] | [_ H]]]]; try contradiction. exact H.
    + intro H. right. split; [exact Hne|]. right. now split.
Qed.

(** X6 (handleLevelToggle, filteredEntries): toggling a level twice
    leaves the rows of the table as they were.  The selection itself can
    come back in another order (the level moves to the end of the list),
    which the filter does not see. *)
Theorem toggle_twice_same_rows (rt : Runtime) (l : LogLevel) (st : ViewerState) :
  filteredEntries rt (handleLevelToggle l (handleLevelToggle l st))
  = filteredEntries rt st.
Proof.
  unfold filteredEntries. cbn [handleLevelToggle parsedLog searchQuery selectedLevels].
  destruct (parsedLog st) as [p|]; [|reflexivity].
  apply filterLogs_same_levels. intro x. apply toggle_twice_members.
Qed.

Lemma length_zero_nil {A : Type} (l : list A) : (0 <? length l) = false -> l = [].
Proof. destruct l; [reflexivity|discriminate]. Qed.

Lemma keeps_no_filter (rt : Runtime) (e : LogEntry) : keeps rt [] [] e = true.
Proof. reflexivity. Qed.

Lemma filteredEntries_unfiltered (rt : Runtime) (st : ViewerState) :
  hasFilters st = false -> filteredEntries rt st = loadedEntries st.
Proof.
  unfold hasFilters, filteredEntries, loadedEntries. intro H.
  apply orb_false_iff in H. destruct H as [H1 H2].
  apply length_zero_nil in H1. apply length_zero_nil in H2. rewrite H1, H2.
  destruct (parsedLog st) as [p|]; [|reflexivity].
  unfold filterLogs. apply filter_all. intro e. apply keeps_no_filter.
Qed.

(** X7 (hasFilters, clearFilters, filteredEntries): without an active
    filter the table shows every entry of the loaded file.  Whenever
    [hasFilters] is false (no filter bar is shown) the filtered entries
    are all the entries, and [clearFilters] brings this about from any
    state, keeping the loaded file and the selected entry. *)
Theorem no_filters_all_rows (rt : Runtime) (st : ViewerState) :
  (hasFilters st = false -> filteredEntries rt st = loadedEntries st)
  /\ hasFilters (clearFilters st) = false
  /\ filteredEntries rt (clearFilters st) = loadedEntries st
  /\ selectedEntry (clearFilters st) = selectedEntry st.
Proof.
  split; [apply filteredEntries_unfiltered|].
  split; [reflexivity|]. split; [|reflexivity].
  now rewrite filteredEntries_unfiltered.
Qed.

Lemma no_filters_all_rows_witness :
  hasFilters initialState = false
  /\ filteredEntries Reference.runtime initialState = loadedEntries initialState.
Proof.
  split; [reflexivity|].
  exact (proj1 (no_filters_all_rows Reference.runtime initialState) eq_refl).
Defined.

Lemma handleFileLoad_run (rt : Runtime) (content : jsstring) (st : ViewerState)
  (w : World) :
  handleFileLoad rt content st w =
  match parseLogFile rt content w with
  | (Ok p, w') =>
      (Ok {| parsedLog := Some p; selectedEntry := None; searchQuery := [];
             selectedLevels := []; showLevelFilter := showLevelFilter st |}, w')
  | (Throw, w') => (Throw, w')
  end.
Proof.
  unfold handleFileLoad, bind, ret.
  destruct (parseLogFile rt content w) as [[p|] w']; reflexivity.
Qed.

(** X8 (handleFileLoad): a file that loads replaces everything on
    display.  When the handler returns, the state holds the result of
    [parseLogFile], no filter and no selected entry, so that the table
    shows one row per line of the file that is not blank, in the order of
    the file, each with its line as [raw]. *)
Theorem handleFileLoad_shows_file (rt : Runtime) (content : jsstring)
  (st st' : ViewerState) (w w' : World) :
  handleFileLoad rt content st w = (Ok st', w') ->
  exists p,
    parseLogFile rt content w = (Ok p, w')
    /\ parsedLog st' = Some p
    /\ hasFilters st' = false
    /\ selectedEntry st' = None
    /\ filteredEntries rt st' = entries p
    /\ map raw (filteredEntries rt st') = map Some (retainedLines content).
Proof.
  rewrite handleFileLoad_run.
  destruct (parseLogFile rt content w) as [[p|] w1] eqn:E; [|discriminate].
  intro H. injection H as H1 H2. subst st' w1. exists p.
  assert (F : filteredEntries rt
                {| parsedLog := Some p; selectedEntry := None; searchQuery := [];
                   selectedLevels := []; showLevelFilter := showLevelFilter st |}
              = entries p)
    by (now rewrite filteredEntries_unfiltered).
  repeat split; try reflexivity; try exact F.
  rewrite F. exact (proj1 (parseLogFile_one_entry_per_line rt content w w' p E)).
Qed.

Lemma handleFileLoad_shows_file_witness :
  exists st' w' p,
    handleFileLoad Reference.runtime elevenLines viewerSample world0 = (Ok st', w')
    /\ parsedLog st' = Some p
    /\ hasFilters st' = false
    /\ length (filteredEntries Reference.runtime st') = 11.
Proof.
  destruct (handleFileLoad Reference.runtime elevenLines viewerSample world0)
    as [[st'|] w'] eqn:E; [|vm_compute in E; discriminate E].
  exists st', w'.
  destruct (handleFileLoad_shows_file Reference.runtime elevenLines viewerSample st'
              world0 w' E) as [p [_ [Hp [Hf [_ [_ Hr]]]]]].
  exists p. split; [reflexivity|]. split; [exact Hp|]. split; [exact Hf|].
  rewrite <- (length_map raw), Hr. reflexivity.
Defined.

Lemma handle_invariant (rt : Runtime) (ev : Event) (st st' : ViewerState)
  (w w' : World) :
  handle rt ev st w = (st', w') ->
  (NoDup (selectedLevels st) /\
   forall e, selectedEntry st = Some e -> In e (loadedEntries st)) ->
  NoDup (selectedLevels st') /\
  forall e, selectedEntry st' = Some e -> In e (loadedEntries st').
Proof.
  intros H [Hn Hs]. destruct ev; cbn [handle] in H.
  - rewrite handleFileLoad_run in H.
    destruct (parseLogFile rt content w) as [[p|] w1];
      injection H as H1 H2; subst st' w'.
    + split; [constructor|]. intros e He. discriminate He.
    + now split.
  - injection H as H1 H2. subst st' w'. split.
    + now apply toggleLevel_NoDup.
    + exact Hs.
  - injection H as H1 H2. subst st' w'. now split.
  - injection H as H1 H2. subst st' w'. split; [constructor|exact Hs].
  - destruct (nth_error (filteredEntries rt st) i) as [e0|] eqn:E;
      injection H as H1 H2; subst st' w'; [|now split].
    split; [exact Hn|]. intros e He. injection He as He. subst e0.
    apply nth_error_In in E. unfold filteredEntries in E.
    unfold loadedEntries. cbn [setSelectedEntry parsedLog].
    destruct (parsedLog st) as [p|]; [|destruct E].
    unfold filterLogs in E. now apply filter_In in E.
  - injection H as H1 H2. subst st' w'. split; [exact Hn|].
    intros e He. discriminate He.
  - injection H as H1 H2. subst st' w'. now split.
Qed.

Lemma session_invariant (rt : Runtime) (evs : list Event) :
  forall st w,
    (NoDup (selectedLevels st) /\
     forall e, selectedEntry st = Some e -> In e (loadedEntries st)) ->
    NoDup (selectedLevels (fst (session rt evs st w))) /\
    forall e, selectedEntry (fst (session rt evs st w)) = Some e ->
              In e (loadedEntries (fst (session rt evs st w))).
Proof.
  induction evs as [|ev evs IH]; intros st w H; [exact H|].
  cbn [session]. destruct (handle rt ev st w) as [st1 w1] eqn:E.
  apply IH. exact (handle_invariant rt ev st st1 w w1 E H).
Qed.

Lemma levels_bounded (ls : list LogLevel) : NoDup ls -> length ls <= 5.
Proof.
  intro H.
  apply (NoDup_incl_length H (l' := [debug; info; warn; error; fatal])).
  intros x _. destruct x; simpl; tauto.
Qed.

(** X9 (LogViewer): what holds in every state a session can reach.
    Whatever the user does from the first render on (loading files that
    parse or throw, toggling levels, editing the search text, clearing
    the filters, clicking rows, closing the panel), no level is selected
    twice, so at most five level tags are shown, and the entry in the
    detail panel is an entry of the file that is loaded now, never one of
    a file loaded before. *)
Theorem session_keeps_selection_sound (rt : Runtime) (evs : list Event) (w : World) :
  let st := fst (session rt evs initialState w) in
  NoDup (selectedLevels st)
  /\ length (selectedLevels st) <= 5
  /\ forall e, selectedEntry st = Some e -> In e (loadedEntries st).
Proof.
  cbv zeta.
  destruct (session_invariant rt evs initialState w) as [H1 H2].
  { split; [constructor|]. intros e He. discriminate He. }
  split; [exact H1|]. split; [now apply levels_bounded|exact H2].
Qed.
(** * Further properties: the timeline *)

Lemma hits_mem (rt : Runtime) (ix : Z -> Z) (i : Z) (es : list LogEntry) (e : LogEntry) :
  In e (hits rt ix i es) <->
  In e es /\ exists t, getTime rt e = Ok (Some t) /\ i = ix t.
Proof.
  unfold hits. rewrite filter_In. split.
  - intros [H1 H2]. split; [exact H1|].
    destruct (getTime rt e) as [[t|]|]; try discriminate H2.
    exists t. split; [reflexivity|]. now apply Z.eqb_eq.
  - intros [H1 [t [H2 H3]]]. split; [exact H1|]. rewrite H2. now apply Z.eqb_eq.
Qed.

Lemma insertByIndex_keys (x : Z * TimelineBucket) (m : BucketMap) (i : Z) :
  In i (map fst (insertByIndex x m)) <-> i = fst x \/ In i (map fst m).
Proof.
  rewrite !in_map_iff. split.
  - intros [y [H1 H2]]. apply insertByIndex_In in H2. destruct H2 as [H2 | H2].
    + subst y. now left.
    + right. now exists y.
  - intros [H | [y [H1 H2]]].
    + exists x. split; [now symmetry|]. apply insertByIndex_In. now left.
    + exists y. split; [exact H1|]. apply insertByIndex_In. now right.
Qed.

Lemma sortByIndex_keys (m : BucketMap) (i : Z) :
  In i (map fst (sortByIndex m)) <-> In i (map fst m).
Proof.
  rewrite !in_map_iff. split; intros [y [H1 H2]]; exists y; split; try exact H1;
    now apply sortByIndex_In.
Qed.

Lemma insertByIndex_sorted (x : Z * TimelineBucket) (m : BucketMap) :
  StronglySorted Z.lt (map fst m) -> ~ In (fst x) (map fst m) ->
  StronglySorted Z.lt (map fst (insertByIndex x m)).
Proof.
  induction m as [|y m IH]; intros Hs Hn; simpl.
  - repeat constructor.
  - simpl in Hs. inversion Hs as [|? ? Hs' Hall]; subst.
    destruct (fst y <? fst x)%Z eqn:E; simpl.
    + constructor.
      * apply IH; [exact Hs'|]. intro H. apply Hn. now right.
      * apply Forall_forall. intros i Hi. apply insertByIndex_keys in Hi.
        destruct Hi as [Hi | Hi]; [subst i; now apply Z.ltb_lt|].
        rewrite Forall_forall in Hall. now apply Hall.
    + apply Z.ltb_ge in E.
      assert (Hlt : (fst x < fst y)%Z).
      { destruct (Z.eq_dec (fst x) (fst y)) as [Heq|Hne]; [|lia].
        exfalso. apply Hn. now left. }
      constructor; [exact Hs|]. constructor; [exact Hlt|].
      rewrite Forall_forall in Hall. apply Forall_forall. intros i Hi.
      specialize (Hall i Hi). lia.
Qed.

Lemma sortByIndex_sorted (m : BucketMap) :
  NoDup (map fst m) -> StronglySorted Z.lt (map fst (sortByIndex m)).
Proof.
  induction m as [|x m IH]; intro H; simpl; [constructor|].
  simpl in H. inversion H as [|? ? Hn Hd]; subst.
  apply insertByIndex_sorted; [now apply IH|].
  intro Hin. apply Hn. exact (proj1 (sortByIndex_keys m (fst x)) Hin).
Qed.

Lemma sorted_lt_NoDup (l : list Z) : StronglySorted Z.lt l -> NoDup l.
Proof.
  induction 1 as [|a l Hs IH Hall]; constructor; [|exact IH].
  intro Hin. rewrite Forall_forall in Hall. specialize (Hall a Hin). lia.
Qed.

(** The layout of the buckets: what the map holds at the end of the
    computation, index by index. *)
Lemma bucketEntries_layout (rt : Runtime) (entries : list LogEntry) :
  Forall (convertible rt) entries ->
  length (filter (validTime rt) entries) <= maxArguments rt ->
  exists m,
    bucketEntries rt entries = Ok m
    /\ StronglySorted Z.lt (map fst m)
    /\ (filter (validTime rt) entries = [] -> m = [])
    /\ (filter (validTime rt) entries <> [] -> exists b, In (0%Z, b) m)
    /\ forall i b,
         In (i, b) m ->
         1 <= count b
         /\ exists e, In e entries /\ entryIndex rt entries e = Some i.
Proof.
  intros Hc Hlim. destruct (bucketEntries_inv rt entries Hc) as [times [Ht [Hlen Hg]]].
  destruct (grid rt (validTimes times) (length entries)) as [[[lo size]|]|] eqn:Eg.
  - destruct Hg as [m [Hf [Hn [_ Hb]]]]. exists (sortByIndex m).
    split; [exact Hb|]. split; [now apply sortByIndex_sorted|].
    destruct (grid_Some rt _ _ lo size Eg) as [_ [hi [Es _]]].
    destruct (spanOf_spec _ _ _ Es) as [_ [Hlo _]].
    pose proof (fill_counters rt (bucketIndex lo size) (bucketTime lo size)
                  entries [] m Hf) as Hcount.
    split; [|split].
    + intros Hnone. rewrite Hnone in Hlen. simpl in Hlen.
      apply length_zero_iff_nil in Hlen. rewrite Hlen in Hlo. destruct Hlo.
    + intros _.
      apply (validTimes_mem rt entries times Ht) in Hlo. destruct Hlo as [e [He1 He2]].
      destruct (Hcount 0%Z) as [_ [_ Hnone]].
      destruct (mapGet 0%Z m) as [b|] eqn:Eb.
      * exists b. apply sortByIndex_In. now apply mapGet_In.
      * exfalso. destruct (proj1 Hnone eq_refl) as [_ Hh].
        assert (Hin : In e (hits rt (bucketIndex lo size) 0%Z entries)).
        { apply hits_mem. split; [exact He1|]. exists lo. split; [exact He2|].
          symmetry. apply bucketIndex_min. }
        rewrite Hh in Hin. destruct Hin.
    + intros i b Hin. apply (proj1 (sortByIndex_In (i, b) m)) in Hin.
      pose proof (proj1 (mapGet_In i b m Hn) Hin) as Hget.
      destruct (Hcount i) as [Hc1 [_ Hnone]].
      unfold countAt in Hc1. rewrite Hget in Hc1. simpl in Hc1.
      destruct (hits rt (bucketIndex lo size) i entries) as [|e hs] eqn:Eh.
      * exfalso. assert (Hx : mapGet i m = None) by (apply Hnone; now split).
        rewrite Hx in Hget. discriminate Hget.
      * assert (He : In e (hits rt (bucketIndex lo size) i entries))
          by (rewrite Eh; now left).
        apply hits_mem in He. destruct He as [He1 [t [He2 He3]]].
        split; [rewrite Hc1; simpl; lia|].
        exists e. split; [exact He1|].
        rewrite (entryIndex_grid rt entries times lo size e Ht Eg), He2. now subst i.
  - exists []. split; [exact Hg|]. split; [constructor|].
    apply grid_None in Eg. rewrite Eg in Hlen. simpl in Hlen.
    symmetry in Hlen. apply length_zero_iff_nil in Hlen.
    split; [reflexivity|]. split; [congruence|]. intros i b [].
  - exfalso. apply grid_Throw in Eg. lia.
Qed.

Lemma buckets_of_entries (rt : Runtime) (entries : list LogEntry) (m : BucketMap) :
  bucketEntries rt entries = Ok m -> buckets rt entries = Ok (map snd m).
Proof. intro H. unfold buckets. now rewrite H. Qed.

Lemma In_snd {A B : Type} (b : B) (m : list (A * B)) :
  In b (map snd m) -> exists i, In (i, b) m.
Proof.
  intro H. apply in_map_iff in H. destruct H as [[i b'] [H1 H2]].
  simpl in H1. subst b'. now exists i.
Qed.

Lemma sumCounts_lower (bs : list TimelineBucket) :
  Forall (fun b => 1 <= count b) bs -> length bs <= sumCounts bs.
Proof.
  induction 1 as [|b bs Hb _ IH]; simpl; lia.
Qed.

(** What holds of the buckets of entries within the limit of the
    engine holds of any buckets that are returned. *)
Lemma returned_layout (rt : Runtime) (entries : list LogEntry) (m : BucketMap) :
  bucketEntries rt entries = Ok m ->
  StronglySorted Z.lt (map fst m)
  /\ (filter (validTime rt) entries = [] -> m = [])
  /\ (filter (validTime rt) entries <> [] -> exists b, In (0%Z, b) m)
  /\ forall i b,
       In (i, b) m ->
       1 <= count b
       /\ exists e, In e entries /\ entryIndex rt entries e = Some i.
Proof.
  intros B. destruct entries as [|e0 es] eqn:Ees.
  - simpl in B. injection B as <-. split; [constructor|]. split; [reflexivity|].
    split; [intros H; now elim H | intros i b []].
  - rewrite <- Ees in *.
    assert (Hne : entries <> []) by (subst; discriminate).
    destruct (bucketEntries_returns rt entries m B Hne) as [Hc Hlim].
    destruct (bucketEntries_layout rt entries Hc Hlim) as [m' [B' P]].
    rewrite B in B'. injection B' as <-. exact P.
Qed.

Lemma returned_counts (rt : Runtime) (entries : list LogEntry) (m : BucketMap) :
  bucketEntries rt entries = Ok m -> Forall (fun b => 1 <= count b) (map snd m).
Proof.
  intros B. destruct (returned_layout rt entries m B) as [_ [_ [_ P]]].
  apply Forall_forall. intros b Hin. apply In_snd in Hin. destruct Hin as [i Hin].
  exact (proj1 (P i b Hin)).
Qed.

Lemma returned_sum (rt : Runtime) (entries : list LogEntry) (m : BucketMap) :
  bucketEntries rt entries = Ok m ->
  sumCounts (map snd m) = length (filter (validTime rt) entries).
Proof.
  intros B. destruct entries as [|e0 es] eqn:Ees.
  - simpl in B. injection B as <-. reflexivity.
  - rewrite <- Ees in *.
    assert (Hne : entries <> []) by (subst; discriminate).
    destruct (bucketEntries_returns rt entries m B Hne) as [Hc Hlim].
    destruct (buckets_sum rt entries Hc Hlim) as [bs [Hbs [Hsum _]]].
    rewrite (buckets_of_entries rt entries m B) in Hbs. injection Hbs as <-.
    exact Hsum.
Qed.

(** X10 (Timeline, buckets): no bar is empty and the bars come in time
    order.  While the entries with a valid time are no more than one call
    of the engine takes arguments the buckets are produced.  Buckets that
    are produced come in strictly ascending index order, every bucket
    counts at least one entry and is the bucket of one of the entries,
    there are no more buckets than entries with a valid time, and when
    there is such an entry there is a bucket of index 0, that of the
    earliest time. *)
Theorem buckets_bars (rt : Runtime) (entries : list LogEntry) :
  Forall (convertible rt) entries ->
  (length (filter (validTime rt) entries) <= maxArguments rt ->
   exists m, bucketEntries rt entries = Ok m)
  /\ forall m,
       bucketEntries rt entries = Ok m ->
       buckets rt entries = Ok (map snd m)
       /\ StronglySorted Z.lt (map fst m)
       /\ Forall (fun b => 1 <= count b) (map snd m)
       /\ (forall i b,
             In (i, b) m -> exists e, In e entries /\ entryIndex rt entries e = Some i)
       /\ length (map snd m) <= length (filter (validTime rt) entries)
       /\ (filter (validTime rt) entries <> [] -> exists b, In (0%Z, b) m).
Proof.
  intro Hc. split.
  - intros Hlim. destruct (bucketEntries_layout rt entries Hc Hlim) as [m [B _]].
    now exists m.
  - intros m B. destruct (returned_layout rt entries m B) as [Hs [_ [H0 P]]].
    split; [now apply buckets_of_entries|]. split; [exact Hs|].
    split; [exact (returned_counts rt entries m B)|].
    split; [intros i b Hin; exact (proj2 (P i b Hin))|].
    split; [|exact H0].
    rewrite <- (returned_sum rt entries m B).
    apply sumCounts_lower. exact (returned_counts rt entries m B).
Qed.

Lemma buckets_bars_witness :
  Forall (convertible Reference.runtime) sampleEntries
  /\ exists m,
       bucketEntries Reference.runtime sampleEntries = Ok m
       /\ StronglySorted Z.lt (map fst m)
       /\ length (map snd m) <= length (filter (validTime Reference.runtime) sampleEntries).
Proof.
  split; [exact sampleEntries_convertible|].
  destruct (buckets_bars Reference.runtime sampleEntries sampleEntries_convertible)
    as [R P].
  destruct (R sampleEntries_within) as [m B].
  destruct (P m B) as [_ [H2 [_ [_ [H3 _]]]]].
  exists m. split; [exact B|]. split; [exact H2 | exact H3].
Defined.

Lemma maxOf_ge (bs : list TimelineBucket) :
  1 <= maxOf (map count bs) 1 /\ Forall (fun b => count b <= maxOf (map count bs) 1) bs.
Proof.
  unfold maxOf. induction bs as [|b bs [IH1 IH2]]; simpl.
  - split; [lia|constructor].
  - split; [lia|]. constructor; [lia|].
    apply Forall_impl with (2 := IH2). intros a Ha. simpl in Ha. lia.
Qed.

Lemma maxOf_attained (bs : list TimelineBucket) :
  bs <> [] -> Forall (fun b => 1 <= count b) bs ->
  exists b, In b bs /\ count b = maxOf (map count bs) 1.
Proof.
  unfold maxOf. induction bs as [|b bs IH]; intros Hne Hall; [congruence|].
  inversion Hall as [|? ? Hb Hall']; subst.
  destruct bs as [|b' bs'].
  - exists b. split; [now left|]. simpl. lia.
  - destruct (IH ltac:(discriminate) Hall') as [x [Hx1 Hx2]].
    cbn [map fold_right] in *.
    destruct (Nat.max_spec (count b) (Nat.max (count b') (fold_right Nat.max 1 (map count bs'))))
      as [[_ E] | [_ E]]; rewrite E.
    + exists x. split; [now right|exact Hx2].
    + exists b. split; [now left|reflexivity].
Qed.

Lemma maxCount_Ok (rt : Runtime) (bs : list TimelineBucket) (k : nat) :
  maxCount rt bs = Ok k -> k = maxOf (map count bs) 1.
Proof.
  unfold maxCount. destruct (S (length bs) <=? maxArguments rt); [|discriminate].
  intros H. now injection H.
Qed.

Lemma buckets_inv (rt : Runtime) (entries : list LogEntry) (bs : list TimelineBucket) :
  buckets rt entries = Ok bs ->
  exists m, bucketEntries rt entries = Ok m /\ bs = map snd m.
Proof.
  unfold buckets. destruct (bucketEntries rt entries) as [m|]; [|discriminate].
  simpl. intros H. injection H as <-. now exists m.
Qed.

(** X13 (Timeline, maxCount): the scale of the chart is the count of its
    tallest bar.  While the entries with a valid time are fewer than one
    call of the engine takes arguments, the buckets and [maxCount] are
    produced.  Where they are produced every count lies between 1 and
    [maxCount], so that no bar is higher than the chart, and when there
    is a bucket at all some bucket has exactly [maxCount] entries;
    without buckets [maxCount] is 1. *)
Theorem maxCount_is_tallest_bar (rt : Runtime) (entries : list LogEntry) :
  Forall (convertible rt) entries ->
  (length (filter (validTime rt) entries) < maxArguments rt ->
   exists bs k, buckets rt entries = Ok bs /\ maxCount rt bs = Ok k)
  /\ forall bs k,
       buckets rt entries = Ok bs ->
       maxCount rt bs = Ok k ->
       Forall (fun b => 1 <= count b <= k) bs
       /\ (bs <> [] -> exists b, In b bs /\ count b = k)
       /\ (bs = [] -> k = 1).
Proof.
  intro Hc. split.
  - intros Hlim.
    destruct (bucketEntries_layout rt entries Hc (Nat.lt_le_incl _ _ Hlim)) as [m [B _]].
    exists (map snd m). unfold maxCount.
    assert (Hlen : length (map snd m) <= length (filter (validTime rt) entries)).
    { rewrite <- (returned_sum rt entries m B).
      apply sumCounts_lower. exact (returned_counts rt entries m B). }
    assert (E : (S (length (map snd m)) <=? maxArguments rt) = true)
      by (apply Nat.leb_le; lia).
    rewrite E. eexists. split; [now apply buckets_of_entries | reflexivity].
  - intros bs k Hbs Hk. apply maxCount_Ok in Hk. subst k.
    destruct (buckets_inv rt entries bs Hbs) as [m [B ->]].
    pose proof (returned_counts rt entries m B) as Hcounts.
    destruct (maxOf_ge (map snd m)) as [_ Hle].
    split; [|split].
    + rewrite Forall_forall in *. intros b Hin.
      split; [now apply Hcounts | now apply Hle].
    + intro Hne. now apply maxOf_attained.
    + intro E. rewrite E. reflexivity.
Qed.

Lemma sampleEntries_below :
  length (filter (validTime Reference.runtime) sampleEntries)
  < maxArguments Reference.runtime.
Proof. apply Nat.ltb_lt. vm_compute. reflexivity. Qed.

Lemma maxCount_is_tallest_bar_witness :
  Forall (convertible Reference.runtime) sampleEntries
  /\ exists bs k,
       buckets Reference.runtime sampleEntries = Ok bs
       /\ maxCount Reference.runtime bs = Ok k
       /\ Forall (fun b => 1 <= count b <= k) bs.
Proof.
  split; [exact sampleEntries_convertible|].
  destruct (maxCount_is_tallest_bar Reference.runtime sampleEntries
              sampleEntries_convertible) as [R P].
  destruct (R sampleEntries_below) as [bs [k [B K]]].
  exists bs, k. split; [exact B|]. split; [exact K | exact (proj1 (P bs k B K))].
Defined.

Lemma filter_length_le_filter {A : Type} (f g : A -> bool) (l : list A) :
  length (filter f (filter g l)) <= length (filter f l).
Proof.
  induction l as [|x l IH]; simpl; [lia|].
  destruct (g x); simpl; destruct (f x); simpl; lia.
Qed.

(** X14 (filterLogs, Timeline): the timeline of the filtered entries
    counts the filtered entries.  For entries whose timestamps can be
    handed to [new Date] and of which no more have a valid time than one
    call of the engine takes arguments, the buckets of all entries and
    the buckets of a filter result are both produced; the counts of the
    latter add up to the number of entries in the result that have a
    valid time, and that is never more than the total of the buckets of
    all entries. *)
Theorem filtered_timeline_counts (rt : Runtime) (entries : list LogEntry)
  (search : jsstring) (levels : list LogLevel) :
  Forall (convertible rt) entries ->
  length (filter (validTime rt) entries) <= maxArguments rt ->
  exists bs bs',
    buckets rt entries = Ok bs
    /\ buckets rt (filterLogs rt entries search levels) = Ok bs'
    /\ sumCounts bs'
       = length (filter (validTime rt) (filterLogs rt entries search levels))
    /\ sumCounts bs' <= sumCounts bs.
Proof.
  intros Hc Hlim.
  assert (Hc' : Forall (convertible rt) (filterLogs rt entries search levels)).
  { rewrite Forall_forall in *. intros e He. apply Hc.
    unfold filterLogs in He. now apply filter_In in He. }
  assert (Hlim' : length (filter (validTime rt) (filterLogs rt entries search levels))
                  <= maxArguments rt).
  { unfold filterLogs.
    pose proof (filter_length_le_filter (validTime rt) (keeps rt search levels) entries).
    lia. }
  destruct (buckets_sum rt entries Hc Hlim) as [bs [H1 [H2 _]]].
  destruct (buckets_sum rt _ Hc' Hlim') as [bs' [H1' [H2' _]]].
  exists bs, bs'. split; [exact H1|]. split; [exact H1'|]. split; [exact H2'|].
  rewrite H2, H2'. unfold filterLogs. apply filter_length_le_filter.
Qed.

Lemma filtered_timeline_counts_witness :
  Forall (convertible Reference.runtime) sampleEntries
  /\ length (filter (validTime Reference.runtime) sampleEntries)
     <= maxArguments Reference.runtime
  /\ exists bs bs',
       buckets Reference.runtime sampleEntries = Ok bs
       /\ buckets Reference.runtime
            (filterLogs Reference.runtime sampleEntries (str "disk") [warn; error])
          = Ok bs'
       /\ sumCounts bs' <= sumCounts bs.
Proof.
  split; [exact sampleEntries_convertible|]. split; [exact sampleEntries_within|].
  destruct (filtered_timeline_counts Reference.runtime sampleEntries (str "disk")
              [warn; error] sampleEntries_convertible sampleEntries_within)
    as [bs [bs' [H1 [H2 [_ H3]]]]].
  exists bs, bs'. split; [exact H1|]. split; [exact H2 | exact H3].
Defined.

(** X29 (Timeline, bucket arithmetic): the index of a bucket is the floor
    of a quotient of binary64 Numbers.  For four entries 0, 33, 34 and 44
    milliseconds after the epoch the width of a bucket is 44 / 20, which
    is not 2.2 exactly; 33 divided by it is just below 15, and the
    entries fall into the buckets 0, 14, 15 and 20, dated 0, 30, 33 and
    44 milliseconds after the epoch. *)
Theorem bucket_index_rounds_as_doubles :
  mapR (getTime Reference.runtime) unevenEntries
  = Ok [Some 0; Some 33; Some 34; Some 44]%Z
  /\ numBuckets (length unevenEntries) = ofZ 20
  /\ bucketIndex 0 (bucketSize (dsub (ofZ 44) (ofZ 0)) (length unevenEntries)) 33 = 14%Z
  /\ exists m,
       bucketEntries Reference.runtime unevenEntries = Ok m
       /\ map (fun p => (fst p, count (snd p), timestamp (snd p))) m
          = [(0%Z, 1, Some 0%Z); (14%Z, 1, Some 30%Z); (15%Z, 1, Some 33%Z);
             (20%Z, 1, Some 44%Z)].
Proof.
  split; [vm_compute; reflexivity|]. split; [vm_compute; reflexivity|].
  split; [vm_compute; reflexivity|].
  destruct (bucketEntries Reference.runtime unevenEntries) as [m|] eqn:E;
    vm_compute in E; [|discriminate E].
  injection E as <-. eexists. split; reflexivity.
Qed.

(** * Further properties: the line dispatcher *)

Lemma splitLines_nonempty (s : jsstring) : splitLines s <> [].
Proof.
  destruct s as [|c s]; simpl; [discriminate|].
  destruct (Ascii.eqb c LF); [discriminate|].
  destruct (splitLines s); discriminate.
Qed.

Lemma LF_space (c : ascii) : Ascii.eqb c LF = true -> isSpace c = true.
Proof. intro H. apply Ascii.eqb_eq in H. subst c. reflexivity. Qed.

Lemma splitLines_blank (s : jsstring) :
  forallb (forallb isSpace) (splitLines s) = forallb isSpace s.
Proof.
  induction s as [|c s IH]; [reflexivity|]. simpl.
  destruct (Ascii.eqb c LF) eqn:E.
  - simpl. rewrite IH. now rewrite (LF_space c E).
  - pose proof (splitLines_nonempty s) as Hne.
    destruct (splitLines s) as [|l ls]; [congruence|].
    simpl in *. rewrite <- IH. now rewrite andb_assoc.
Qed.

Lemma dropWhile_nil (p : ascii -> bool) (s : jsstring) :
  dropWhile p s = [] <-> forallb p s = true.
Proof.
  induction s as [|c s IH]; simpl; [tauto|].
  destruct (p c); simpl; [exact IH|]. split; discriminate.
Qed.

Lemma dropWhile_snoc (p : ascii -> bool) (s : jsstring) (c : ascii) :
  p c = false -> dropWhile p (s ++ [c]) <> [].
Proof.
  intro H. induction s as [|a s IH]; simpl.
  - rewrite H. discriminate.
  - destruct (p a); [exact IH|discriminate].
Qed.

Lemma trim_nil (s : jsstring) : trim s = [] <-> forallb isSpace s = true.
Proof.
  unfold trim, trimEnd, trimStart. rewrite <- dropWhile_nil.
  destruct (dropWhile isSpace s) as [|c r] eqn:E; [tauto|].
  split; [|discriminate]. intro H. exfalso.
  assert (Hc : isSpace c = false).
  { clear H. induction s as [|a s IH]; simpl in E; [discriminate|].
    destruct (isSpace a) eqn:Ea; [now apply IH|]. injection E as <- _. exact Ea. }
  assert (Hr : rev (c :: r) = [] \/ exists a l, rev (c :: r) = l ++ [a] /\ isSpace a = false).
  { right. exists c, (rev r). now split. }
  destruct Hr as [Hr | [a [l [Hr Ha]]]].
  - simpl in Hr. destruct (rev r); discriminate.
  - rewrite Hr in H. apply (f_equal (@rev ascii)) in H. rewrite rev_involutive in H.
    simpl in H. now apply (dropWhile_snoc isSpace l a Ha).
Qed.

Lemma retainedLines_nil (content : jsstring) :
  retainedLines content = [] <-> forallb isSpace content = true.
Proof.
  unfold retainedLines. rewrite <- splitLines_blank.
  induction (splitLines content) as [|l ls IH]; simpl; [tauto|].
  destruct (nonEmpty (trim l)) eqn:E.
  - split; [discriminate|]. intro H. apply andb_true_iff in H. destruct H as [H _].
    apply trim_nil in H. rewrite H in E. discriminate E.
  - apply nonEmpty_false in E. apply trim_nil in E. rewrite E. simpl. exact IH.
Qed.

(** X15 (parseLogFile): a file gives no entries exactly when it is all
    white space.  On a content made of white space only (the empty
    content included) the parse returns the empty result and leaves the
    id counter and the clock alone; on any other content a parse that
    returns has an entry. *)
Theorem parseLogFile_blank (rt : Runtime) (content : jsstring) (w : World) :
  (forallb isSpace content = true ->
   parseLogFile rt content w
   = (Ok {| entries := []; levels := []; dateRange := None |}, w))
  /\ (forall p w',
        parseLogFile rt content w = (Ok p, w') ->
        entries p = [] -> forallb isSpace content = true).
Proof.
  split.
  - intro H. apply retainedLines_nil in H. rewrite parseLogFile_run, H. reflexivity.
  - intros p w' H He. apply retainedLines_nil.
    destruct (parseLogFile_one_entry_per_line rt content w w' p H) as [_ Hl].
    rewrite He in Hl. simpl in Hl.
    destruct (retainedLines content); [reflexivity|discriminate Hl].
Qed.

Lemma parseLogFile_blank_witness :
  forallb isSpace blankContent = true
  /\ parseLogFile Reference.runtime blankContent world0
     = (Ok {| entries := []; levels := []; dateRange := None |}, world0).
Proof.
  split; [reflexivity|].
  exact (proj1 (parseLogFile_blank Reference.runtime blankContent world0) eq_refl).
Defined.

Lemma setAdd_In (l x : LogLevel) (s : list LogLevel) :
  In x (setAdd l s) <-> x = l \/ In x s.
Proof.
  unfold setAdd. destruct (existsb (LogLevel_eqb l) s) eqn:E.
  - apply level_member in E. split; [now right|]. intros [H | H]; [now subst x|exact H].
  - rewrite in_app_iff. simpl. split.
    + intros [H | [H | []]]; [now right|now left].
    + intros [H | H]; [right; now left|now left].
Qed.

Lemma setAdd_NoDup (l : LogLevel) (s : list LogLevel) : NoDup s -> NoDup (setAdd l s).
Proof.
  intro H. unfold setAdd. destruct (existsb (LogLevel_eqb l) s) eqn:E; [exact H|].
  assert (Hn : ~ In l s).
  { intro Hin. apply level_member in Hin. rewrite Hin in E. discriminate E. }
  apply NoDup_app; [exact H|repeat constructor; intros []|].
  intros a Ha [Hb | []]. subst a. contradiction.
Qed.

Lemma counters_cons (c : N) (n : nat) :
  map (fun k => (c + N.of_nat k)%N) (seq 0 (S n))
  = c :: map (fun k => (N.succ c + N.of_nat k)%N) (seq 0 n).
Proof.
  cbn [seq map]. f_equal; [lia|].
  rewrite <- seq_shift, map_map. apply map_ext. intro k. lia.
Qed.

Lemma advance_ticks (use : ClockUse) (w : World) :
  S (ticks w) <= ticks (advance use w) <= S (S (ticks w)).
Proof. destruct use; simpl; lia. Qed.

(** What a run of the loop of [parseLogFile] that returns has done to
    the entries, the set of levels, the counter and the clock. *)
Lemma parseLines_trace (rt : Runtime) (lines : list jsstring) :
  forall acc w acc' w',
    parseLines rt lines acc w = (Ok acc', w') ->
    exists new,
      acc_entries acc' = acc_entries acc ++ new
      /\ length new = length lines
      /\ idCounter w' = (idCounter w + N.of_nat (length lines))%N
      /\ map (fun e => counterOf (id e)) new
         = map (fun k => (idCounter w + N.of_nat k)%N) (seq 0 (length lines))
      /\ ticks w + length lines <= ticks w' <= ticks w + 2 * length lines
      /\ (forall l, In l (levelsSet acc') <-> In l (levelsSet acc) \/ In l (map level new))
      /\ (NoDup (levelsSet acc) -> NoDup (levelsSet acc')).
Proof.
  induction lines as [|line lines IH]; intros acc w acc' w' H.
  - simpl in H. injection H as <- <-. exists []. rewrite app_nil_r.
    repeat split; simpl; try lia; try tauto.
  - destruct (parseLines_cons rt line lines) as [core [use [_ [_ E]]]].
    rewrite E in H. clear E. rewrite collect_run in H.
    destruct (newDate rt (dt (stamp rt core use w))) as [a|]; [|discriminate].
    apply IH in H. destruct H as [new [Ha [Hlen [Hc [Hids [Ht [Hl Hn]]]]]]].
    cbn [acc_entries levelsSet] in *.
    exists (stamp rt core use w :: new).
    split; [rewrite Ha, <- app_assoc; reflexivity|].
    split; [simpl; now rewrite Hlen|].
    split; [rewrite Hc, advance_counter; simpl length; lia|].
    split.
    + cbn [length]. rewrite counters_cons. cbn [map]. rewrite counterOf_stamp.
      f_equal. rewrite Hids, advance_counter. reflexivity.
    + split.
      * pose proof (advance_ticks use w). simpl length. lia.
      * split.
        -- intro l. rewrite Hl, setAdd_In. simpl. intuition congruence.
        -- intro Hd. apply Hn. now apply setAdd_NoDup.
Qed.

(** X16 (parseLogFile, generateId): on a content without a line that
    starts, after white space, with an opening brace, the parse returns
    and has used one counter value per entry and read the clock once or
    twice per entry.  The counter ends exactly the number of entries
    higher than it started, the ids carry the consecutive counter values
    from the starting value on in the order of the entries, and the
    number of clock readings lies between the number of entries and
    twice that number. *)
Theorem parseLogFile_uses_counter (rt : Runtime) (content : jsstring) (w : World) :
  Forall (fun line => startsWith (trim line) (str "{") = false) (retainedLines content) ->
  exists p w',
    parseLogFile rt content w = (Ok p, w')
    /\ idCounter w' = (idCounter w + N.of_nat (length (entries p)))%N
    /\ map (fun e => counterOf (id e)) (entries p)
       = map (fun k => (idCounter w + N.of_nat k)%N) (seq 0 (length (entries p)))
    /\ ticks w + length (entries p) <= ticks w'
    /\ ticks w' <= ticks w + 2 * length (entries p).
Proof.
  intros Htext.
  destruct (parseLogFile_returns_on_text rt content w Htext) as [p [w' P]].
  exists p, w'. split; [exact P|].
  revert P. rewrite parseLogFile_run.
  destruct (parseLines rt (retainedLines content) _ w) as [[acc|] w1] eqn:E;
    [|discriminate].
  intro H. injection H as <- <-. cbn [entries].
  apply parseLines_trace in E.
  destruct E as [new [Ha [Hlen [Hc [Hids [Ht _]]]]]]. simpl in Ha. subst new.
  rewrite Hlen. split; [exact Hc|]. split; [exact Hids|]. lia.
Qed.

Lemma elevenLines_text :
  Forall (fun line => startsWith (trim line) (str "{") = false) (retainedLines elevenLines).
Proof. vm_compute. repeat constructor. Qed.

Lemma parseLogFile_uses_counter_witness :
  Forall (fun line => startsWith (trim line) (str "{") = false) (retainedLines elevenLines)
  /\ exists p w',
       parseLogFile Reference.runtime elevenLines world0 = (Ok p, w')
       /\ idCounter w' = 11%N
       /\ ticks w' <= 22.
Proof.
  split; [exact elevenLines_text|].
  destruct (parseLogFile_uses_counter Reference.runtime elevenLines world0 elevenLines_text)
    as [p [w' [E [H1 [_ [_ H2]]]]]].
  exists p, w'.
  assert (Hl : length (entries p) = 11).
  { destruct (parseLogFile_one_entry_per_line _ _ _ _ _ E) as [_ Hl].
    rewrite Hl. reflexivity. }
  rewrite Hl in H1, H2. split; [exact E|]. split; [exact H1|exact H2].
Defined.

Lemma insertSorted_present (x : LogLevel) (s : list LogLevel) :
  ~ In x s ->
  insertSorted (levelName x) (map levelName (presentLevels s))
  = map levelName (presentLevels (x :: s)).
Proof.
  intro Hn. unfold presentLevels, levelsByName. cbn [filter existsb].
  assert (Hx : existsb (LogLevel_eqb x) s = false).
  { destruct (existsb (LogLevel_eqb x) s) eqn:E; [|reflexivity].
    apply level_member in E. contradiction. }
  clear Hn.
  destruct x; revert Hx;
    generalize (existsb (LogLevel_eqb debug) s), (existsb (LogLevel_eqb error) s),
      (existsb (LogLevel_eqb fatal) s), (existsb (LogLevel_eqb info) s),
      (existsb (LogLevel_eqb warn) s);
    intros b1 b2 b3 b4 b5 Hx; destruct b1, b2, b3, b4, b5;
    try discriminate Hx; vm_compute; reflexivity.
Qed.

Lemma presentLevels_cons_in (x : LogLevel) (s : list LogLevel) :
  In x s -> presentLevels (x :: s) = presentLevels s.
Proof.
  intro H. unfold presentLevels. apply filter_ext. intro l. simpl.
  destruct (LogLevel_eqb l x) eqn:E; [|reflexivity].
  apply LogLevel_eqb_eq in E. subst l. simpl. symmetry. now apply level_member.
Qed.

Lemma sortedLevels_present (s : list LogLevel) :
  NoDup s -> sortedLevels s = map levelName (presentLevels s).
Proof.
  unfold sortedLevels. induction 1 as [|x s Hn _ IH]; [reflexivity|].
  cbn [map fold_right]. rewrite IH. now apply insertSorted_present.
Qed.

Lemma presentLevels_same (s1 s2 : list LogLevel) :
  (forall l, In l s1 <-> In l s2) -> presentLevels s1 = presentLevels s2.
Proof.
  intro H. unfold presentLevels. apply filter_ext. intro l.
  apply eq_true_iff_eq. rewrite !level_member. apply H.
Qed.

(** X17 (parseLogFile): [levels] lists the levels of the entries, each
    once, in the order of their names.  The field is the list of the
    names debug, error, fatal, info, warn in this order, without the
    levels that no entry has. *)
Theorem parseLogFile_levels (rt : Runtime) (content : jsstring) (w w' : World)
  (p : ParsedLog) :
  parseLogFile rt content w = (Ok p, w') ->
  levels p = map levelName (presentLevels (map level (entries p)))
  /\ forall l, In (levelName l) (levels p) <-> exists e, In e (entries p) /\ level e = l.
Proof.
  rewrite parseLogFile_run.
  destruct (parseLines rt (retainedLines content) _ w) as [[acc|] w1] eqn:E;
    [|discriminate].
  intro H. injection H as <- <-. cbn [entries levels].
  apply parseLines_trace in E.
  destruct E as [new [Ha [_ [_ [_ [_ [Hl Hn]]]]]]]. simpl in Ha, Hl, Hn. subst new.
  assert (E : sortedLevels (levelsSet acc)
              = map levelName (presentLevels (map level (acc_entries acc)))).
  { rewrite sortedLevels_present; [|apply Hn; constructor].
    f_equal. apply presentLevels_same. intro l. rewrite Hl. tauto. }
  split; [exact E|]. intro l. rewrite E. rewrite in_map_iff. split.
  - intros [l' [H1 H2]].
    assert (l' = l) by (destruct l', l; vm_compute in H1; congruence). subst l'.
    unfold presentLevels in H2. apply filter_In in H2. destruct H2 as [_ H2].
    apply level_member in H2. apply in_map_iff in H2.
    destruct H2 as [e [H2 H3]]. now exists e.
  - intros [e [H1 H2]]. exists l. split; [reflexivity|].
    unfold presentLevels. apply filter_In. split.
    + unfold levelsByName. destruct l; simpl; tauto.
    + apply level_member. apply in_map_iff. now exists e.
Qed.

Lemma parseLogFile_levels_witness :
  exists p w',
    parseLogFile Reference.runtime (str "hello") world0 = (Ok p, w')
    /\ levels p = map levelName (presentLevels (map level (entries p))).
Proof.
  destruct (parseLogFile Reference.runtime (str "hello") world0) as [[p|] w'] eqn:E;
    [|vm_compute in E; discriminate E].
  exists p, w'. split; [reflexivity|].
  exact (proj1 (parseLogFile_levels Reference.runtime (str "hello") world0 w' p E)).
Defined.

(** X18 (parseLogFile): the date range is the span of the valid
    timestamps.  When the parse returns a range, its start is not after
    its end, both are the time of an entry, and the time of every entry
    with a valid timestamp lies between them; when it returns none, no
    entry has a valid timestamp. *)
Theorem parseLogFile_dateRange_span (rt : Runtime) (content : jsstring) (w w' : World)
  (p : ParsedLog) :
  parseLogFile rt content w = (Ok p, w') ->
  match dateRange p with
  | Some (lo, hi) =>
      (lo <= hi)%Z
      /\ (exists e, In e (entries p) /\ getTime rt e = Ok (Some lo))
      /\ (exists e, In e (entries p) /\ getTime rt e = Ok (Some hi))
      /\ forall e t, In e (entries p) -> getTime rt e = Ok (Some t) -> (lo <= t <= hi)%Z
  | None => forall e, In e (entries p) -> validTime rt e = false
  end.
Proof.
  intro H. destruct (parseLogFile_dateRange rt content w w' p H) as [times [Ht Hd]].
  rewrite Hd. destruct (spanOf (validTimes times)) as [[lo hi]|] eqn:Es.
  - destruct (spanOf_spec _ _ _ Es) as [Hspan [Hlo Hhi]].
    split; [exact (proj2 (Hspan lo Hlo))|].
    split; [now apply (validTimes_mem rt (entries p) times Ht)|].
    split; [now apply (validTimes_mem rt (entries p) times Ht)|].
    intros e t He1 He2. apply Hspan.
    apply (validTimes_mem rt (entries p) times Ht). now exists e.
  - apply spanOf_None in Es. intros e He.
    destruct (validTime rt e) eqn:Ev; [|reflexivity]. exfalso.
    apply validTime_getTime in Ev. destruct Ev as [t Et].
    assert (Hin : In t (validTimes times)).
    { apply (validTimes_mem rt (entries p) times Ht). now exists e. }
    rewrite Es in Hin. destruct Hin.
Qed.

Lemma parseLogFile_dateRange_span_witness :
  exists p w',
    parseLogFile Reference.runtime (str "hello") world0 = (Ok p, w')
    /\ match dateRange p with
       | Some (lo, hi) => (lo <= hi)%Z
       | None => True
       end.
Proof.
  destruct (parseLogFile Reference.runtime (str "hello") world0) as [[p|] w'] eqn:E;
    [|vm_compute in E; discriminate E].
  exists p, w'. split; [reflexivity|].
  pose proof (parseLogFile_dateRange_span Reference.runtime (str "hello") world0 w' p E)
    as H.
  destruct (dateRange p) as [[lo hi]|]; [exact (proj1 H)|exact I].
Defined.

(** * Further properties: the line parsers *)

Lemma parseJsonLog_declines (rt : Runtime) (line : jsstring) (w : World) :
  JSON_parse rt line = None -> parseJsonLog rt line w = (Ok None, w).
Proof.
  intro H. unfold parseJsonLog. mstep. rewrite H. reflexivity.
Qed.

Lemma structuredRegex_needs_bracket (line : jsstring) :
  startsWith line (str "[") = false -> exec structuredRegex line = None.
Proof.
  intro H. unfold exec. rewrite search_unfold.
  unfold structuredRegex. cbn [Cats]. rewrite rmatch_cat.
  cbn [rmatch]. rewrite Nat.eqb_refl.
  destruct line as [|a s].
  - reflexivity.
  - change (startsWith (a :: s) (str "[")) with (Ascii.eqb (chr "[") a && true) in H.
    rewrite andb_true_r in H. unfold lit. cbn [rmatch]. rewrite H.
    apply search_anchored_tail. simpl. lia.
Qed.

Lemma trim_head (line : jsstring) (c : ascii) :
  startsWith (trim line) [c] = true -> isSpace c = false ->
  startsWith line [c] = true \/ exists a s, line = a :: s /\ isSpace a = true.
Proof.
  intros H Hc. destruct line as [|a s]; [discriminate H|].
  destruct (isSpace a) eqn:Ea; [right; now exists a, s|].
  left. unfold trim, trimStart in H. cbn [dropWhile] in H. rewrite Ea in H.
  unfold trimEnd in H.
  assert (E : exists r, rev (dropWhile isSpace (rev (a :: s))) = a :: r).
  { simpl rev. generalize (rev s). intro l.
    induction l as [|b l IH]; simpl.
    - rewrite Ea. now exists [].
    - destruct (isSpace b); [exact IH|].
      change (b :: l ++ [a]) with ((b :: l) ++ [a]). rewrite rev_app_distr. simpl.
      now eexists. }
  destruct E as [r E]. rewrite E in H. exact H.
Qed.

Lemma brace_line_no_bracket (line : jsstring) :
  startsWith (trim line) (str "{") = true -> startsWith line (str "[") = false.
Proof.
  intro H. change (str "{") with [chr "{"] in H.
  destruct (trim_head line (chr "{") H eq_refl) as [H1 | [a [s [E Ha]]]].
  - destruct line as [|a s]; [discriminate H1|].
    change (Ascii.eqb (chr "{") a && true = true) in H1. rewrite andb_true_r in H1.
    apply Ascii.eqb_eq in H1. subst a. reflexivity.
  - subst line. change (Ascii.eqb (chr "[") a && true = false).
    now rewrite (space_not_bracket a Ha).
Qed.

Lemma dispatch_plain (rt : Runtime) (line : jsstring) (w : World) :
  parseJsonLog rt line w = (Ok None, w) \/ startsWith (trim line) (str "{") = false ->
  exec structuredRegex line = None ->
  dispatch rt line w =
  match parsePlainTextLog rt line w with
  | (Ok e, w') => (Ok (Some e), w')
  | (Throw, w') => (Throw, w')
  end.
Proof.
  intros H1 H2. unfold dispatch, parseStructuredTextLog. rewrite H2.
  destruct (startsWith (trim line) (str "{")) eqn:E.
  - destruct H1 as [H1 | H1]; [|discriminate H1].
    unfold bind at 1 2. rewrite H1. unfold ret at 1. cbv beta iota.
    unfold bind, ret. destruct (parsePlainTextLog rt line w) as [[e|] w']; reflexivity.
  - unfold bind, ret. destruct (parsePlainTextLog rt line w) as [[e|] w']; reflexivity.
Qed.

(** X19 (parseLogFile, parseJsonLog, parseStructuredTextLog): a line
    that is neither decodable structured data nor bracketed is a
    plain-text line.  A line whose first character is not an opening
    bracket is never taken by the bracketed-format parser; so a line
    that looks like structured data but does not decode, and a line that
    starts with neither a brace nor a bracket, both get the entry of the
    plain-text parser, with the counter and the clock used by that
    parser alone. *)
Theorem undecodable_line_is_plain_text (rt : Runtime) (line : jsstring) (w : World) :
  (startsWith line (str "[") = false ->
   parseStructuredTextLog rt line w = (Ok None, w))
  /\ (startsWith (trim line) (str "{") = true -> JSON_parse rt line = None ->
      dispatch rt line w =
      match parsePlainTextLog rt line w with
      | (Ok e, w') => (Ok (Some e), w')
      | (Throw, w') => (Throw, w')
      end)
  /\ (startsWith (trim line) (str "{") = false -> startsWith line (str "[") = false ->
      dispatch rt line w =
      match parsePlainTextLog rt line w with
      | (Ok e, w') => (Ok (Some e), w')
      | (Throw, w') => (Throw, w')
      end).
Proof.
  split; [|split].
  - intro H. unfold parseStructuredTextLog.
    now rewrite (structuredRegex_needs_bracket line H).
  - intros H1 H2. apply dispatch_plain.
    + left. now apply parseJsonLog_declines.
    + apply structuredRegex_needs_bracket. now apply brace_line_no_bracket.
  - intros H1 H2. apply dispatch_plain; [now right|].
    now apply structuredRegex_needs_bracket.
Qed.

Lemma undecodable_line_is_plain_text_witness :
  startsWith (trim (str "{oops")) (str "{") = true
  /\ JSON_parse Reference.runtime (str "{oops") = None
  /\ dispatch Reference.runtime (str "{oops") world0 =
     match parsePlainTextLog Reference.runtime (str "{oops") world0 with
     | (Ok e, w') => (Ok (Some e), w')
     | (Throw, w') => (Throw, w')
     end.
Proof.
  split; [reflexivity|]. split; [reflexivity|].
  exact (proj1 (proj2 (undecodable_line_is_plain_text Reference.runtime (str "{oops")
                         world0)) eq_refl eq_refl).
Defined.

(** A greedy run of one class: when the continuation takes the rest
    after the longest run, that is the result. *)
Lemma rmatch_star_greedy (n : nat) (p : ascii -> bool) (k : kont)
  (x : jsstring * captures) :
  forall s c, k (dropWhile p s) c = Some x -> rmatch n (Star (Class p)) s c k = Some x.
Proof.
  intros s c H0. cbn [rmatch].
  match goal with
  | |- ?loop (length s) s c = _ =>
      assert (L : forall fuel s0, length s0 <= fuel ->
                                  k (dropWhile p s0) c = Some x ->
                                  loop fuel s0 c = Some x)
  end.
  { induction fuel as [|fuel IH]; intros s0 L0 H.
    - destruct s0; [exact H | simpl in L0; lia].
    - destruct s0 as [|a s']; [simpl; exact H|].
      simpl. simpl in H. destruct (p a) eqn:Pa; [|exact H].
      replace (length s' <? S (length s')) with true
        by (symmetry; apply Nat.ltb_lt; lia).
      rewrite IH; [reflexivity|simpl in L0; lia|exact H]. }
  apply L; [lia|exact H0].
Qed.

(** A run of one class takes characters of the class only. *)
Lemma rmatch_star_class_inv (n : nat) (p : ascii -> bool) (k : kont)
  (x : jsstring * captures) :
  forall s c,
    rmatch n (Star (Class p)) s c k = Some x ->
    exists pre s', s = pre ++ s' /\ forallb p pre = true /\ k s' c = Some x.
Proof.
  intros s c H0. cbn [rmatch] in H0.
  match type of H0 with
  | ?loop (length s) s c = _ =>
      assert (L : forall fuel s0,
                 loop fuel s0 c = Some x ->
                 exists pre s', s0 = pre ++ s' /\ forallb p pre = true
                                /\ k s' c = Some x)
  end.
  { induction fuel as [|fuel IH]; intros s0 H.
    - now exists [], s0.
    - destruct s0 as [|a s']; [now exists [], []|].
      simpl in H. destruct (p a) eqn:Pa; [|now exists [], (a :: s')].
      replace (length s' <? S (length s')) with true in H
        by (symmetry; apply Nat.ltb_lt; lia).
      match type of H with
      | match ?t with _ => _ end = _ => destruct t as [y|] eqn:E
      end.
      + injection H as ->. destruct (IH s' E) as [pre [s2 [E1 [E2 E3]]]].
        exists (a :: pre), s2. subst s'. simpl. now rewrite Pa, E2.
      + now exists [], (a :: s'). }
  exact (L _ _ H0).
Qed.

Lemma rmatch_cat_suffix (n : nat) (r1 r2 : regex) (s : jsstring) (c : captures)
  (k : kont) (x : jsstring * captures) :
  rmatch n (Cat r1 r2) s c k = Some x ->
  exists pre s' c', s = pre ++ s' /\ rmatch n r2 s' c' k = Some x.
Proof. rewrite rmatch_cat. apply rmatch_suffix. Qed.

(** What the pattern of the bracketed format takes as its third group
    reaches to the end of the line and has no CR or LF in it. *)
Lemma structuredRegex_tail (n : nat) (line : jsstring) (x : jsstring * captures) :
  rmatch n structuredRegex line [] accept = Some x ->
  exists pre a rest, line = pre ++ a :: rest /\ forallb isDot (a :: rest) = true.
Proof.
  unfold structuredRegex. cbn [Cats]. intro H.
  apply rmatch_cat_suffix in H. destruct H as [p1 [s1 [c1 [E1 H]]]].
  apply rmatch_cat_suffix in H. destruct H as [p2 [s2 [c2 [E2 H]]]].
  apply rmatch_cat_suffix in H. destruct H as [p3 [s3 [c3 [E3 H]]]].
  apply rmatch_cat_suffix in H. destruct H as [p4 [s4 [c4 [E4 H]]]].
  apply rmatch_cat_suffix in H. destruct H as [p5 [s5 [c5 [E5 H]]]].
  apply rmatch_cat_suffix in H. destruct H as [p6 [s6 [c6 [E6 H]]]].
  apply rmatch_cat_suffix in H. destruct H as [p7 [s7 [c7 [E7 H]]]].
  apply rmatch_cat_suffix in H. destruct H as [p8 [s8 [c8 [E8 H]]]].
  apply rmatch_cat_suffix in H. destruct H as [p9 [s9 [c9 [E9 H]]]].
  rewrite rmatch_cat, rmatch_group in H. unfold Plus in H.
  rewrite rmatch_cat in H. unfold dot at 1 in H. rewrite rmatch_class in H.
  destruct s9 as [|a s10]; [discriminate H|].
  destruct (negb ((code a =? 10)%N || (code a =? 13)%N)) eqn:Ea; [|discriminate H].
  unfold dot in H. apply rmatch_star_class_inv in H.
  destruct H as [pre [s' [E10 [Hdots H]]]].
  rewrite rmatch_cat in H. cbn [rmatch] in H.
  destruct s' as [|b s']; [|discriminate H].
  rewrite app_nil_r in E10. subst s10.
  exists (p1 ++ p2 ++ p3 ++ p4 ++ p5 ++ p6 ++ p7 ++ p8 ++ p9), a, pre.
  split.
  - subst line s1 s2 s3 s4 s5 s6 s7 s8. now rewrite <- !app_assoc.
  - cbn [forallb]. unfold isDot at 1. rewrite Ea. exact Hdots.
Qed.

Lemma exec_anchored (r : regex) (line : jsstring) :
  exec (Cat Bol r) line =
  match rmatch (length line) (Cat Bol r) line [] accept with
  | Some (s1, c1) =>
      Some {| index := 0; matched := firstn (length line - length s1) line;
              groups := c1 |}
  | None => None
  end.
Proof.
  unfold exec. rewrite search_unfold.
  destruct (rmatch (length line) (Cat Bol r) line [] accept) as [[s1 c1]|];
    [reflexivity|].
  destruct line as [|a s]; [reflexivity|].
  apply search_anchored_tail. simpl. lia.
Qed.

Lemma structuredRegex_line_end (line : jsstring) (m : MatchResult) :
  exec structuredRegex line = Some m ->
  exists pre a rest, line = pre ++ a :: rest /\ forallb isDot (a :: rest) = true.
Proof.
  intro H. unfold structuredRegex in H. cbn [Cats] in H. rewrite exec_anchored in H.
  match type of H with
  | match ?t with _ => _ end = _ => destruct t as [x|] eqn:E; [|discriminate H]
  end.
  exact (structuredRegex_tail (length line) line x E).
Qed.

(** X20 (parseStructuredTextLog): a line that ends in a carriage return
    is never read as bracketed format.  The pattern asks for characters
    other than CR and LF up to the end of the line, so on the lines of a
    file with CR LF line ends the parser returns null, whatever the line
    holds before the CR, and leaves the counter and the clock alone; such
    a line that is not structured data is parsed as plain text. *)
Theorem carriage_return_defeats_brackets (rt : Runtime) (body : jsstring) (w : World) :
  parseStructuredTextLog rt (body ++ [CR]) w = (Ok None, w)
  /\ (startsWith (trim (body ++ [CR])) (str "{") = false ->
      dispatch rt (body ++ [CR]) w =
      match parsePlainTextLog rt (body ++ [CR]) w with
      | (Ok e, w') => (Ok (Some e), w')
      | (Throw, w') => (Throw, w')
      end).
Proof.
  assert (E : exec structuredRegex (body ++ [CR]) = None).
  { destruct (exec structuredRegex (body ++ [CR])) as [m|] eqn:E; [|reflexivity].
    exfalso. apply structuredRegex_line_end in E.
    destruct E as [pre [a [rest [E1 E2]]]].
    assert (Hin : In CR (a :: rest)).
    { destruct (exists_last (l := a :: rest) ltac:(discriminate)) as [l' [z Ez]].
      rewrite Ez in E1. rewrite app_assoc in E1.
      apply app_inj_tail in E1. destruct E1 as [_ E1]. subst z.
      rewrite Ez. apply in_or_app. right. now left. }
    rewrite forallb_forall in E2. specialize (E2 CR Hin). discriminate E2. }
  split.
  - unfold parseStructuredTextLog. now rewrite E.
  - intro H. apply dispatch_plain; [now right|exact E].
Qed.

Lemma dropWhile_app_stop (p : ascii -> bool) (a tail : jsstring) :
  forallb p a = true ->
  match tail with
  | [] => True
  | t0 :: _ => p t0 = false
  end ->
  dropWhile p (a ++ tail) = tail.
Proof.
  intros Ha Ht. induction a as [|x a IH]; simpl.
  - destruct tail as [|t0 tail]; [reflexivity|]. simpl. now rewrite Ht.
  - simpl in Ha. apply andb_true_iff in Ha. destruct Ha as [Hx Ha].
    rewrite Hx. now apply IH.
Qed.

Lemma firstn_prefix (a tail : jsstring) :
  firstn (length (a ++ tail) - length tail) (a ++ tail) = a.
Proof.
  rewrite length_app, Nat.add_sub, firstn_app, Nat.sub_diag, firstn_all. simpl.
  apply app_nil_r.
Qed.

(** An opening bracket, a field without closing bracket, a closing
    bracket. *)
Lemma rmatch_bracket_field (n i : nat) (R : regex) (a tail : jsstring) (c : captures)
  (k : kont) :
  a <> [] -> forallb notClosing a = true ->
  rmatch n (Cat (lit "[") (Cat (Group i (Plus notBracket)) (Cat (lit "]") R)))
    (chr "[" :: a ++ chr "]" :: tail) c k
  = rmatch n R tail ((i, a) :: c) k.
Proof.
  intros Hne Hall. rewrite rmatch_cat, rmatch_lit. cbn [takeChar].
  rewrite Ascii.eqb_refl. rewrite rmatch_cat, rmatch_group.
  change notBracket with (Class notClosing). unfold Plus.
  rewrite rmatch_cat, rmatch_class.
  destruct a as [|a0 a']; [congruence|]. cbn [app].
  simpl in Hall. apply andb_true_iff in Hall. destruct Hall as [Ha0 Ha'].
  rewrite Ha0. rewrite rmatch_star_class.
  - rewrite dropWhile_app_stop; [|exact Ha'|reflexivity].
    rewrite rmatch_cat, rmatch_lit. cbn [takeChar]. rewrite Ascii.eqb_refl.
    change (a0 :: a' ++ chr "]" :: tail) with ((a0 :: a') ++ chr "]" :: tail).
    now rewrite firstn_prefix.
  - intros x s0 c0 Hx _. rewrite rmatch_cat, rmatch_lit. cbn [takeChar].
    unfold notClosing in Hx. rewrite Ascii.eqb_sym.
    destruct (Ascii.eqb x (chr "]")); [discriminate Hx|reflexivity].
Qed.

(** White space before an opening bracket. *)
Lemma rmatch_spaces_bracket (n : nat) (R : regex) (ws tail : jsstring) (c : captures)
  (k : kont) :
  forallb isSpace ws = true ->
  rmatch n (Cat (Star sp) (Cat (lit "[") R)) (ws ++ chr "[" :: tail) c k
  = rmatch n (Cat (lit "[") R) (chr "[" :: tail) c k.
Proof.
  intro Hws. rewrite rmatch_cat. unfold sp. rewrite rmatch_star_class.
  - now rewrite dropWhile_app_stop.
  - intros x s0 c0 Hx _. rewrite rmatch_cat, rmatch_lit. cbn [takeChar].
    now rewrite (space_not_bracket x Hx).
Qed.

(** White space, then the rest of the line. *)
Lemma rmatch_rest (n : nat) (ws rest : jsstring) (c : captures) :
  forallb isSpace ws = true -> rest <> [] -> trimStart rest = rest ->
  forallb isDot rest = true ->
  rmatch n (Cat (Star sp) (Cat (Group 3 (Plus dot)) (Cat Eol Empty))) (ws ++ rest) c accept
  = Some ([], (3, rest) :: c).
Proof.
  intros Hws Hne Htrim Hdots. rewrite rmatch_cat. unfold sp.
  apply rmatch_star_greedy.
  destruct rest as [|r0 r']; [congruence|].
  assert (Hr0 : isSpace r0 = false).
  { unfold trimStart in Htrim. simpl in Htrim.
    destruct (isSpace r0); [|reflexivity].
    exfalso. pose proof (dropWhile_length isSpace r') as L.
    rewrite Htrim in L. simpl in L. lia. }
  rewrite dropWhile_app_stop; [|exact Hws|exact Hr0].
  rewrite rmatch_cat, rmatch_group. unfold Plus. rewrite rmatch_cat.
  unfold dot. rewrite rmatch_class.
  simpl in Hdots. apply andb_true_iff in Hdots. destruct Hdots as [Hd0 Hd'].
  unfold isDot in Hd0. rewrite Hd0.
  rewrite rmatch_star_class.
  - apply (proj2 (dropWhile_nil _ r')) in Hd'. unfold isDot in Hd'. rewrite Hd'.
    rewrite rmatch_cat. cbn [rmatch]. unfold accept.
    change (length (@nil ascii)) with 0. rewrite Nat.sub_0_r. now rewrite firstn_all.
  - intros x s0 c0 _ _. rewrite rmatch_cat. reflexivity.
Qed.

Lemma rmatch_bol (n : nat) (s : jsstring) (c : captures) (k : kont) :
  rmatch n Bol s c k = if length s =? n then k s c else None.
Proof. reflexivity. Qed.

Lemma exec_structuredLine (a ws1 b ws2 rest : jsstring) :
  a <> [] -> b <> [] ->
  forallb notClosing a = true -> forallb notClosing b = true ->
  forallb isSpace ws1 = true -> forallb isSpace ws2 = true ->
  rest <> [] -> trimStart rest = rest -> forallb isDot rest = true ->
  exec structuredRegex (structuredLine a ws1 b ws2 rest)
  = Some {| index := 0;
            matched := structuredLine a ws1 b ws2 rest;
            groups := [(3, rest); (2, b); (1, a)] |}.
Proof.
  intros Ha Hb Ha' Hb' Hw1 Hw2 Hr Hr' Hd.
  unfold structuredRegex. cbn [Cats]. rewrite exec_anchored.
  rewrite rmatch_cat, rmatch_bol, Nat.eqb_refl.
  unfold structuredLine.
  change (str "[" ++ a ++ str "]" ++ ws1 ++ str "[" ++ b ++ str "]" ++ ws2 ++ rest)
    with (chr "[" :: a ++ chr "]" :: ws1 ++ chr "[" :: b ++ chr "]" :: ws2 ++ rest).
  rewrite (rmatch_bracket_field _ 1 _ a _ _ _ Ha Ha').
  rewrite (rmatch_spaces_bracket _ _ ws1 _ _ _ Hw1).
  rewrite (rmatch_bracket_field _ 2 _ b _ _ _ Hb Hb').
  rewrite (rmatch_rest _ ws2 rest _ Hw2 Hr Hr' Hd).
  change (length (@nil ascii)) with 0. rewrite Nat.sub_0_r, firstn_all. reflexivity.
Qed.

(** X21 (parseStructuredTextLog): what the parser makes of a line
    [[a] [b] rest].  For fields [a] and [b] that are not empty and hold
    no closing bracket, white space (possibly none) after each closing
    bracket, and a rest that is not empty, does not start with white
    space and holds no CR or LF, the parser returns an entry: its level
    is classified from [b] alone, whatever the rest says; its timestamp
    is [a], with the first blank replaced by T and a Z appended when [a]
    has no T; its data and message are those of the rest; it uses one
    counter value and one clock reading. *)
Theorem parseStructuredTextLog_fields (rt : Runtime) (a ws1 b ws2 rest : jsstring)
  (w : World) :
  a <> [] -> b <> [] ->
  forallb notClosing a = true -> forallb notClosing b = true ->
  forallb isSpace ws1 = true -> forallb isSpace ws2 = true ->
  rest <> [] -> trimStart rest = rest -> forallb isDot rest = true ->
  exists e,
    parseStructuredTextLog rt (structuredLine a ws1 b ws2 rest) w
    = (Ok (Some e), {| idCounter := N.succ (idCounter w); ticks := S (ticks w) |})
    /\ level e = detectLogLevel b
    /\ dt e = VStr (if includes a (str "T") then a
                    else replaceFirst a (str " ") (str "T") ++ str "Z")
    /\ (data e, message e) = structuredPayload rt rest
    /\ raw e = Some (structuredLine a ws1 b ws2 rest)
    /\ id e = idText (clock rt (ticks w)) (idCounter w).
Proof.
  intros Ha Hb Ha' Hb' Hw1 Hw2 Hr Hr' Hd.
  unfold parseStructuredTextLog.
  rewrite (exec_structuredLine a ws1 b ws2 rest Ha Hb Ha' Hb' Hw1 Hw2 Hr Hr' Hd).
  cbn [groups group Nat.eqb].
  destruct (structuredPayload rt rest) as [payload text] eqn:E.
  mstep. rewrite generateId_run.
  eexists. split; [reflexivity|]. cbn [level dt data message raw id].
  repeat split; reflexivity.
Qed.

Lemma parseStructuredTextLog_fields_witness :
  exists e w',
    parseStructuredTextLog Reference.runtime
      (structuredLine (str "2026-01-09 20:52:09") (str " ") (str "INFO") (str " ")
         (str "fatal error in worker")) world0 = (Ok (Some e), w')
    /\ level e = info
    /\ dt e = VStr (str "2026-01-09T20:52:09Z").
Proof.
  destruct (parseStructuredTextLog_fields Reference.runtime
              (str "2026-01-09 20:52:09") (str " ") (str "INFO") (str " ")
              (str "fatal error in worker") world0)
    as [e [H1 [H2 [H3 _]]]];
    try reflexivity; try discriminate.
  exists e. eexists. split; [exact H1|]. split; [exact H2|exact H3].
Defined.

(** * Further properties: the table and the detail panel *)

(** X22 (truncateMessage): the text of a row is cut to [maxLength]
    characters and three dots.  A message of at most [maxLength]
    characters is shown as it is; a longer one is replaced by its first
    [maxLength] characters followed by three dots, so the result never
    has more than [maxLength + 3] characters, always starts like the
    message, and is longer than the message itself when the message
    exceeds the limit by one or two characters. *)
Theorem truncateMessage_cut (message : jsstring) (maxLength : nat) :
  length (truncateMessage message maxLength) <= maxLength + 3
  /\ firstn maxLength (truncateMessage message maxLength) = firstn maxLength message
  /\ (length message <= maxLength -> truncateMessage message maxLength = message)
  /\ (maxLength < length message ->
      truncateMessage message maxLength = firstn maxLength message ++ str "..."
      /\ length (truncateMessage message maxLength) = maxLength + 3)
  /\ (maxLength < length message < maxLength + 3 ->
      length message < length (truncateMessage message maxLength)).
Proof.
  unfold truncateMessage.
  destruct (length message <=? maxLength) eqn:E.
  - apply Nat.leb_le in E. split; [lia|]. split; [reflexivity|].
    split; [reflexivity|]. split; intro; exfalso; lia.
  - apply Nat.leb_gt in E.
    assert (L : length (firstn maxLength message ++ str "...") = maxLength + 3).
    { rewrite length_app, length_firstn. change (length (str "...")) with 3. lia. }
    split; [lia|]. split.
    + rewrite firstn_app, length_firstn, firstn_firstn.
      replace (maxLength - Nat.min maxLength (length message)) with 0 by lia.
      rewrite Nat.min_id. simpl. apply app_nil_r.
    + split; [intro; lia|]. split; [intros _; now split|]. intros [_ H]. lia.
Qed.

Lemma splitFrom_nonempty (sep : jsstring) (s : jsstring) :
  forall skip, splitFrom sep skip s <> [].
Proof.
  induction s as [|c s IH]; intro skip.
  - destruct skip; simpl; discriminate.
  - destruct skip as [|skip]; simpl.
    + destruct (startsWith (c :: s) sep); [discriminate|].
      destruct (splitFrom sep 0 s); discriminate.
    + apply IH.
Qed.

Lemma startsWith_nil_false (sep : jsstring) : sep <> [] -> startsWith [] sep = false.
Proof. destruct sep; [congruence|reflexivity]. Qed.

Lemma splitOn_absent (sep s : jsstring) :
  sep <> [] -> includes s sep = false -> splitOn sep s = [s].
Proof.
  intros Hsep. unfold splitOn. induction s as [|c s IH]; intro H; [reflexivity|].
  simpl in H. apply orb_false_iff in H. destruct H as [H1 H2].
  cbn [splitFrom]. rewrite H1, (IH H2). reflexivity.
Qed.

Lemma splitOn_present (sep s : jsstring) :
  sep <> [] -> includes s sep = true -> 2 <= length (splitOn sep s).
Proof.
  intro Hsep. unfold splitOn. induction s as [|c s IH]; intro H.
  - simpl in H. rewrite orb_false_r in H.
    destruct sep; [congruence|discriminate H].
  - simpl in H. cbn [splitFrom]. destruct (startsWith (c :: s) sep) eqn:E.
    + pose proof (splitFrom_nonempty sep s (length sep - 1)) as Hne.
      destruct (splitFrom sep (length sep - 1) s); [congruence|simpl; lia].
    + simpl in H. specialize (IH H).
      destruct (splitFrom sep 0 s) as [|part parts]; simpl in *; lia.
Qed.

Lemma splitOn_parts (sep s : jsstring) :
  sep <> [] ->
  (length (splitOn sep s) <=? 1) = negb (includes s sep).
Proof.
  intro Hsep. destruct (includes s sep) eqn:E.
  - apply (splitOn_present sep s Hsep) in E. simpl. apply Nat.leb_gt. lia.
  - now rewrite (splitOn_absent sep s Hsep E).
Qed.

Lemma splitFrom_skip (sep x post : jsstring) :
  splitFrom sep (length x) (x ++ post) = splitFrom sep 0 post.
Proof.
  induction x as [|c x IH]; [reflexivity|]. simpl. exact IH.
Qed.

Lemma startsWith_app_long (p u v : jsstring) :
  length p <= length u -> startsWith (u ++ v) p = startsWith u p.
Proof.
  revert u. induction p as [|x p IH]; intros u H; [reflexivity|].
  destruct u as [|y u]; [simpl in H; lia|]. simpl.
  rewrite IH; [reflexivity|simpl in H; lia].
Qed.

Lemma removelast_length {A : Type} (l : list A) :
  l <> [] -> S (length (removelast l)) = length l.
Proof.
  intro H. destruct (exists_last H) as [l' [a E]]. subst l.
  rewrite removelast_last, length_app. simpl. lia.
Qed.

(** The first part of a split ends at the first occurrence of the
    separator. *)
Lemma splitOn_first (sep pre post : jsstring) :
  sep <> [] -> includes (pre ++ removelast sep) sep = false ->
  splitOn sep (pre ++ sep ++ post) = pre :: splitOn sep post.
Proof.
  intros Hsep. unfold splitOn. induction pre as [|c pre IH]; intro H.
  - destruct sep as [|x sep']; [congruence|]. cbn [app splitFrom].
    assert (E : startsWith (x :: sep' ++ post) (x :: sep') = true).
    { apply startsWith_spec. now exists post. }
    rewrite E. f_equal.
    replace (length (x :: sep') - 1) with (length sep') by (simpl; lia).
    apply splitFrom_skip.
  - cbn [app] in H. simpl in H. apply orb_false_iff in H. destruct H as [H1 H2].
    cbn [app splitFrom].
    assert (E : startsWith (c :: pre ++ sep ++ post) sep = false).
    { destruct (exists_last Hsep) as [sep' [z Ez]].
      rewrite Ez in H1. rewrite removelast_last in H1.
      rewrite <- H1. rewrite Ez at 1. rewrite <- app_assoc.
      change (c :: pre ++ sep' ++ [z] ++ post)
        with ((c :: pre) ++ sep' ++ [z] ++ post).
      rewrite app_assoc. rewrite <- Ez.
      apply startsWith_app_long.
      rewrite Ez. simpl. rewrite !length_app. simpl. lia. }
    rewrite E. rewrite (IH H2). reflexivity.
Qed.

(** X23 (getMessageText): what the message cell shows.  A message
    without the text ['}} '] is shown truncated to 150 characters.  When
    the message has that text and what precedes its first occurrence,
    closed by two braces, decodes to a record, the cell shows the
    [message] property of that record as it is: not truncated, and
    [undefined] when the record has no such property. *)
Theorem getMessageText_rows (rt : Runtime) (entry : LogEntry) :
  (includes (message entry) (str "}} ") = false ->
   getMessageText rt entry = VStr (truncateMessage (message entry) 150))
  /\ (forall pre post fields,
        message entry = pre ++ str "}} " ++ post ->
        includes (pre ++ str "}}") (str "}} ") = false ->
        JSON_parse rt (pre ++ str "}}") = Some (VObj fields) ->
        getMessageText rt entry =
        match lookup (str "message") fields with
        | Some v => v
        | None => VUndefined
        end).
Proof.
  unfold getMessageText. split.
  - intro H. rewrite splitOn_parts by discriminate. now rewrite H.
  - intros pre post fields E1 E2 E3.
    rewrite splitOn_parts by discriminate.
    assert (Hinc : includes (message entry) (str "}} ") = true).
    { apply includes_spec. now exists pre, post. }
    rewrite Hinc. cbn [negb]. rewrite E1.
    rewrite (splitOn_first (str "}} ") pre post); [|discriminate|exact E2].
    cbn [hd]. rewrite E3. cbn [get].
    now destruct (lookup (str "message") fields).
Qed.

Lemma getMessageText_rows_witness :
  includes (message (sampleEntry "log-1-0" "2026-01-09T20:52:09Z" info "started"))
    (str "}} ") = false
  /\ getMessageText Reference.runtime
       (sampleEntry "log-1-0" "2026-01-09T20:52:09Z" info "started")
     = VStr (str "started").
Proof.
  split; [reflexivity|].
  exact (proj1 (getMessageText_rows Reference.runtime
                  (sampleEntry "log-1-0" "2026-01-09T20:52:09Z" info "started"))
           eq_refl).
Defined.

Lemma truthy_object (v : JSValue) :
  truthy v && isObjectType v = isObjectValue v.
Proof. destruct v as [| |b|x|s|items|fields]; try reflexivity.
  - now destruct b.
  - destruct x as [q|b]; simpl; [now destruct (Qis_zero q)|reflexivity].
  - simpl. now destruct (nonEmpty s).
Qed.

(** X24 (LogDetail, parsedData): the detail panel always has a record
    to show.  Whatever the entry and the engine, [parsedData] is an
    object or an array, never a string, a number, a boolean, null or
    undefined; it is the [data] of the entry, with nothing written to
    the console, whenever that is an object or an array; and the console
    gets at most one line. *)
Theorem parsedData_is_record (rt : Runtime) (entry : LogEntry) :
  isObjectValue (fst (parsedData rt entry)) = true
  /\ length (snd (parsedData rt entry)) <= 1
  /\ (isObjectValue (data entry) = true -> parsedData rt entry = (data entry, [])).
Proof.
  unfold parsedData. rewrite truthy_object.
  destruct (isObjectValue (data entry)) eqn:Ed.
  - split; [exact Ed|]. split; [simpl; lia|reflexivity].
  - assert (Hraw : forall out : list (jsstring * jsstring),
               length out <= 1 ->
               isObjectValue
                 (fst match
                        match raw entry with
                        | Some r =>
                            if nonEmpty r
                            then match JSON_parse rt r with
                                 | Some parsed =>
                                     if isObjectValue parsed then Some parsed else None
                                 | None => None
                                 end
                            else None
                        | None => None
                        end
                      with
                      | Some parsed => (parsed, out)
                      | None => (VObj [(str "content", VStr (message entry))], out)
                      end) = true
               /\ length
                    (snd match
                           match raw entry with
                           | Some r =>
                               if nonEmpty r
                               then match JSON_parse rt r with
                                    | Some parsed =>
                                        if isObjectValue parsed then Some parsed else None
                                    | None => None
                                    end
                               else None
                           | None => None
                           end
                         with
                         | Some parsed => (parsed, out)
                         | None => (VObj [(str "content", VStr (message entry))], out)
                         end) <= 1).
    { intros out Hout.
      destruct (raw entry) as [r|]; [|now split].
      destruct (nonEmpty r); [|now split].
      destruct (JSON_parse rt r) as [parsed|]; [|now split].
      destruct (isObjectValue parsed) eqn:Ep; now split. }
    split; [|split; [|discriminate]].
    + destruct (1 <? length (splitOn (str "}} ") (message entry))).
      * destruct (JSON_parse rt _) as [parsed|].
        -- destruct (isObjectValue parsed) eqn:Ep; [exact Ep|].
           apply Hraw. simpl. lia.
        -- apply Hraw. simpl. lia.
      * apply Hraw. simpl. lia.
    + destruct (1 <? length (splitOn (str "}} ") (message entry))).
      * destruct (JSON_parse rt _) as [parsed|].
        -- destruct (isObjectValue parsed) eqn:Ep; [simpl; lia|].
           apply Hraw. simpl. lia.
        -- apply Hraw. simpl. lia.
      * apply Hraw. simpl. lia.
Qed.

Lemma parsedData_is_record_witness :
  isObjectValue (VObj [(str "a", VNull)]) = true
  /\ parsedData Reference.runtime
       {| id := []; dt := VUndefined; level := info; pid := VUndefined;
          hostname := VUndefined; message := []; message_field := VUndefined;
          data := VObj [(str "a", VNull)]; raw := None |}
     = (VObj [(str "a", VNull)], []).
Proof.
  split; [reflexivity|].
  exact (proj2 (proj2 (parsedData_is_record Reference.runtime
                         {| id := []; dt := VUndefined; level := info; pid := VUndefined;
                            hostname := VUndefined; message := [];
                            message_field := VUndefined;
                            data := VObj [(str "a", VNull)]; raw := None |})) eq_refl).
Defined.

(** * Further properties: structured data and timestamps *)

(** What [parseJsonLog] has read when it returns an entry. *)
Lemma parseJsonLog_entry (rt : Runtime) (line : jsstring) (w w' : World) (e : LogEntry) :
  parseJsonLog rt line w = (Ok (Some e), w') ->
  JSON_parse rt line = Some (data e)
  /\ raw e = Some line
  /\ data e <> VUndefined /\ data e <> VNull
  /\ idCounter w' = N.succ (idCounter w)
  /\ (exists lv levelText,
        firstTruthy (data e) levelKeys = Ok lv
        /\ toStr rt match lv with Some x => x | None => VStr (str "info") end
           = Ok levelText
        /\ level e = detectLogLevel levelText)
  /\ (exists found,
        firstTruthy (data e) timestampKeys = Ok found
        /\ dt e = match found with
                  | Some x => x
                  | None => VStr (toISOString rt (clock rt (ticks w)))
                  end)
  /\ (exists msg,
        firstTruthy (data e) messageKeys = Ok msg
        /\ message e = textOf rt match msg with
                                 | Some y => y
                                 | None => VStr (JSON_stringify rt (data e))
                                 end).
Proof.
  unfold parseJsonLog, levelKeys, timestampKeys, messageKeys.
  destruct (JSON_parse rt line) as [parsed|]; [|discriminate].
  mstep.
  destruct (nullish_cases parsed) as [Hn | [H1 H2]].
  { rewrite (firstTruthy_nullish parsed _ _ Hn). discriminate. }
  destruct (firstTruthy_total parsed
              [str "level"; str "severity"; str "log_level"; str "loglevel"] H1 H2)
    as [lv Elv].
  destruct (firstTruthy_total parsed
              [str "dt"; str "timestamp"; str "time"; str "@timestamp"; str "date";
               str "datetime"] H1 H2) as [found Efound].
  destruct (firstTruthy_total parsed
              [str "message"; str "msg"; str "text"; str "log"; str "body"] H1 H2)
    as [msg Emsg].
  destruct (get_total parsed (str "pid") H1 H2) as [p Ep].
  destruct (get_total parsed (str "hostname") H1 H2) as [h Eh].
  destruct (get_total parsed (str "host") H1 H2) as [h' Eh'].
  destruct (get_total parsed (str "message_field") H1 H2) as [mf Emf].
  rewrite Elv. mstep.
  destruct (toStr rt match lv with Some x => x | None => VStr (str "info") end)
    as [levelText|] eqn:Et; [|discriminate].
  rewrite Efound, Emsg. mstep.
  set (hostValue := if truthy h then h else h').
  assert (Eh2 : (if truthy h then Ok h else get parsed (str "host")) = Ok hostValue).
  { unfold hostValue. destruct (truthy h); [reflexivity | exact Eh']. }
  destruct found as [x|]; mstep; rewrite ?generateId_run, ?nowISO_run; mstep;
    rewrite ?generateId_run; mstep; rewrite Ep, Eh; mstep; rewrite Eh2, Emf;
    intro H; injection H as <- <-; cbn [data raw level dt message idCounter];
    (split; [reflexivity|]); (split; [reflexivity|]); (split; [exact H1|]);
    (split; [exact H2|]); (split; [reflexivity|]);
    (split; [exists lv, levelText; now repeat split|]);
    (split; [eexists; split; [exact Efound|reflexivity]|]);
    exists msg; split; [exact Emsg|reflexivity | exact Emsg|reflexivity].
Qed.

(** X25 (parseJsonLog): the structured-data parser never throws, and an
    entry it returns is the decoded record.  When the text does not
    decode the parser returns null and leaves the counter and the clock
    alone.  When it returns an entry, the entry holds the line as [raw]
    and the decoded value, which is not null, as [data]; its level is
    classified from the text of the first truthy property among level,
    severity, log_level and loglevel, or from ['info'] without one; its
    message is the first truthy property among message, msg, text, log
    and body, or the whole record rendered as JSON text; and one counter
    value is used. *)
Theorem parseJsonLog_outcome (rt : Runtime) (line : jsstring) (w : World) :
  fst (parseJsonLog rt line w) <> Throw
  /\ (JSON_parse rt line = None -> parseJsonLog rt line w = (Ok None, w))
  /\ (forall e w',
        parseJsonLog rt line w = (Ok (Some e), w') ->
        JSON_parse rt line = Some (data e)
        /\ raw e = Some line
        /\ data e <> VNull
        /\ idCounter w' = N.succ (idCounter w)
        /\ (exists lv levelText,
              firstTruthy (data e) levelKeys = Ok lv
              /\ toStr rt match lv with Some x => x | None => VStr (str "info") end
                 = Ok levelText
              /\ level e = detectLogLevel levelText)
        /\ (exists msg,
              firstTruthy (data e) messageKeys = Ok msg
              /\ message e = textOf rt match msg with
                                       | Some y => y
                                       | None => VStr (JSON_stringify rt (data e))
                                       end)).
Proof.
  split; [|split].
  - destruct (parseJsonLog_shape rt line) as [H | [core [use [_ H]]]];
      rewrite H; discriminate.
  - intro H. unfold parseJsonLog. mstep. rewrite H. reflexivity.
  - intros e w' H.
    destruct (parseJsonLog_entry rt line w w' e H)
      as [H1 [H2 [_ [H4 [H5 [H6 [_ H8]]]]]]].
    now repeat split.
Qed.

Lemma uint_all_digits (u : Decimal.uint) :
  Forall (fun c => isDigit c = true) (list_ascii_of_string (NilEmpty.string_of_uint u)).
Proof.
  induction u; simpl; constructor; try reflexivity; assumption.
Qed.

Lemma Z_to_str_chars (z : Z) :
  Forall (fun c => isDigit c = true \/ c = chr "-") (Z_to_str z).
Proof.
  unfold Z_to_str, str.
  assert (U : forall u, Forall (fun c => isDigit c = true \/ c = chr "-")
                          (list_ascii_of_string (NilZero.string_of_uint u))).
  { intro u. unfold NilZero.string_of_uint.
    assert (D : Forall (fun c => isDigit c = true \/ c = chr "-")
                  (list_ascii_of_string (NilEmpty.string_of_uint u))).
    { apply Forall_impl with (2 := uint_all_digits u). intros a Ha. now left. }
    destruct u; try exact D. simpl. constructor; [now left|constructor]. }
  unfold NilZero.string_of_int. destruct (Z.to_int z) as [u|u].
  - apply U.
  - simpl. constructor; [now right|apply U].
Qed.

Lemma digits_have_no_word (s : jsstring) (c : ascii) (rest : jsstring) :
  Forall (fun a => isDigit a = true \/ a = chr "-") s ->
  isDigit c = false -> c <> chr "-" ->
  includes (toLowerCase s) (c :: rest) = false.
Proof.
  intros Hs Hc1 Hc2.
  destruct (includes (toLowerCase s) (c :: rest)) eqn:E; [|reflexivity].
  exfalso. apply includes_spec in E. destruct E as [pre [post E]].
  assert (Hin : In c (toLowerCase s)).
  { rewrite E. apply in_or_app. right. now left. }
  unfold toLowerCase in Hin. apply in_map_iff in Hin. destruct Hin as [a [Ha Hin]].
  rewrite Forall_forall in Hs. destruct (Hs a Hin) as [Hd | Hm].
  - assert (lowerChar a = a).
    { clear - Hd. destruct a as [[] [] [] [] [] [] [] []]; try discriminate Hd;
        reflexivity. }
    congruence.
  - subst a. apply Hc2. rewrite <- Ha. reflexivity.
Qed.

Lemma detectLogLevel_number (z : Z) : detectLogLevel (Z_to_str z) = info.
Proof.
  rewrite detectLogLevel_cases.
  pose proof (Z_to_str_chars z) as Hs.
  change (str "fatal") with (chr "f" :: str "atal").
  change (str "critical") with (chr "c" :: str "ritical").
  change (str "error") with (chr "e" :: str "rror").
  change (str "err]") with (chr "e" :: str "rr]").
  change (str "warn") with (chr "w" :: str "arn").
  change (str "debug") with (chr "d" :: str "ebug").
  change (str "dbg") with (chr "d" :: str "bg").
  rewrite !(digits_have_no_word _ _ _ Hs) by (reflexivity || discriminate).
  reflexivity.
Qed.

(** X26 (parseJsonLog, detectLogLevel): a level given as a number is
    classified as info.  When the first truthy level property of the
    decoded record is an integer Number (as in the records of loggers
    that write 30, 40, 50 for info, warn, error), the text the
    classifier sees is its decimal rendering, which names no level, so
    the entry gets the level info. *)
Theorem numeric_level_is_info (rt : Runtime) (line : jsstring) (w w' : World)
  (e : LogEntry) (x : number) (z : Z) :
  parseJsonLog rt line w = (Ok (Some e), w') ->
  firstTruthy (data e) levelKeys = Ok (Some (VNum x)) ->
  asInteger x = Some z ->
  level e = info.
Proof.
  intros H Hl Hz.
  destruct (parseJsonLog_entry rt line w w' e H)
    as [_ [_ [_ [_ [_ [[lv [levelText [E1 [E2 E3]]]] _]]]]]].
  rewrite Hl in E1. injection E1 as <-. cbn [toStr] in E2.
  unfold numberToString in E2. rewrite Hz in E2. injection E2 as <-.
  rewrite E3. apply detectLogLevel_number.
Qed.

Lemma numeric_level_is_info_witness :
  exists e w',
    parseJsonLog Reference.runtime numericLevelLine world0 = (Ok (Some e), w')
    /\ firstTruthy (data e) levelKeys = Ok (Some (VNum (Fin 50)))
    /\ asInteger (Fin 50) = Some 50%Z
    /\ level e = info.
Proof.
  destruct (parseJsonLog Reference.runtime numericLevelLine world0)
    as [[[e|]|] w'] eqn:E; try (vm_compute in E; discriminate E).
  exists e, w'.
  assert (Hl : firstTruthy (data e) levelKeys = Ok (Some (VNum (Fin 50)))).
  { vm_compute in E. injection E as E _. subst e. reflexivity. }
  split; [reflexivity|]. split; [exact Hl|]. split; [reflexivity|].
  exact (numeric_level_is_info Reference.runtime numericLevelLine world0 w' e
           (Fin 50) 50%Z E Hl eq_refl).
Defined.

Lemma search_headless (n : nat) (r : regex) (p : ascii -> bool) :
  (forall s c k,
      match s with
      | a :: _ => p a = false
      | [] => True
      end -> rmatch n r s c k = None) ->
  forall s i, forallb (fun a => negb (p a)) s = true -> search n r i s = None.
Proof.
  intros Hr s. induction s as [|a s IH]; intros i H; rewrite search_unfold.
  - now rewrite Hr.
  - simpl in H. apply andb_true_iff in H. destruct H as [Ha Hs].
    rewrite Hr; [now apply IH|]. now destruct (p a).
Qed.

Lemma extractTimestamp_needs_digit (line : jsstring) :
  forallb (fun a => negb (isDigit a)) line = true -> extractTimestamp line = None.
Proof.
  intro H. unfold extractTimestamp, exec.
  rewrite (search_headless _ isoRegex isDigit); [|clear|exact H].
  - rewrite (search_headless _ commonRegex isDigit); [|clear|exact H].
    + rewrite (search_headless _ apacheRegex isDigit); [reflexivity| |exact H].
      intros s c k Hs. unfold apacheRegex. cbn [Cats Rep]. rewrite !rmatch_cat.
      unfold d. rewrite rmatch_class. destruct s as [|a s]; [reflexivity|].
      now rewrite Hs.
    + intros s c k Hs. unfold commonRegex, dateDigits. cbn [Cats Rep].
      rewrite !rmatch_cat. unfold d. rewrite rmatch_class.
      destruct s as [|a s]; [reflexivity|]. now rewrite Hs.
  - intros s c k Hs. unfold isoRegex, dateDigits. cbn [Cats Rep].
    rewrite !rmatch_cat. unfold d. rewrite rmatch_class.
    destruct s as [|a s]; [reflexivity|]. now rewrite Hs.
Qed.

(** X27 (extractTimestamp, parsePlainTextLog): a line without a digit
    has no timestamp of its own.  The extractor returns null on it, and
    the plain-text parser dates the entry with the clock, read after the
    reading that made the id; the level is classified from the whole
    line. *)
Theorem line_without_digit_is_dated_by_clock (rt : Runtime) (line : jsstring) (w : World) :
  forallb (fun a => negb (isDigit a)) line = true ->
  extractTimestamp line = None
  /\ exists e,
       parsePlainTextLog rt line w
       = (Ok e, {| idCounter := N.succ (idCounter w); ticks := S (S (ticks w)) |})
       /\ id e = idText (clock rt (ticks w)) (idCounter w)
       /\ dt e = VStr (toISOString rt (clock rt (S (ticks w))))
       /\ level e = detectLogLevel line
       /\ raw e = Some line.
Proof.
  intro H. pose proof (extractTimestamp_needs_digit line H) as E.
  split; [exact E|].
  unfold parsePlainTextLog. rewrite E. mstep. rewrite generateId_run. mstep.
  rewrite nowISO_run. mstep. eexists. split; [reflexivity|].
  cbn [id dt level raw ticks]. repeat split; reflexivity.
Qed.

Lemma line_without_digit_is_dated_by_clock_witness :
  forallb (fun a => negb (isDigit a)) (str "hello") = true
  /\ extractTimestamp (str "hello") = None.
Proof.
  split; [reflexivity|].
  exact (proj1 (line_without_digit_is_dated_by_clock Reference.runtime (str "hello")
                  world0 eq_refl)).
Defined.

(** X28 (parsePlainTextLog, LogDetail): the detail panel of a plain-text
    entry.  The entry of a plain-text line has no [data]; when its
    message does not hold the text ['}} '] and the line itself does not
    decode as JSON, the panel shows the record with the message as its
    only property [content], and opening it writes one line to the
    console. *)
Theorem plain_entry_detail (rt : Runtime) (line : jsstring) (w w' : World)
  (e : LogEntry) :
  parsePlainTextLog rt line w = (Ok e, w') ->
  includes (message e) (str "}} ") = false ->
  JSON_parse rt line = None ->
  data e = VUndefined
  /\ parsedData rt e
     = (VObj [(str "content", VStr (message e))],
        [(str "Failed to parse message as JSON:", message e)]).
Proof.
  intros H Hm Hj.
  assert (Hd : data e = VUndefined /\ raw e = Some line).
  { unfold parsePlainTextLog in H. revert H. mstep. rewrite generateId_run. mstep.
    destruct (extractTimestamp line) as [ts|]; [destruct (nonEmpty ts)|];
      mstep; rewrite ?nowISO_run; mstep; intro H; injection H as <- _; now split. }
  destruct Hd as [Hd Hraw]. split; [exact Hd|].
  unfold parsedData. rewrite Hd. cbn [truthy isObjectType andb].
  assert (Hp : (1 <? length (splitOn (str "}} ") (message e))) = false).
  { rewrite (splitOn_absent (str "}} ") (message e)); [reflexivity|discriminate|exact Hm]. }
  rewrite Hp, Hraw, Hj. now destruct (nonEmpty line).
Qed.

Lemma plain_entry_detail_witness :
  exists e w',
    parsePlainTextLog Reference.runtime (str "hello") world0 = (Ok e, w')
    /\ parsedData Reference.runtime e
       = (VObj [(str "content", VStr (str "hello"))],
          [(str "Failed to parse message as JSON:", str "hello")]).
Proof.
  destruct (parsePlainTextLog Reference.runtime (str "hello") world0)
    as [[e|] w'] eqn:E; [|vm_compute in E; discriminate E].
  exists e, w'. split; [reflexivity|].
  assert (Hm : message e = str "hello").
  { vm_compute in E. injection E as E _. subst e. reflexivity. }
  destruct (plain_entry_detail Reference.runtime (str "hello") world0 w' e E)
    as [_ H]; [rewrite Hm; reflexivity|reflexivity|].
  rewrite H, Hm. reflexivity.
Defined.
